(** * scalarProd_hardened: the dot-product kernel and its voter

    A shallow embedding of [scalarProd_kernel.cuh]:
    - [scalarProdGPU], the hierarchical dot-product kernel (strided lane
      accumulation, then a tree reduction over [ACCUM_N] accumulators);
    - [check_correctness], the majority voter over three result copies.

    Conventions of the embedding.
    - [float] is IEEE binary32 (24-bit significand, emax 128) with the
      operations of the standard library's [SpecFloat]; [sum += a * b] is one
      multiplication followed by one addition, as the source is written.
    - [int] values are integers in [-2^31, 2^31); every arithmetic operation
      of the source on them wraps ([wrap32]); an index expression that mixes
      [int] with the unsigned [threadIdx] is computed modulo 2^32 ([wrapU32]).
    - A device array is a total map from element offsets to floats.
    - All the threads of a block go through the same sequence of items
      (the bounds of the loops over the vectors and over the rounds do not
      depend on [threadIdx]).  The only barrier of the source is the
      [__syncthreads()] of line 77, at the start of every round of the
      reduction.  Between two barriers the threads of a block run one
      after the other in an order given by a schedule, each one through
      all of its items up to the next barrier.  In particular nothing
      separates the last round and line 83 of one vector from lines 61-69
      of the next vector of the block.  In [scalarProdGPU_orders] the
      order of the threads can change at every barrier; [scalarProdGPU]
      is the kernel under one order for all the segments.
    - The blocks of a grid run one after the other in the order given by a
      schedule: blocks do not synchronise, and any order is possible.
      Theorems quantify over the two schedules.
    - A source loop is a function with fuel that returns [None] when the fuel
      runs out. *)

From Stdlib Require Import ZArith List Lia Bool Permutation Sorted.
From Stdlib Require Import SpecFloat.
Import ListNotations.
Open Scope Z_scope.

(** ** Machine numbers *)

Definition float : Type := spec_float.

Definition fadd : float -> float -> float := SFadd 24 128.
Definition fmul : float -> float -> float := SFmul 24 128.

(** C's [==] and [!=] on floats: a NaN is unequal to everything. *)
Definition feqb : float -> float -> bool := SFeqb.
Definition fneb (a b : float) : bool := negb (feqb a b).

Definition fzero : float := S754_zero false.
Definition fone : float := S754_finite false 8388608 (-23).
Definition fnan : float := S754_nan.

(** [int]: two's complement on 32 bits. *)
Definition wrap32 (x : Z) : Z := (x + 2 ^ 31) mod 2 ^ 32 - 2 ^ 31.

(** [unsigned int]. *)
Definition wrapU32 (x : Z) : Z := x mod 2 ^ 32.

(** The signed value of the low 24 bits. *)
Definition sext24 (x : Z) : Z := (x + 2 ^ 23) mod 2 ^ 24 - 2 ^ 23.

(** [#define IMUL(a, b) __mul24(a, b)]: the low 32 bits of the product of
    the low 24 bits of the operands. *)
Definition IMUL (a b : Z) : Z := wrap32 (sext24 a * sext24 b).

(** [#define ACCUM_N 1024] *)
Definition ACCUM_N_default : Z := 1024.

(** ** Device memory *)

Definition mem : Type := Z -> float.

Definition store (m : mem) (i : Z) (x : float) : mem :=
  fun j => if j =? i then x else m j.

(** ** Control *)

Definition bind {A B : Type} (m : option A) (k : A -> option B) : option B :=
  match m with
  | Some a => k a
  | None => None
  end.

Notation "'let*' x ':=' m 'in' k" := (bind m (fun x => k))
  (at level 10, x name, m at level 100, k at level 200).

(** [for (int i = start; i < limit; i += step) body] *)
Fixpoint for_loop {S : Type} (fuel : nat) (i limit step : Z)
    (body : Z -> S -> option S) (s : S) : option S :=
  if i <? limit then
    match fuel with
    | O => None
    | Datatypes.S fuel' =>
        let* s' := body i s in
        for_loop fuel' (wrap32 (i + step)) limit step body s'
    end
  else Some s.

(** The threads [(threadIdx.x, threadIdx.y)] of a block, one after the other
    in the order of [ts], each one through [f]. *)
Definition forall_threads {S : Type} (ts : list (Z * Z))
    (f : Z -> Z -> S -> option S) (s : S) : option S :=
  fold_left (fun acc t => let* s' := acc in f (fst t) (snd t) s') ts (Some s).

Definition seqZ (n : Z) : list Z := map Z.of_nat (seq 0 (Z.to_nat n)).

(** The threads of a block of [bx] by [by_] threads. *)
Definition block_threads (bx by_ : Z) : list (Z * Z) :=
  list_prod (seqZ bx) (seqZ by_).

(** ** The dot-product kernel *)

Record kstate : Type := mkK {
  accumResult : mem;   (* __shared__ float accumResult[ACCUM_N*3] *)
  d_C : mem
}.

Definition set_accum (st : kstate) (i : Z) (x : float) : kstate :=
  mkK (store (accumResult st) i x) (d_C st).

Definition set_C (st : kstate) (i : Z) (x : float) : kstate :=
  mkK (accumResult st) (store (d_C st) i x).

(** The code of a thread between its entry and its exit, as a sequence of
    items.  The loop over the vectors (line 50) and the loop over the rounds
    (line 75) have bounds that do not depend on [threadIdx], so all the
    threads of a block go through the same sequence. *)
Inductive item : Type :=
| Accum (vectorBase vectorEnd : Z)   (* lines 61-69 *)
| Barrier                            (* line 77: __syncthreads() *)
| Reduce (stride : Z)                (* lines 78-80 *)
| Write (vec : Z)                    (* line 83 *)
| Sentinel.                          (* line 85 *)

(** The items between two consecutive barriers. *)
Fixpoint segments (p : list item) : list (list item) :=
  match p with
  | [] => [[]]
  | Barrier :: p' => [] :: segments p'
  | it :: p' =>
      match segments p' with
      | seg :: segs => (it :: seg) :: segs
      | [] => [[it]]
      end
  end.

Section Kernel.

Variable ACCUM_N : Z.
Variables d_A d_B : mem.
Variables vectorN elementN : Z.
Variables gridDim_x blockDim_x : Z.
Variable fuel : nat.

(** Lines 63-66: the partial sum of accumulator [iAccum]. *)
Definition lane_sum (vectorBase vectorEnd iAccum : Z) : option float :=
  for_loop fuel (wrap32 (vectorBase + iAccum)) vectorEnd ACCUM_N
    (fun pos sum => Some (fadd sum (fmul (d_A pos) (d_B pos))))
    fzero.

(** Lines 61-69, one thread. *)
Definition accum_phase (vectorBase vectorEnd : Z)
    (threadIdx_x threadIdx_y : Z) (st : kstate) : option kstate :=
  for_loop fuel (wrap32 threadIdx_x) ACCUM_N blockDim_x
    (fun iAccum st =>
       let* sum := lane_sum vectorBase vectorEnd iAccum in
       Some (set_accum st (wrapU32 (iAccum + ACCUM_N * threadIdx_y)) sum))
    st.

(** Lines 79-80, one thread. *)
Definition reduce_phase (stride : Z)
    (threadIdx_x threadIdx_y : Z) (st : kstate) : option kstate :=
  for_loop fuel (wrap32 threadIdx_x) stride blockDim_x
    (fun iAccum st =>
       let i := wrapU32 (iAccum + ACCUM_N * threadIdx_y) in
       let j := wrapU32 (stride + iAccum + ACCUM_N * threadIdx_y) in
       Some (set_accum st i
               (fadd (accumResult st i) (accumResult st j))))
    st.

(** Line 83, one thread. *)
Definition write_phase (vec : Z)
    (threadIdx_x threadIdx_y : Z) (st : kstate) : option kstate :=
  if threadIdx_x =? 0 then
    Some (set_C st (wrapU32 (vec + 256 * threadIdx_y))
            (accumResult st (wrapU32 (0 + ACCUM_N * threadIdx_y))))
  else Some st.

(** Line 85, one thread. *)
Definition sentinel_phase (blockIdx_x : Z)
    (threadIdx_x threadIdx_y : Z) (st : kstate) : option kstate :=
  if (threadIdx_x =? 0) && (threadIdx_y =? 0) && (blockIdx_x =? 0)
  then Some (set_C st 0 fone)
  else Some st.

(** Lines 75-81 as items: [__syncthreads()] opens every round, and there is
    no barrier after the last one. *)
Fixpoint round_items (n : nat) (stride : Z) : option (list item) :=
  if stride >? 0 then
    match n with
    | O => None
    | Datatypes.S n' =>
        let* rest := round_items n' (Z.shiftr stride 1) in
        Some (Barrier :: Reduce stride :: rest)
    end
  else Some [].

(** Lines 52-83 as items: one iteration of the loop over the vectors. *)
Definition vec_items (vec : Z) : option (list item) :=
  let vectorBase := IMUL elementN vec in
  let vectorEnd := wrap32 (vectorBase + elementN) in
  let* rounds := round_items fuel (Z.quot ACCUM_N 2) in
  Some (Accum vectorBase vectorEnd :: rounds ++ [Write vec]).

(** Lines 50-85 as items: the code of a thread of block [blockIdx_x]. *)
Definition block_items (blockIdx_x : Z) : option (list item) :=
  let* body :=
    for_loop fuel (wrap32 blockIdx_x) vectorN gridDim_x
      (fun vec p => let* q := vec_items vec in Some (p ++ q)) [] in
  Some (body ++ [Sentinel]).

(** One item run by one thread. *)
Definition exec_item (blockIdx_x : Z) (it : item)
    (threadIdx_x threadIdx_y : Z) (st : kstate) : option kstate :=
  match it with
  | Accum vectorBase vectorEnd =>
      accum_phase vectorBase vectorEnd threadIdx_x threadIdx_y st
  | Barrier => Some st
  | Reduce stride => reduce_phase stride threadIdx_x threadIdx_y st
  | Write vec => write_phase vec threadIdx_x threadIdx_y st
  | Sentinel => sentinel_phase blockIdx_x threadIdx_x threadIdx_y st
  end.

(** One thread runs the items between two barriers in program order. *)
Fixpoint run_thread (blockIdx_x : Z) (seg : list item)
    (threadIdx_x threadIdx_y : Z) (st : kstate) : option kstate :=
  match seg with
  | [] => Some st
  | it :: seg' =>
      let* st' := exec_item blockIdx_x it threadIdx_x threadIdx_y st in
      run_thread blockIdx_x seg' threadIdx_x threadIdx_y st'
  end.

(** The block: between two barriers the threads run one after the other,
    each one through all of its items up to the next barrier; the barrier
    is passed when all of them have reached it.  [order j] is the order of
    the threads in the [j]-th segment. *)
Fixpoint run_segments (blockIdx_x : Z) (order : nat -> list (Z * Z))
    (j : nat) (segs : list (list item)) (st : kstate) : option kstate :=
  match segs with
  | [] => Some st
  | seg :: segs' =>
      let* st' := forall_threads (order j) (run_thread blockIdx_x seg) st in
      run_segments blockIdx_x order (Datatypes.S j) segs' st'
  end.

(** Lines 50-85: one block.  [shared] is what the block finds in its
    accumulator cache when it starts. *)
Definition run_block_orders (order : nat -> list (Z * Z)) (shared : mem)
    (blockIdx_x : Z) (C : mem) : option mem :=
  let* p := block_items blockIdx_x in
  let* st := run_segments blockIdx_x order 0 (segments p) (mkK shared C) in
  Some (d_C st).

(** The grid: the blocks of [bs] one after the other; [order b] gives the
    orders of the threads of block [b]. *)
Definition scalarProdGPU_orders (bs : list Z)
    (order : Z -> nat -> list (Z * Z)) (shared : Z -> mem) (C : mem)
    : option mem :=
  fold_left
    (fun acc b =>
       let* C' := acc in run_block_orders (order b) (shared b) b C')
    bs (Some C).

(** The same when the threads run in the order [ts] between every two
    barriers. *)
Definition run_block (ts : list (Z * Z)) (shared : mem) (blockIdx_x : Z)
    (C : mem) : option mem :=
  run_block_orders (fun _ => ts) shared blockIdx_x C.

Definition scalarProdGPU (bs : list Z) (ts : list (Z * Z))
    (shared : Z -> mem) (C : mem) : option mem :=
  fold_left (fun acc b => let* C' := acc in run_block ts (shared b) b C')
    bs (Some C).

End Kernel.

(** ** Iteration spaces and values of the kernel *)

(** The values [i, i + step, ...] below [limit] that a loop counter takes. *)
Fixpoint strides (n : nat) (i limit step : Z) : list Z :=
  match n with
  | O => []
  | Datatypes.S n' =>
      if i <? limit then i :: strides n' (i + step) limit step else []
  end.

Definition stride_list (i limit step : Z) : list Z :=
  strides (Z.to_nat (limit - i)) i limit step.

(** The iterations [(iAccum, threadIdx.y)] of the threads of [ts] when every
    thread runs
    [for (iAccum = threadIdx.x; iAccum < limit; iAccum += blockDim.x)]. *)
Definition tasks (ts : list (Z * Z)) (limit blockDim_x : Z) : list (Z * Z) :=
  flat_map
    (fun t => map (fun i => (i, snd t)) (stride_list (fst t) limit blockDim_x))
    ts.

(** [sum = 0; sum += d_A[pos] * d_B[pos]] over the positions of [l]. *)
Definition lane_fold (d_A d_B : mem) (l : list Z) : float :=
  fold_left (fun sum pos => fadd sum (fmul (d_A pos) (d_B pos))) l fzero.

(** The partial sum that accumulator [iAccum] gets for the vector that
    occupies [vectorBase, vectorEnd). *)
Definition lane_value (ACCUM_N : Z) (d_A d_B : mem)
    (vectorBase vectorEnd iAccum : Z) : float :=
  lane_fold d_A d_B (stride_list (vectorBase + iAccum) vectorEnd ACCUM_N).

(** What [m] rounds of the reduction, with strides [2^(m-1)], ..., [1],
    leave in accumulator 0 when accumulator [i] starts with [f i]. *)
Fixpoint tree_fun (m : nat) (f : Z -> float) : float :=
  match m with
  | O => f 0
  | Datatypes.S m' =>
      tree_fun m' (fun i => fadd (f i) (f (i + 2 ^ Z.of_nat m')))
  end.

(** The value the kernel computes for vector [vec], with [ACCUM_N = 2^k]. *)
Definition vec_value (k : nat) (d_A d_B : mem) (elementN vec : Z) : float :=
  let vectorBase := IMUL elementN vec in
  let vectorEnd := wrap32 (vectorBase + elementN) in
  tree_fun k (lane_value (2 ^ Z.of_nat k) d_A d_B vectorBase vectorEnd).

(** One round of the reduction: accumulator [i] adds accumulator
    [i + stride]. *)
Definition round_fun (stride : Z) (f : Z -> float) : Z -> float :=
  fun i => fadd (f i) (f (i + stride)).

(** The accumulators after the rounds with strides [2^m], ..., [2], when
    accumulator [i] starts with [f i]. *)
Fixpoint upper (m : nat) (f : Z -> float) : Z -> float :=
  match m with
  | O => f
  | Datatypes.S m' => upper m' (round_fun (2 ^ Z.of_nat (Datatypes.S m')) f)
  end.

(** The accumulators of vector [vec] after lines 61-69. *)
Definition lanes (k : nat) (d_A d_B : mem) (elementN vec : Z) : Z -> float :=
  lane_value (2 ^ Z.of_nat k) d_A d_B (IMUL elementN vec)
    (wrap32 (IMUL elementN vec + elementN)).

(** The value written for vector [vec] when, in the round with stride 1,
    accumulator 1 already holds the partial sum of the next vector of the
    block, [vec + gridDim_x]: no barrier separates line 83 of one vector
    from lines 61-69 of the next one. *)
Definition racy_value (k : nat) (d_A d_B : mem) (elementN gridDim_x vec : Z)
    : float :=
  fadd (upper (Nat.pred k) (lanes k d_A d_B elementN vec) 0)
       (lanes k d_A d_B elementN (vec + gridDim_x) 1).

(** The values that a launch can leave in a slot of vector [vec]: the value
    of the vector, or, in a block of several threads per row that goes on to
    another vector, the value of the race on accumulator 1. *)
Definition slot_value (k : nat) (d_A d_B : mem)
    (vectorN elementN gridDim_x blockDim_x : Z) (vec : Z) (x : float)
    : Prop :=
  x = vec_value k d_A d_B elementN vec \/
  ((0 < k)%nat /\ 1 < blockDim_x /\ vec + gridDim_x < vectorN /\
   x = racy_value k d_A d_B elementN gridDim_x vec).

(** The items of the rounds with strides [2^j], ..., [2], each followed by
    the barrier that opens the next round. *)
Fixpoint uppers (j : nat) : list item :=
  match j with
  | O => []
  | Datatypes.S j' =>
      Reduce (2 ^ Z.of_nat (Datatypes.S j')) :: Barrier :: uppers j'
  end.

(** The items of [ACCUM_N = 2^k]'s rounds. *)
Definition rounds_of (k : nat) : list item :=
  match k with
  | O => []
  | Datatypes.S m => Barrier :: uppers m ++ [Reduce 1]
  end.

(** The items of one vector, and of the vectors of a block. *)
Definition vitems (k : nat) (elementN vec : Z) : list item :=
  Accum (IMUL elementN vec) (wrap32 (IMUL elementN vec + elementN))
  :: rounds_of k ++ [Write vec].

Definition program (k : nat) (elementN : Z) (vecs : list Z) : list item :=
  concat (map (vitems k elementN) vecs) ++ [Sentinel].

Definition no_barrier (l : list item) : bool :=
  forallb (fun it => match it with Barrier => false | _ => true end) l.

(** The element loop of vector [vec] stays inside [int] and inside the
    fuel. *)
Definition vec_ok (ACCUM_N elementN : Z) (fuel : nat) (vec : Z) : Prop :=
  let vectorBase := IMUL elementN vec in
  let vectorEnd := wrap32 (vectorBase + elementN) in
  vectorBase + ACCUM_N <= 2 ^ 31 /\
  vectorEnd + ACCUM_N <= 2 ^ 31 /\
  vectorEnd - vectorBase <= Z.of_nat fuel.

(** A launch [<<<gridDim_x, (blockDim_x, blockDim_y)>>>] of the kernel with
    [ACCUM_N = 2^k], run under the schedules [bs] and [ts] with [fuel]:
    the accumulator cache has room for the rows of the block, the loop
    counters stay inside [int], and the fuel covers every loop. *)
Record engine_ok (k : nat) (vectorN elementN : Z)
    (gridDim_x blockDim_x blockDim_y : Z) (fuel : nat)
    (bs : list Z) (ts : list (Z * Z)) : Prop := {
  ok_accum : 2 ^ Z.of_nat k <= 2 ^ 30;
  ok_grid : 0 < gridDim_x < 2 ^ 31 /\ vectorN + gridDim_x <= 2 ^ 31;
  ok_block_x : 0 < blockDim_x /\ 2 ^ Z.of_nat k + blockDim_x <= 2 ^ 31;
  ok_block_y : 0 < blockDim_y <= 3;
  ok_blocks : Permutation bs (seqZ gridDim_x);
  ok_threads : Permutation ts (block_threads blockDim_x blockDim_y);
  ok_fuel : vectorN <= Z.of_nat fuel /\ 2 ^ Z.of_nat k <= Z.of_nat fuel;
  ok_vec : forall vec, 0 <= vec < vectorN ->
           vec_ok (2 ^ Z.of_nat k) elementN fuel vec
}.

(** The same for a launch in which the order of the threads changes from one
    segment to the next: [order b j] is the order of the threads of block
    [b] in its [j]-th segment. *)
Definition engine_ok_orders (k : nat) (vectorN elementN : Z)
    (gridDim_x blockDim_x blockDim_y : Z) (fuel : nat)
    (bs : list Z) (order : Z -> nat -> list (Z * Z)) : Prop :=
  forall b j,
    engine_ok k vectorN elementN gridDim_x blockDim_x blockDim_y fuel bs
      (order b j).

(** Vector [vec] is written to slot [s] of [d_C] by one of the rows. *)
Definition writes_slot (blockDim_y vec s : Z) : Prop :=
  exists ty, 0 <= ty < blockDim_y /\ s = vec + 256 * ty.

(** Slot [s] of [C'] after the vectors [vecs] have been processed from [C]:
    the slot is as in [C] when no vector of [vecs] is written to it, and
    holds a value that [R] allows for one of its writers otherwise. *)
Definition slot_state (R : Z -> float -> Prop) (blockDim_y : Z) (C C' : mem)
    (vecs : list Z) (s : Z) : Prop :=
  (C' s = C s /\ forall vec, In vec vecs -> ~ writes_slot blockDim_y vec s) \/
  (exists vec, In vec vecs /\ writes_slot blockDim_y vec s /\ R vec (C' s)).

(** The vectors that the blocks [bs] process. *)
Definition vecs_of (vectorN gridDim_x : Z) (bs : list Z) : list Z :=
  flat_map (fun b => stride_list b vectorN gridDim_x) bs.

(** Slot [s] of the output of a launch. *)
Definition output_at (o : option mem) (s : Z) : option float :=
  match o with
  | Some C' => Some (C' s)
  | None => None
  end.

(** ** The sequential reference of the specification *)

(** The positions [lane, lane + accumN, lane + 2*accumN, ...] of a vector of
    [elementN] elements: those congruent to [lane], in increasing order. *)
Definition ref_positions (accumN elementN lane : Z) : list Z :=
  filter (fun i => i mod accumN =? lane) (seqZ elementN).

(** The partial sum of [lane] for vector [v]. *)
Definition ref_lane_sum (accumN : Z) (A B : mem) (elementN v lane : Z)
    : float :=
  fold_left
    (fun sum i =>
       fadd sum (fmul (A (v * elementN + i)) (B (v * elementN + i))))
    (ref_positions accumN elementN lane) fzero.

(** One round of the tree: lane [i] below [stride] adds lane [i + stride]. *)
Definition ref_round (stride : Z) (l : list float) : list float :=
  map (fun i => fadd (nth (Z.to_nat i) l fzero)
                     (nth (Z.to_nat (i + stride)) l fzero))
      (seqZ stride).

(** The rounds with the strides [stride], [stride/2], ... *)
Fixpoint ref_tree (rounds : nat) (stride : Z) (l : list float) : list float :=
  match rounds with
  | O => l
  | Datatypes.S r => ref_tree r (stride / 2) (ref_round stride l)
  end.

(** The dot product of vector [v] in the strided-then-tree order. *)
Definition ref_dot (accumN : Z) (A B : mem) (elementN v : Z) : float :=
  hd fzero
    (ref_tree (Z.to_nat (Z.log2 accumN)) (accumN / 2)
       (map (ref_lane_sum accumN A B elementN v) (seqZ accumN))).

(** ** The voter *)

Inductive action : Type :=
| Compare (i j : Z)                 (* result[i] != result[j] is evaluated *)
| Store (i : Z) (x : float)         (* result[i] = x *)
| PrintDUE (x y z : float).         (* printf ("DUE %f %f %f\n", x, y, z) *)

(** An event is an action with the [tid] of the thread that performs it. *)
Definition event : Type := (Z * action)%type.

Record vstate : Type := mkV {
  result : mem;
  trace : list event
}.

Definition emit (st : vstate) (e : event) : vstate :=
  mkV (result st) (trace st ++ [e]).

Definition write_result (st : vstate) (tid i : Z) (x : float) : vstate :=
  mkV (store (result st) i x) (trace st ++ [(tid, Store i x)]).

(** [check_correctness], one thread. *)
Definition check_correctness (size : Z)
    (blockDim_x blockIdx_x threadIdx_x : Z) (st : vstate) : vstate :=
  let tid := wrap32 (threadIdx_x + blockIdx_x * blockDim_x) in
  if tid >=? size then st
  else
    let i1 := wrap32 (tid + size) in
    let i2 := wrap32 (tid + wrap32 (size * 2)) in
    let r := result st in
    let correct st := write_result st tid tid (r i2) in
    let st := emit st (tid, Compare tid i1) in
    if fneb (r tid) (r i1) then
      let st := emit st (tid, Compare tid i2) in
      if fneb (r tid) (r i2) then
        let st := emit st (tid, Compare i1 i2) in
        if fneb (r i1) (r i2) then
          emit st (tid, PrintDUE (r tid) (r i1) (r i2))
        else correct st
      else correct st
    else st.

(** The threads [(blockIdx.x, threadIdx.x)] of a one-dimensional grid. *)
Definition grid_threads (gridDim_x blockDim_x : Z) : list (Z * Z) :=
  list_prod (seqZ gridDim_x) (seqZ blockDim_x).

(** The voter kernel: the threads of [sched] one after the other. *)
Definition run_voter (size blockDim_x : Z) (sched : list (Z * Z))
    (st : vstate) : vstate :=
  fold_left (fun st t => check_correctness size blockDim_x (fst t) (snd t) st)
    sched st.

(** [int tid = threadIdx.x + blockIdx.x * blockDim.x] of the thread
    [t = (blockIdx.x, threadIdx.x)]. *)
Definition tid_of (blockDim_x : Z) (t : Z * Z) : Z :=
  wrap32 (snd t + fst t * blockDim_x).

(** [copyk[tid]] is [result[tid + k*size]]. *)
Definition copy (k size : Z) (r : mem) (tid : Z) : float := r (tid + k * size).

(** A launch of the voter on the buffer [r]. *)
Definition vote (size blockDim_x : Z) (sched : list (Z * Z)) (r : mem)
    : vstate :=
  run_voter size blockDim_x sched (mkV r []).

(** The value the voter's contract leaves in [copy0] for one index, from the
    three copies of that index (specification, section 4.2, cases 1 to 3). *)
Definition voted (c0 c1 c2 : float) : float :=
  if feqb c0 c1 then c0
  else if feqb c0 c2 || feqb c1 c2 then c2
  else c0.

(** The diagnostics of index [tid] in a trace. *)
Definition is_due_at (tid : Z) (e : event) : bool :=
  (fst e =? tid) &&
  match snd e with
  | PrintDUE _ _ _ => true
  | _ => false
  end.

(** ** Example data *)

(** The conversion of an [int] to [float]. *)
Definition float_of_Z (z : Z) : float := binary_normalize 24 128 z 0 false.

Definition buffer_of (l : list Z) : mem :=
  fun i => if i <? 0 then fnan else nth (Z.to_nat i) (map float_of_Z l) fnan.

(** The scenario of the specification: [size = 4],
    [copy0 = 1 2 3 4], [copy1 = 1 9 3 7], [copy2 = 1 2 5 8]. *)
Definition scenario : mem := buffer_of [1; 2; 3; 4; 1; 9; 3; 7; 1; 2; 5; 8].

(** A buffer whose three copies of index 0 are NaN. *)
Definition nan_buffer : mem := fun _ => fnan.

(** Input arrays for the examples. *)
Definition ones : mem := fun _ => fone.
Definition zeros : mem := fun _ => fzero.
Definition unit_at_0 : mem := fun i => if i =? 0 then fone else fzero.

(** The launch of the benchmark: 256 vectors of 4096 elements, 128 blocks of
    256 by 3 threads. *)
Definition bench_blocks : list Z := seqZ 128.
Definition bench_threads : list (Z * Z) := block_threads 256 3.

(** An order of the threads of the benchmark's blocks that is reversed at
    every other barrier. *)
Definition bench_orders (b : Z) (j : nat) : list (Z * Z) :=
  if Nat.even j then bench_threads else rev bench_threads.

(** A fuel that covers the element loop of a vector of [2^24] elements. *)
Definition long_fuel : nat := Z.to_nat 16777217.

(** * Properties *)

(** ** Integers, memory, lists *)

Lemma wrap32_id (x : Z) : - 2 ^ 31 <= x < 2 ^ 31 -> wrap32 x = x.
Proof.
  intros H. unfold wrap32. rewrite Z.mod_small; lia.
Qed.

Lemma wrap32_range (x : Z) : - 2 ^ 31 <= wrap32 x < 2 ^ 31.
Proof.
  unfold wrap32.
  pose proof (Z.mod_pos_bound (x + 2 ^ 31) (2 ^ 32) ltac:(lia)). lia.
Qed.

Lemma wrapU32_id (x : Z) : 0 <= x < 2 ^ 32 -> wrapU32 x = x.
Proof.
  intros H. unfold wrapU32. apply Z.mod_small; lia.
Qed.

Lemma sext24_id (x : Z) : - 2 ^ 23 <= x < 2 ^ 23 -> sext24 x = x.
Proof.
  intros H. unfold sext24. rewrite Z.mod_small; lia.
Qed.

Lemma IMUL_exact (a b : Z) :
  - 2 ^ 23 <= a < 2 ^ 23 -> - 2 ^ 23 <= b < 2 ^ 23 ->
  - 2 ^ 31 <= a * b < 2 ^ 31 ->
  IMUL a b = a * b.
Proof.
  intros Ha Hb Hab. unfold IMUL.
  rewrite !sext24_id by assumption. now apply wrap32_id.
Qed.

Lemma store_same (m : mem) (i : Z) (x : float) : store m i x i = x.
Proof.
  unfold store. now rewrite Z.eqb_refl.
Qed.

Lemma store_other (m : mem) (i j : Z) (x : float) :
  j <> i -> store m i x j = m j.
Proof.
  intros H. unfold store. destruct (Z.eqb_spec j i); congruence.
Qed.

Lemma in_seqZ (n x : Z) : In x (seqZ n) <-> 0 <= x < n.
Proof.
  unfold seqZ. rewrite in_map_iff. split.
  - intros (k & <- & Hk). apply in_seq in Hk. lia.
  - intros H. exists (Z.to_nat x). split; [lia|]. apply in_seq. lia.
Qed.

Lemma NoDup_map_inj {A B : Type} (f : A -> B) (l : list A) :
  (forall x y, In x l -> In y l -> f x = f y -> x = y) ->
  NoDup l -> NoDup (map f l).
Proof.
  intros Hinj Hnd. induction Hnd as [|a l Hna Hnd IH]; simpl.
  - constructor.
  - constructor.
    + intros Hin. apply in_map_iff in Hin as (y & Hy & Hin).
      apply Hna. rewrite (Hinj a y); auto using in_eq, in_cons.
    + apply IH. intros x y Hx Hy. apply Hinj; now right.
Qed.

Lemma NoDup_seqZ (n : Z) : NoDup (seqZ n).
Proof.
  unfold seqZ. apply NoDup_map_inj; [|apply seq_NoDup].
  intros x y _ _ H. lia.
Qed.

Lemma NoDup_list_prod {A B : Type} (l : list A) (l' : list B) :
  NoDup l -> NoDup l' -> NoDup (list_prod l l').
Proof.
  intros Hl Hl'. induction Hl as [|a l Hna Hnd IH]; simpl.
  - constructor.
  - apply NoDup_app.
    + apply NoDup_map_inj; [|assumption]. intros x y _ _ H. congruence.
    + exact IH.
    + intros [x y] H1 H2. apply in_map_iff in H1 as (y' & Heq & _).
      apply in_prod_iff in H2 as [H2 _]. congruence.
Qed.

Lemma in_block_threads (bx by_ tx ty : Z) :
  In (tx, ty) (block_threads bx by_) <-> 0 <= tx < bx /\ 0 <= ty < by_.
Proof.
  unfold block_threads. rewrite in_prod_iff, !in_seqZ. tauto.
Qed.

Lemma NoDup_block_threads (bx by_ : Z) : NoDup (block_threads bx by_).
Proof.
  apply NoDup_list_prod; apply NoDup_seqZ.
Qed.

(** ** The voter *)

Section VoterProps.

Variables size blockDim_x : Z.

Local Abbreviation tidOf := (tid_of blockDim_x) (only parsing).
Local Abbreviation thread t :=
  (check_correctness size blockDim_x (fst t) (snd t)) (only parsing).

(** A thread writes [result[tid]] only, and only when [tid < size]. *)
Lemma check_correctness_frame (t : Z * Z) (st : vstate) (j : Z) :
  size <= j \/ tidOf t <> j ->
  result (thread t st) j = result st j.
Proof.
  intros Hj. unfold check_correctness. fold (tidOf t).
  destruct (Z.geb_spec (tidOf t) size) as [Hge|Hlt]; [reflexivity|].
  assert (j <> tidOf t) by lia.
  repeat match goal with
         | |- context [if ?c then _ else _] => destruct c
         end; simpl; try reflexivity; now apply store_other.
Qed.

(** What a thread does depends on the state through its three cells. *)
Lemma check_correctness_local (t : Z * Z) (st : vstate) (r : mem) :
  let tid := tidOf t in
  result st tid = r tid ->
  result st (wrap32 (tid + size)) = r (wrap32 (tid + size)) ->
  result st (wrap32 (tid + wrap32 (size * 2))) =
    r (wrap32 (tid + wrap32 (size * 2))) ->
  result (thread t st) tid = result (thread t (mkV r [])) tid /\
  trace (thread t st) = trace st ++ trace (thread t (mkV r [])).
Proof.
  intros tid H0 H1 H2. unfold check_correctness.
  fold (tidOf t). fold tid. simpl result. rewrite H0, H1, H2.
  destruct (tid >=? size).
  - simpl. rewrite app_nil_r. auto.
  - repeat match goal with
           | |- context [if ?c then _ else _] => destruct c
           end; simpl; rewrite ?store_same, <- ?app_assoc; simpl; auto.
Qed.

(** Every event a thread adds carries its [tid]. *)
Lemma check_correctness_tags (t : Z * Z) (st : vstate) (j : Z) (a : action) :
  tidOf t <> j ->
  In (j, a) (trace (thread t st)) <-> In (j, a) (trace st).
Proof.
  intros Hj. unfold check_correctness. fold (tidOf t).
  repeat match goal with
         | |- context [if ?c then _ else _] => destruct c
         end; simpl; rewrite ?in_app_iff; simpl;
    intuition (try congruence).
Qed.

Lemma run_voter_frame (l : list (Z * Z)) (st : vstate) (j : Z) :
  size <= j \/ (forall t, In t l -> tidOf t <> j) ->
  result (run_voter size blockDim_x l st) j = result st j.
Proof.
  revert st. induction l as [|t l IH]; intros st Hj; simpl; [reflexivity|].
  rewrite IH.
  - apply check_correctness_frame. destruct Hj as [Hj|Hj]; [now left|].
    right. apply Hj. now left.
  - destruct Hj as [Hj|Hj]; [now left|]. right. intros t' Ht'.
    apply Hj. now right.
Qed.

Lemma run_voter_tags (l : list (Z * Z)) (st : vstate) (j : Z) (a : action) :
  (forall t, In t l -> tidOf t <> j) ->
  In (j, a) (trace (run_voter size blockDim_x l st)) <-> In (j, a) (trace st).
Proof.
  revert st. induction l as [|t l IH]; intros st Hj; simpl; [reflexivity|].
  rewrite IH by (intros t' Ht'; apply Hj; now right).
  apply check_correctness_tags. apply Hj. now left.
Qed.

Lemma run_voter_app (l1 l2 : list (Z * Z)) (st : vstate) :
  run_voter size blockDim_x (l1 ++ l2) st =
  run_voter size blockDim_x l2 (run_voter size blockDim_x l1 st).
Proof.
  unfold run_voter. apply fold_left_app.
Qed.

Variable gridDim_x : Z.
Variable sched : list (Z * Z).
Hypothesis Hsched : Permutation sched (grid_threads gridDim_x blockDim_x).
Hypothesis Hgrid : gridDim_x * blockDim_x <= 2 ^ 31.
Hypothesis Hsize : 3 * size <= 2 ^ 31.

Lemma in_sched (t : Z * Z) :
  In t sched <-> 0 <= fst t < gridDim_x /\ 0 <= snd t < blockDim_x.
Proof.
  destruct t as [b x]. split.
  - intros H. apply (Permutation_in _ Hsched) in H.
    apply in_prod_iff in H. now rewrite !in_seqZ in H.
  - intros H. apply (Permutation_in _ (Permutation_sym Hsched)).
    apply in_prod_iff. now rewrite !in_seqZ.
Qed.

Lemma tid_of_exact (t : Z * Z) :
  In t sched -> tidOf t = snd t + fst t * blockDim_x.
Proof.
  intros H. apply in_sched in H. unfold tid_of. apply wrap32_id.
  assert (0 <= fst t * blockDim_x) by nia.
  assert (fst t * blockDim_x <= (gridDim_x - 1) * blockDim_x) by nia.
  assert ((gridDim_x - 1) * blockDim_x = gridDim_x * blockDim_x - blockDim_x)
    by ring.
  lia.
Qed.

Lemma tid_of_inj (t t' : Z * Z) :
  In t sched -> In t' sched -> tidOf t = tidOf t' -> t = t'.
Proof.
  intros H H' Heq. rewrite !tid_of_exact in Heq by assumption.
  apply in_sched in H, H'. destruct t as [b x], t' as [b' x']. simpl in *.
  assert (b = b') by nia. subst b'. f_equal. lia.
Qed.

Lemma NoDup_sched : NoDup sched.
Proof.
  apply (Permutation_NoDup (Permutation_sym Hsched)).
  apply NoDup_list_prod; apply NoDup_seqZ.
Qed.

(** The thread of an index in the grid. *)
Lemma thread_of_index (tid : Z) :
  0 < blockDim_x ->
  0 <= tid < gridDim_x * blockDim_x ->
  exists t, In t sched /\ tidOf t = tid.
Proof.
  intros Hbd H.
  exists (tid / blockDim_x, tid mod blockDim_x).
  assert (Hin : In (tid / blockDim_x, tid mod blockDim_x) sched).
  { apply in_sched. simpl.
    pose proof (Z.mod_pos_bound tid blockDim_x ltac:(lia)).
    pose proof (Z.div_mod tid blockDim_x ltac:(lia)).
    assert (0 <= tid / blockDim_x) by (apply Z.div_pos; lia).
    assert (tid / blockDim_x < gridDim_x)
      by (apply Z.div_lt_upper_bound; lia).
    lia. }
  split; [exact Hin|]. rewrite tid_of_exact by exact Hin. simpl.
  pose proof (Z.div_mod tid blockDim_x ltac:(lia)). lia.
Qed.

(** With one thread per index, the voter leaves at [tid] what the thread of
    [tid] does on the initial buffer. *)
Lemma run_voter_at (r : mem) (t : Z * Z) :
  In t sched ->
  0 <= tidOf t < size ->
  result (vote size blockDim_x sched r) (tidOf t) =
    result (thread t (mkV r [])) (tidOf t) /\
  forall a, In (tidOf t, a) (trace (vote size blockDim_x sched r)) <->
            In (tidOf t, a) (trace (thread t (mkV r []))).
Proof.
  intros Hin Htid. unfold vote.
  destruct (in_split _ _ Hin) as (l1 & l2 & Heq).
  pose proof NoDup_sched as Hnd. rewrite Heq in Hnd.
  assert (Hl1 : forall t', In t' l1 -> tidOf t' <> tidOf t).
  { intros t' Ht' Habs. apply NoDup_remove_2 in Hnd. apply Hnd.
    assert (t' = t).
    { apply tid_of_inj; auto. rewrite Heq. apply in_or_app. now left. }
    subst t'. apply in_or_app. now left. }
  assert (Hl2 : forall t', In t' l2 -> tidOf t' <> tidOf t).
  { intros t' Ht' Habs. apply NoDup_remove_2 in Hnd. apply Hnd.
    assert (t' = t).
    { apply tid_of_inj; auto. rewrite Heq. apply in_or_app.
      right. now right. }
    subst t'. apply in_or_app. now right. }
  rewrite Heq, run_voter_app. simpl.
  set (st1 := run_voter size blockDim_x l1 (mkV r [])).
  assert (Hi1 : wrap32 (tidOf t + size) = tidOf t + size)
    by (apply wrap32_id; lia).
  assert (Hi2 : wrap32 (tidOf t + wrap32 (size * 2)) = tidOf t + size * 2)
    by (rewrite (wrap32_id (size * 2)) by lia; apply wrap32_id; lia).
  destruct (check_correctness_local t st1 r) as [Hres Htr].
  { unfold st1. rewrite run_voter_frame; auto. }
  { unfold st1. rewrite run_voter_frame; [reflexivity|]. left. lia. }
  { unfold st1. rewrite run_voter_frame; [reflexivity|]. left. lia. }
  split.
  - rewrite run_voter_frame by (right; exact Hl2). exact Hres.
  - intros a. rewrite run_voter_tags by exact Hl2.
    rewrite Htr, in_app_iff.
    unfold st1. rewrite run_voter_tags by exact Hl1. simpl. tauto.
Qed.

End VoterProps.

Lemma copy0_eq (size : Z) (r : mem) (j : Z) : copy 0 size r j = r j.
Proof.
  unfold copy. f_equal. lia.
Qed.

Lemma copy1_eq (size : Z) (r : mem) (j : Z) : copy 1 size r j = r (j + size).
Proof.
  unfold copy. f_equal. lia.
Qed.

Lemma copy2_eq (size : Z) (r : mem) (j : Z) :
  copy 2 size r j = r (j + size * 2).
Proof.
  unfold copy. f_equal. lia.
Qed.

Section VoterContract.

Variables size gridDim_x blockDim_x : Z.
Variable sched : list (Z * Z).
Variable r : mem.

Hypothesis Hsched : Permutation sched (grid_threads gridDim_x blockDim_x).
Hypothesis Hgrid : gridDim_x * blockDim_x <= 2 ^ 31.
Hypothesis Hsize : 3 * size <= 2 ^ 31.
Hypothesis Hbd : 0 < blockDim_x.

(** What the thread of [tid] does on the initial buffer, with the index
    arithmetic evaluated. *)
Lemma check_correctness_alone (t : Z * Z) (tid : Z) :
  wrap32 (snd t + fst t * blockDim_x) = tid ->
  0 <= tid < size ->
  check_correctness size blockDim_x (fst t) (snd t) (mkV r []) =
  if fneb (copy 0 size r tid) (copy 1 size r tid) then
    if fneb (copy 0 size r tid) (copy 2 size r tid) then
      if fneb (copy 1 size r tid) (copy 2 size r tid) then
        mkV r [(tid, Compare tid (tid + size));
               (tid, Compare tid (tid + size * 2));
               (tid, Compare (tid + size) (tid + size * 2));
               (tid, PrintDUE (copy 0 size r tid) (copy 1 size r tid)
                               (copy 2 size r tid))]
      else
        mkV (store r tid (copy 2 size r tid))
            [(tid, Compare tid (tid + size));
             (tid, Compare tid (tid + size * 2));
             (tid, Compare (tid + size) (tid + size * 2));
             (tid, Store tid (copy 2 size r tid))]
    else
      mkV (store r tid (copy 2 size r tid))
          [(tid, Compare tid (tid + size));
           (tid, Compare tid (tid + size * 2));
           (tid, Store tid (copy 2 size r tid))]
  else mkV r [(tid, Compare tid (tid + size))].
Proof.
  intros Ht Htid. rewrite copy0_eq, copy1_eq, copy2_eq.
  unfold check_correctness. rewrite Ht.
  destruct (Z.geb_spec tid size) as [?|_]; [lia|].
  rewrite (wrap32_id (size * 2)) by lia.
  rewrite (wrap32_id (tid + size)) by lia.
  rewrite (wrap32_id (tid + size * 2)) by lia.
  simpl result.
  destruct (fneb (copy 0 size r tid) (copy 1 size r tid)); [|reflexivity].
  destruct (fneb (copy 0 size r tid) (copy 2 size r tid)); [|reflexivity].
  destruct (fneb (copy 1 size r tid) (copy 2 size r tid)); reflexivity.
Qed.

(** The final state at an index that has a thread. *)
Lemma voter_at (tid : Z) :
  0 <= tid < size -> tid < gridDim_x * blockDim_x ->
  exists t,
    wrap32 (snd t + fst t * blockDim_x) = tid /\
    result (vote size blockDim_x sched r) tid =
      result (check_correctness size blockDim_x (fst t) (snd t) (mkV r []))
        tid /\
    forall a, In (tid, a) (trace (vote size blockDim_x sched r)) <->
              In (tid, a)
                (trace (check_correctness size blockDim_x (fst t) (snd t)
                          (mkV r []))).
Proof.
  intros Htid Hcov.
  destruct (thread_of_index blockDim_x gridDim_x sched Hsched Hgrid tid)
    as (t & Hin & Ht); [assumption|lia|].
  exists t. split; [exact Ht|].
  pose proof (run_voter_at size blockDim_x gridDim_x sched Hsched Hgrid
                Hsize r t Hin) as H.
  rewrite Ht in H. apply H. exact Htid.
Qed.

(** The voter computes [voted] at every index that has a thread. *)
Lemma voter_voted (tid : Z) :
  0 <= tid < size -> tid < gridDim_x * blockDim_x ->
  result (vote size blockDim_x sched r) tid =
  voted (copy 0 size r tid) (copy 1 size r tid) (copy 2 size r tid).
Proof.
  intros Htid Hcov.
  destruct (voter_at tid Htid Hcov) as (t & Ht & Hres & _).
  rewrite Hres, (check_correctness_alone t tid Ht Htid).
  unfold voted, fneb.
  destruct (feqb (copy 0 size r tid) (copy 1 size r tid)); simpl;
    [now rewrite copy0_eq|].
  destruct (feqb (copy 0 size r tid) (copy 2 size r tid)); simpl;
    [now rewrite store_same|].
  destruct (feqb (copy 1 size r tid) (copy 2 size r tid)); simpl;
    [now rewrite store_same|].
  now rewrite copy0_eq.
Qed.

(** A diagnostic is printed for an index exactly when its three copies
    are pairwise unequal, and it shows the three copies. *)
Lemma voter_due_iff (tid : Z) (x y z : float) :
  0 <= tid < size -> tid < gridDim_x * blockDim_x ->
  In (tid, PrintDUE x y z) (trace (vote size blockDim_x sched r)) <->
  (fneb (copy 0 size r tid) (copy 1 size r tid) = true /\
   fneb (copy 0 size r tid) (copy 2 size r tid) = true /\
   fneb (copy 1 size r tid) (copy 2 size r tid) = true) /\
  x = copy 0 size r tid /\ y = copy 1 size r tid /\ z = copy 2 size r tid.
Proof.
  intros Htid Hcov.
  destruct (voter_at tid Htid Hcov) as (t & Ht & _ & Htr).
  rewrite Htr, (check_correctness_alone t tid Ht Htid).
  destruct (fneb (copy 0 size r tid) (copy 1 size r tid));
    [destruct (fneb (copy 0 size r tid) (copy 2 size r tid));
     [destruct (fneb (copy 1 size r tid) (copy 2 size r tid))|]|]; simpl;
    intuition (try congruence).
Qed.

(** Every store of the voter is a thread's store to its own index, and
    that index is below [size]. *)
Lemma check_correctness_stores (t : Z * Z) (st : vstate) (k i : Z)
    (x : float) :
  In (k, Store i x)
     (trace (check_correctness size blockDim_x (fst t) (snd t) st)) ->
  In (k, Store i x) (trace st) \/
  (k = tid_of blockDim_x t /\ i = k /\ k < size).
Proof.
  unfold check_correctness. fold (tid_of blockDim_x t).
  destruct (Z.geb_spec (tid_of blockDim_x t) size) as [?|Hlt]; [now left|].
  intros H.
  repeat match type of H with
         | context [if ?c then _ else _] => destruct c
         end; simpl in H; rewrite ?in_app_iff in H; simpl in H;
    repeat match type of H with
           | _ \/ _ => destruct H as [H|H]
           end;
    try (now left); try discriminate H; try contradiction;
    inversion H; subst; right; auto.
Qed.

Lemma voter_stores (l : list (Z * Z)) (st : vstate) (k i : Z) (x : float) :
  In (k, Store i x) (trace (run_voter size blockDim_x l st)) ->
  In (k, Store i x) (trace st) \/
  exists t, In t l /\ k = tid_of blockDim_x t /\ i = k /\ k < size.
Proof.
  revert st. induction l as [|t l IH]; intros st H; simpl in H; [now left|].
  apply IH in H as [H|(t' & Ht' & H)].
  - apply check_correctness_stores in H as [H|H]; [now left|].
    right. exists t. split; [now left|exact H].
  - right. exists t'. split; [now right|exact H].
Qed.

(** ** C4: agreement passthrough *)

(** C4. For an index [tid] of [0, size) whose first two copies compare
    equal, the voter leaves [copy0[tid]] as it was and no thread stores to
    it, whatever [copy2[tid]] is. *)
Theorem voter_agreement_passthrough (tid : Z) :
  0 <= tid < size -> tid < gridDim_x * blockDim_x ->
  feqb (copy 0 size r tid) (copy 1 size r tid) = true ->
  result (vote size blockDim_x sched r) tid = copy 0 size r tid /\
  forall k x, ~ In (k, Store tid x) (trace (vote size blockDim_x sched r)).
Proof.
  intros Htid Hcov Heq. split.
  - rewrite voter_voted by assumption. unfold voted. now rewrite Heq.
  - intros k x Hin.
    destruct (voter_stores _ _ _ _ _ Hin) as [[]|(t & _ & _ & Hik & _)].
    rewrite <- Hik in Hin. clear Hik.
    destruct (voter_at tid Htid Hcov) as (t' & Ht' & _ & Htr).
    apply Htr in Hin.
    rewrite (check_correctness_alone t' tid Ht' Htid) in Hin.
    unfold fneb in Hin. rewrite Heq in Hin. simpl in Hin.
    destruct Hin as [Hin|[]]. discriminate.
Qed.

(** ** C2: majority correction *)

(** C2. For an index [tid] of [0, size) whose first two copies compare
    unequal while the third compares equal to one of them, the voter leaves
    in [copy0[tid]] the value of [copy2[tid]]: the two cells hold the same
    float and compare equal. *)
Theorem voter_majority_correction (tid : Z) :
  0 <= tid < size -> tid < gridDim_x * blockDim_x ->
  fneb (copy 0 size r tid) (copy 1 size r tid) = true ->
  feqb (copy 0 size r tid) (copy 2 size r tid) = true \/
  feqb (copy 1 size r tid) (copy 2 size r tid) = true ->
  copy 0 size (result (vote size blockDim_x sched r)) tid =
    copy 2 size (result (vote size blockDim_x sched r)) tid /\
  copy 2 size (result (vote size blockDim_x sched r)) tid =
    copy 2 size r tid /\
  feqb (copy 0 size (result (vote size blockDim_x sched r)) tid)
       (copy 2 size (result (vote size blockDim_x sched r)) tid) = true.
Proof.
  intros Htid Hcov Hne Hmaj.
  assert (H2 : copy 2 size (result (vote size blockDim_x sched r)) tid =
               copy 2 size r tid).
  { rewrite !copy2_eq. unfold vote.
    rewrite run_voter_frame; [reflexivity|]. left. lia. }
  assert (H0 : copy 0 size (result (vote size blockDim_x sched r)) tid =
               copy 2 size r tid).
  { rewrite copy0_eq, voter_voted by assumption. unfold voted.
    unfold fneb in Hne. apply negb_true_iff in Hne. rewrite Hne.
    destruct Hmaj as [H|H]; rewrite H; simpl; [reflexivity|].
    now rewrite orb_true_r. }
  rewrite H0, H2. repeat split.
  assert (Hnn : copy 2 size r tid <> fnan).
  { intros E. rewrite E in Hmaj. unfold feqb, SFeqb in Hmaj.
    destruct Hmaj as [H|H];
      [destruct (copy 0 size r tid)|destruct (copy 1 size r tid)];
      discriminate. }
  unfold feqb, SFeqb, SFcompare.
  destruct (copy 2 size r tid) as [s|s| |s m e];
    [ | |exfalso; apply Hnn; reflexivity| ];
    destruct s; rewrite ?Z.compare_refl, ?Pos.compare_cont_refl;
    reflexivity.
Qed.

(** ** C3: double-upset detection *)

(** C3. For an index [tid] of [0, size) whose three copies are pairwise
    unequal, the voter leaves [copy0[tid]] as it was and prints the
    diagnostic of that index.  A diagnostic is printed for an index if and
    only if its three copies are pairwise unequal.  Every index still gets
    the value its own three copies vote for. *)
Theorem voter_double_upset (tid : Z) :
  0 <= tid < size -> tid < gridDim_x * blockDim_x ->
  fneb (copy 0 size r tid) (copy 1 size r tid) = true ->
  fneb (copy 0 size r tid) (copy 2 size r tid) = true ->
  fneb (copy 1 size r tid) (copy 2 size r tid) = true ->
  result (vote size blockDim_x sched r) tid = copy 0 size r tid /\
  In (tid, PrintDUE (copy 0 size r tid) (copy 1 size r tid)
             (copy 2 size r tid))
     (trace (vote size blockDim_x sched r)) /\
  (forall j, 0 <= j < size -> j < gridDim_x * blockDim_x ->
     (exists x y z,
        In (j, PrintDUE x y z) (trace (vote size blockDim_x sched r))) <->
     (fneb (copy 0 size r j) (copy 1 size r j) = true /\
      fneb (copy 0 size r j) (copy 2 size r j) = true /\
      fneb (copy 1 size r j) (copy 2 size r j) = true)) /\
  (forall j, 0 <= j < size -> j < gridDim_x * blockDim_x ->
     result (vote size blockDim_x sched r) j =
     voted (copy 0 size r j) (copy 1 size r j) (copy 2 size r j)).
Proof.
  intros Htid Hcov H01 H02 H12. split; [|split; [|split]].
  - rewrite voter_voted by assumption. unfold voted. unfold fneb in *.
    apply negb_true_iff in H01, H02, H12. now rewrite H01, H02, H12.
  - apply voter_due_iff; auto.
  - intros j Hj Hc. split.
    + intros (x & y & z & Hin). apply voter_due_iff in Hin; tauto.
    + intros H.
      exists (copy 0 size r j), (copy 1 size r j), (copy 2 size r j).
      apply voter_due_iff; auto.
  - intros j Hj Hc. now apply voter_voted.
Qed.

(** ** C10: three NaN copies *)

(** C10. When the three copies of an index [tid] of [0, size) are NaN, the
    equality test of a NaN with itself fails, the voter prints the
    diagnostic of that index and leaves [copy0[tid]] as it was. *)
Theorem voter_nan_copies (tid : Z) :
  0 <= tid < size -> tid < gridDim_x * blockDim_x ->
  copy 0 size r tid = fnan -> copy 1 size r tid = fnan ->
  copy 2 size r tid = fnan ->
  feqb fnan fnan = false /\
  In (tid, PrintDUE fnan fnan fnan) (trace (vote size blockDim_x sched r)) /\
  result (vote size blockDim_x sched r) tid = fnan /\
  result (vote size blockDim_x sched r) tid = copy 0 size r tid.
Proof.
  intros Htid Hcov E0 E1 E2.
  split; [reflexivity|].
  assert (Hv : result (vote size blockDim_x sched r) tid = copy 0 size r tid).
  { rewrite voter_voted by assumption. now rewrite E0, E1, E2. }
  split; [|split].
  - apply voter_due_iff; auto. rewrite E0, E1, E2. repeat split.
  - now rewrite Hv.
  - exact Hv.
Qed.

(** ** C8: the voter's frame *)

(** C8. The voter stores only to indices of [0, size): every cell at an
    index [j >= size] keeps its value, every store event is at an index of
    [0, size), and with [size = 0] the voter leaves the buffer as it was
    and performs no comparison, no store and no diagnostic. *)
Theorem voter_frame :
  (forall j, size <= j -> result (vote size blockDim_x sched r) j = r j) /\
  (forall k i x,
     In (k, Store i x) (trace (vote size blockDim_x sched r)) ->
     0 <= i < size) /\
  (size = 0 -> vote size blockDim_x sched r = mkV r []).
Proof.
  clear Hsize Hbd. split; [|split].
  - intros j Hj. unfold vote. rewrite run_voter_frame; auto.
  - intros k i x H.
    apply voter_stores in H as [[]|(t & Ht & Hk & Hik & Hlt)].
    rewrite (tid_of_exact blockDim_x gridDim_x sched Hsched Hgrid t Ht)
      in Hk.
    apply (in_sched blockDim_x gridDim_x sched Hsched) in Ht. nia.
  - intros Hz. unfold vote.
    assert (Hall : forall l, (forall t, In t l -> In t sched) ->
              forall st, run_voter size blockDim_x l st = st).
    { induction l as [|t l IH]; intros Hl st; simpl; [reflexivity|].
      rewrite IH by (intros; apply Hl; now right).
      unfold check_correctness. fold (tid_of blockDim_x t).
      assert (Ht : In t sched) by (apply Hl; now left).
      rewrite (tid_of_exact blockDim_x gridDim_x sched Hsched Hgrid t Ht).
      apply (in_sched blockDim_x gridDim_x sched Hsched) in Ht.
      destruct (Z.geb_spec (snd t + fst t * blockDim_x) size);
        [reflexivity|nia]. }
    apply Hall. auto.
Qed.

End VoterContract.

(** ** Loops *)

Lemma strides_ge (n : nat) (i limit step j : Z) :
  0 < step -> In j (strides n i limit step) -> i <= j < limit.
Proof.
  intros Hs. revert i. induction n as [|n IH]; intros i H; simpl in H.
  - contradiction.
  - destruct (Z.ltb_spec i limit); [|contradiction].
    destruct H as [<-|H]; [lia|]. apply IH in H. lia.
Qed.

Lemma strides_enough (n m : nat) (i limit step : Z) :
  0 < step ->
  (Z.to_nat (limit - i) <= n)%nat -> (Z.to_nat (limit - i) <= m)%nat ->
  strides n i limit step = strides m i limit step.
Proof.
  intros Hs. revert m i. induction n as [|n IH]; intros m i Hn Hm.
  - destruct m; simpl; [reflexivity|].
    destruct (Z.ltb_spec i limit); [lia|reflexivity].
  - simpl. destruct (Z.ltb_spec i limit) as [Hlt|Hge].
    + destruct m; [lia|]. simpl.
      destruct (Z.ltb_spec i limit); [|lia].
      f_equal. apply IH; lia.
    + destruct m; simpl; [reflexivity|].
      destruct (Z.ltb_spec i limit); [lia|reflexivity].
Qed.

Lemma stride_list_cons (i limit step : Z) :
  0 < step -> i < limit ->
  stride_list i limit step = i :: stride_list (i + step) limit step.
Proof.
  intros Hs Hlt. unfold stride_list.
  destruct (Z.to_nat (limit - i)) as [|n] eqn:E; [lia|]. simpl.
  destruct (Z.ltb_spec i limit); [|lia]. f_equal.
  apply strides_enough; lia.
Qed.

Lemma stride_list_nil (i limit step : Z) :
  limit <= i -> stride_list i limit step = [].
Proof.
  intros H. unfold stride_list.
  destruct (Z.to_nat (limit - i)) as [|n] eqn:E; [reflexivity|lia].
Qed.

Lemma in_stride_list (i limit step j : Z) :
  0 < step ->
  In j (stride_list i limit step) <-> i <= j < limit /\ (j - i) mod step = 0.
Proof.
  intros Hs. unfold stride_list.
  remember (Z.to_nat (limit - i)) as n eqn:En.
  assert (Hn : (Z.to_nat (limit - i) <= n)%nat) by lia. clear En.
  revert i Hn. induction n as [|n IH]; intros i Hn; simpl.
  - split; [contradiction|]. intros [H _]. lia.
  - destruct (Z.ltb_spec i limit) as [Hlt|Hge].
    + simpl. rewrite IH by lia. split.
      * intros [<-|[H1 H2]].
        -- split; [lia|]. now rewrite Z.sub_diag.
        -- split; [lia|].
           replace (j - i) with (j - (i + step) + 1 * step) by ring.
           now rewrite Z_mod_plus_full.
      * intros [H1 H2].
        destruct (Z.eq_dec i j) as [E|E]; [now left|right].
        apply Z.mod_divide in H2; [|lia]. destruct H2 as [q Hq].
        assert (1 <= q) by nia.
        split; [nia|].
        replace (j - (i + step)) with ((q - 1) * step) by lia.
        apply Z_mod_mult.
    + split; [contradiction|]. intros [H _]. lia.
Qed.

Lemma NoDup_stride_list (i limit step : Z) :
  0 < step -> NoDup (stride_list i limit step).
Proof.
  intros Hs. unfold stride_list. generalize (Z.to_nat (limit - i)) as n.
  intros n. revert i. induction n as [|n IH]; intros i; simpl.
  - constructor.
  - destruct (i <? limit); constructor; [|apply IH].
    intros H. apply strides_ge in H; lia.
Qed.

Lemma stride_list_shift (b i limit step : Z) :
  0 < step ->
  stride_list (b + i) (b + limit) step = map (Z.add b) (stride_list i limit step).
Proof.
  intros Hs. unfold stride_list.
  replace (b + limit - (b + i)) with (limit - i) by ring.
  generalize (Z.to_nat (limit - i)) as n. intros n. revert i.
  induction n as [|n IH]; intros i; simpl; [reflexivity|].
  destruct (Z.ltb_spec (b + i) (b + limit)), (Z.ltb_spec i limit);
    try lia; [|reflexivity].
  simpl. f_equal. rewrite <- IH. f_equal. ring.
Qed.

(** A loop whose counter does not wrap runs its body on [stride_list]. *)
Lemma for_loop_fold {S : Type} (g : Z -> S -> S)
    (body : Z -> S -> option S) (fuel : nat) (i limit step : Z) (s : S) :
  0 < step -> limit + step <= 2 ^ 31 -> - 2 ^ 31 <= i ->
  (Z.to_nat (limit - i) <= fuel)%nat ->
  (forall j s, i <= j < limit -> body j s = Some (g j s)) ->
  for_loop fuel i limit step body s =
  Some (fold_left (fun s j => g j s) (stride_list i limit step) s).
Proof.
  intros Hs Hlim Hi Hf Hbody. revert i s Hi Hf Hbody.
  induction fuel as [|fuel IH]; intros i s Hi Hf Hbody.
  - simpl. destruct (Z.ltb_spec i limit); [lia|].
    now rewrite stride_list_nil by lia.
  - simpl. destruct (Z.ltb_spec i limit) as [Hlt|Hge].
    + rewrite Hbody by lia. simpl. rewrite wrap32_id by lia.
      rewrite IH; [|lia|lia|intros; apply Hbody; lia].
      now rewrite (stride_list_cons i limit step) by lia.
    + now rewrite stride_list_nil by lia.
Qed.

Lemma forall_threads_fold {S : Type} (g : Z * Z -> S -> S)
    (f : Z -> Z -> S -> option S) (ts : list (Z * Z)) (s : S) :
  (forall t s, In t ts -> f (fst t) (snd t) s = Some (g t s)) ->
  forall_threads ts f s = Some (fold_left (fun s t => g t s) ts s).
Proof.
  unfold forall_threads. revert s.
  induction ts as [|t ts IH]; intros s H; simpl; [reflexivity|].
  rewrite H by now left. apply IH. intros t' s' Ht'. apply H. now right.
Qed.

Lemma fold_left_flat_map {A B S : Type} (f : S -> B -> S) (k : A -> list B)
    (l : list A) (s : S) :
  fold_left f (flat_map k l) s =
  fold_left (fun s x => fold_left f (k x) s) l s.
Proof.
  revert s. induction l as [|x l IH]; intros s; simpl; [reflexivity|].
  now rewrite fold_left_app, IH.
Qed.

Lemma NoDup_flat_map {A B : Type} (k : A -> list B) (l : list A) :
  NoDup l ->
  (forall x, In x l -> NoDup (k x)) ->
  (forall x y b, In x l -> In y l -> In b (k x) -> In b (k y) -> x = y) ->
  NoDup (flat_map k l).
Proof.
  intros Hnd. induction Hnd as [|a l Hna Hnd IH]; intros Hk Hdis; simpl.
  - constructor.
  - apply NoDup_app.
    + apply Hk. now left.
    + apply IH.
      * intros x Hx. apply Hk. now right.
      * intros x y b Hx Hy. apply Hdis; now right.
    + intros b Hb Hb'. apply in_flat_map in Hb' as (y & Hy & Hb').
      apply Hna. rewrite (Hdis a y b); auto using in_eq, in_cons.
Qed.

Section Tasks.

Variables blockDim_x blockDim_y limit : Z.
Variable ts : list (Z * Z).
Hypothesis Hbd : 0 < blockDim_x.
Hypothesis Hts : Permutation ts (block_threads blockDim_x blockDim_y).

Lemma in_threads (tx ty : Z) :
  In (tx, ty) ts <-> 0 <= tx < blockDim_x /\ 0 <= ty < blockDim_y.
Proof.
  rewrite <- in_block_threads. split; apply Permutation_in;
    [exact Hts|exact (Permutation_sym Hts)].
Qed.

Lemma NoDup_threads : NoDup ts.
Proof.
  apply (Permutation_NoDup (Permutation_sym Hts)), NoDup_block_threads.
Qed.

Lemma in_tasks (i ty : Z) :
  In (i, ty) (tasks ts limit blockDim_x) <->
  0 <= i < limit /\ 0 <= ty < blockDim_y.
Proof.
  unfold tasks. rewrite in_flat_map. split.
  - intros ([tx ty'] & Ht & Hin). apply in_threads in Ht.
    apply in_map_iff in Hin as (i' & E & Hin). simpl in *.
    inversion E; subst. apply in_stride_list in Hin; [|assumption]. lia.
  - intros [Hi Hy]. exists (i mod blockDim_x, ty).
    pose proof (Z.mod_pos_bound i blockDim_x Hbd).
    split; [apply in_threads; lia|].
    apply in_map_iff. exists i. split; [reflexivity|]. simpl.
    apply in_stride_list; [assumption|].
    pose proof (Z.mod_le i blockDim_x ltac:(lia) Hbd).
    split; [lia|]. rewrite Zminus_mod, Z.mod_mod, Z.sub_diag by lia.
    reflexivity.
Qed.

Lemma NoDup_tasks : NoDup (tasks ts limit blockDim_x).
Proof.
  unfold tasks. apply NoDup_flat_map.
  - exact NoDup_threads.
  - intros t _. apply NoDup_map_inj; [|now apply NoDup_stride_list].
    intros x y _ _ E. now inversion E.
  - intros [tx ty] [tx' ty'] [i y] Ht Ht' Hb Hb'.
    apply in_threads in Ht, Ht'.
    apply in_map_iff in Hb as (i1 & E1 & H1).
    apply in_map_iff in Hb' as (i2 & E2 & H2).
    simpl in *. inversion E1; inversion E2; subst.
    apply in_stride_list in H1, H2; try assumption.
    destruct H1 as [H1 M1], H2 as [H2 M2].
    apply Z.mod_divide in M1, M2; try lia.
    destruct M1 as [q1 M1], M2 as [q2 M2].
    assert (tx = tx'); [|congruence].
    assert ((q2 - q1) * blockDim_x = tx - tx') by lia.
    assert (q2 - q1 = 0) by nia. lia.
Qed.

End Tasks.

(** ** The items of a block *)

Lemma for_loop_done {S : Type} (fuel : nat) (i limit step : Z)
    (body : Z -> S -> option S) (s : S) :
  limit <= i -> for_loop fuel i limit step body s = Some s.
Proof.
  intros H. destruct fuel; simpl; destruct (Z.ltb_spec i limit);
    try lia; reflexivity.
Qed.

Lemma segments_barrier (l p : list item) :
  no_barrier l = true ->
  segments (l ++ Barrier :: p) = l :: segments p.
Proof.
  induction l as [|it l IH]; intros H; [reflexivity|].
  simpl in H. apply andb_prop in H as [Hit Hl].
  destruct it; try discriminate Hit; simpl; now rewrite (IH Hl).
Qed.

Lemma segments_last (l : list item) :
  no_barrier l = true -> segments l = [l].
Proof.
  induction l as [|it l IH]; intros H; [reflexivity|].
  simpl in H. apply andb_prop in H as [Hit Hl].
  destruct it; try discriminate Hit; simpl; now rewrite (IH Hl).
Qed.

Lemma pow2_pos (j : nat) : 0 < 2 ^ Z.of_nat j.
Proof.
  apply Z.pow_pos_nonneg; lia.
Qed.

Lemma pow2_succ (j : nat) : 2 ^ Z.of_nat (S j) = 2 * 2 ^ Z.of_nat j.
Proof.
  rewrite Nat2Z.inj_succ, Z.pow_succ_r; lia.
Qed.

Lemma pow2_gt (j : nat) : Z.of_nat j < 2 ^ Z.of_nat j.
Proof.
  apply Z.pow_gt_lin_r; lia.
Qed.

(** Line 75 with [ACCUM_N / 2 = 2^m]: the rounds with strides [2^m], ...,
    [1], a barrier before each. *)
Lemma round_items_pow (m : nat) :
  forall n : nat, (m < n)%nat ->
    round_items n (2 ^ Z.of_nat m) = Some (rounds_of (S m)).
Proof.
  induction m as [|m IH]; intros n Hn.
  - destruct n as [|n]; [lia|]. simpl.
    assert (E : round_items n 0 = Some []) by now destruct n.
    change (Z.shiftr 1 1) with 0. now rewrite E.
  - destruct n as [|n]; [lia|].
    pose proof (pow2_pos (S m)) as Hpos.
    cbn [round_items]. destruct (Z.gtb_spec (2 ^ Z.of_nat (S m)) 0); [|lia].
    assert (Hhalf : Z.shiftr (2 ^ Z.of_nat (S m)) 1 = 2 ^ Z.of_nat m).
    { rewrite Z.shiftr_div_pow2 by lia. rewrite pow2_succ.
      change (2 ^ 1) with 2. rewrite Z.mul_comm. apply Z.div_mul. lia. }
    rewrite Hhalf, (IH n) by lia. reflexivity.
Qed.

Lemma round_items_rounds (k : nat) (fuel : nat) :
  2 ^ Z.of_nat k <= Z.of_nat fuel ->
  round_items fuel (Z.quot (2 ^ Z.of_nat k) 2) = Some (rounds_of k).
Proof.
  intros Hf. destruct k as [|m].
  - change (Z.quot (2 ^ Z.of_nat 0) 2) with 0. now destruct fuel.
  - assert (Hq : Z.quot (2 ^ Z.of_nat (S m)) 2 = 2 ^ Z.of_nat m).
    { rewrite pow2_succ, Z.mul_comm. apply Z.quot_mul. lia. }
    rewrite Hq. apply round_items_pow.
    pose proof (pow2_gt (S m)). lia.
Qed.

Lemma vec_items_eq (k : nat) (d_elementN : Z) (fuel : nat) (vec : Z) :
  2 ^ Z.of_nat k <= Z.of_nat fuel ->
  vec_items (2 ^ Z.of_nat k) d_elementN fuel vec =
  Some (vitems k d_elementN vec).
Proof.
  intros Hf. unfold vec_items. now rewrite round_items_rounds.
Qed.

Lemma fold_left_app_concat {A B : Type} (f : A -> list B) (l : list A)
    (p : list B) :
  fold_left (fun p x => p ++ f x) l p = p ++ concat (map f l).
Proof.
  revert p. induction l as [|x l IH]; intros p; simpl.
  - now rewrite app_nil_r.
  - now rewrite IH, app_assoc.
Qed.

(** Lines 50-85 for a block: the items of its vectors, then line 85. *)
Lemma block_items_eq (k : nat) (vectorN elementN gridDim_x : Z) (fuel : nat)
    (blockIdx_x : Z) :
  0 < gridDim_x -> vectorN + gridDim_x <= 2 ^ 31 ->
  0 <= blockIdx_x < 2 ^ 31 ->
  vectorN <= Z.of_nat fuel -> 2 ^ Z.of_nat k <= Z.of_nat fuel ->
  block_items (2 ^ Z.of_nat k) vectorN elementN gridDim_x fuel blockIdx_x =
  Some (program k elementN (stride_list blockIdx_x vectorN gridDim_x)).
Proof.
  intros Hg Hn Hb Hf Hk. unfold block_items, program.
  rewrite wrap32_id by lia.
  rewrite (for_loop_fold (fun vec p => p ++ vitems k elementN vec));
    try lia.
  - simpl. now rewrite fold_left_app_concat.
  - intros j p _. now rewrite vec_items_eq.
Qed.

(** A block without vectors runs line 85 only. *)
Lemma block_items_empty (ACCUM_N vectorN elementN gridDim_x : Z) (fuel : nat)
    (blockIdx_x : Z) :
  vectorN <= blockIdx_x -> blockIdx_x < 2 ^ 31 -> - 2 ^ 31 <= blockIdx_x ->
  block_items ACCUM_N vectorN elementN gridDim_x fuel blockIdx_x =
  Some [Sentinel].
Proof.
  intros Hn Hb Hb'. unfold block_items. rewrite wrap32_id by lia.
  now rewrite for_loop_done.
Qed.

(** ** Threads between two barriers *)

Lemma forall_threads_ext {S : Type} (f g : Z -> Z -> S -> option S)
    (ts : list (Z * Z)) (s : S) :
  (forall t s, In t ts -> f (fst t) (snd t) s = g (fst t) (snd t) s) ->
  forall_threads ts f s = forall_threads ts g s.
Proof.
  intros H. unfold forall_threads. generalize (Some s) as acc.
  induction ts as [|t ts IH]; intros acc; simpl; [reflexivity|].
  rewrite IH by (intros t' s' Ht'; apply H; now right).
  f_equal. destruct acc as [s'|]; simpl; [|reflexivity].
  apply H. now left.
Qed.

(** A property of the threads that have run, extended by every thread. *)
Lemma forall_threads_inv {S : Type} (P : list (Z * Z) -> S -> Prop)
    (f : Z -> Z -> S -> option S) (ts : list (Z * Z)) (s : S) :
  NoDup ts ->
  P [] s ->
  (forall done t s, In t ts -> ~ In t done -> incl done ts -> P done s ->
     exists s', f (fst t) (snd t) s = Some s' /\ P (t :: done) s') ->
  exists s', forall_threads ts f s = Some s' /\
             exists done, (forall t, In t done <-> In t ts) /\ P done s'.
Proof.
  intros Hnd H0 Hstep. unfold forall_threads.
  assert (G : forall l done s,
             NoDup l -> incl l ts -> incl done ts ->
             (forall t, In t l -> ~ In t done) -> P done s ->
             exists s',
               fold_left (fun acc t => let* s' := acc in f (fst t) (snd t) s')
                 l (Some s) = Some s' /\
               exists done', (forall t, In t done' <-> In t done \/ In t l) /\
                             P done' s').
  { induction l as [|t l IH]; intros done s0 Hl Hin Hd Hdis HP; simpl.
    - exists s0. split; [reflexivity|]. exists done. split; [tauto|exact HP].
    - apply NoDup_cons_iff in Hl as [Hnt Hl].
      destruct (Hstep done t s0) as (s1 & E & HP1);
        [apply Hin; now left|apply Hdis; now left|exact Hd|exact HP|].
      rewrite E.
      destruct (IH (t :: done) s1) as (s' & E' & done' & Hd' & HP');
        [exact Hl|intros x Hx; apply Hin; now right| | |exact HP1|].
      + intros x [<-|Hx]; [apply Hin; now left|now apply Hd].
      + intros x Hx [<-|Hx']; [contradiction|].
        apply (Hdis x); [now right|exact Hx'].
      + exists s'. split; [exact E'|]. exists done'. split; [|exact HP'].
        intros x. rewrite Hd'. simpl. tauto. }
  destruct (G ts [] s Hnd (incl_refl _) (incl_nil_l _))
    as (s' & E & d & Hd & HP); [intros t _ []|exact H0|].
  exists s'. split; [exact E|]. exists d. split; [|exact HP].
  intros t. rewrite Hd. simpl. tauto.
Qed.

Lemma run_thread_one (ACCUM_N : Z) (d_A d_B : mem) (blockDim_x : Z)
    (fuel : nat) (bx : Z) (it : item) (tx ty : Z) (st : kstate) :
  run_thread ACCUM_N d_A d_B blockDim_x fuel bx [it] tx ty st =
  exec_item ACCUM_N d_A d_B blockDim_x fuel bx it tx ty st.
Proof.
  simpl. now destruct (exec_item _ _ _ _ _ _ _ _ _ _).
Qed.

Lemma in_stride_class (tx limit step i : Z) :
  0 <= tx < step -> In i (stride_list tx limit step) -> i mod step = tx.
Proof.
  intros Ht Hi. apply in_stride_list in Hi; [|lia]. destruct Hi as [Hr Hm].
  apply Z.mod_divide in Hm; [|lia]. destruct Hm as [q Hq].
  replace i with (tx + q * step) by lia.
  rewrite Z_mod_plus_full. apply Z.mod_small. lia.
Qed.

Lemma in_stride_own (limit step i : Z) :
  0 < step -> 0 <= i < limit -> In i (stride_list (i mod step) limit step).
Proof.
  intros Hs Hi. apply in_stride_list; [exact Hs|].
  pose proof (Z.mod_pos_bound i step Hs).
  pose proof (Z.mod_le i step ltac:(lia) Hs).
  split; [lia|].
  rewrite Zminus_mod, Z.mod_mod, Z.sub_diag by lia. reflexivity.
Qed.

(** ** Writes to the accumulator cache *)

Lemma fold_left_ext {A S : Type} (f g : S -> A -> S) (l : list A) (s : S) :
  (forall s x, In x l -> f s x = g s x) ->
  fold_left f l s = fold_left g l s.
Proof.
  revert s. induction l as [|x l IH]; intros s H; simpl; [reflexivity|].
  rewrite H by now left. apply IH. intros s' y Hy. apply H. now right.
Qed.

Lemma fold_left_map {A B S : Type} (f : S -> B -> S) (h : A -> B)
    (l : list A) (s : S) :
  fold_left f (map h l) s = fold_left (fun s x => f s (h x)) l s.
Proof.
  revert s. induction l as [|x l IH]; intros s; simpl; auto.
Qed.

Section CacheWrites.

Variable T : Type.
Variable key : T -> Z.

(** Writes whose value is a function of the task. *)
Lemma fold_accum_writes (val : T -> float) (l : list T) (st : kstate) :
  let st' := fold_left (fun st t => set_accum st (key t) (val t)) l st in
  d_C st' = d_C st /\
  (forall t, In t l ->
     (forall t', In t' l -> key t' = key t -> val t' = val t) ->
     accumResult st' (key t) = val t).
Proof.
  revert st. induction l as [|t0 l IH] using rev_ind; intros st; simpl.
  - split; [reflexivity|]. contradiction.
  - rewrite fold_left_app. simpl.
    destruct (IH st) as [HC Hv]. split; [exact HC|].
    intros t Ht Hcons. destruct (Z.eq_dec (key t0) (key t)) as [E|E].
    + rewrite <- E, store_same. apply Hcons; [|exact E].
      apply in_or_app. right. now left.
    + rewrite store_other by congruence. apply Hv.
      * apply in_app_or in Ht as [Ht|[Ht|[]]]; [exact Ht|congruence].
      * intros t' Ht'. apply Hcons. apply in_or_app. now left.
Qed.

(** [accumResult[key] += accumResult[key + stride]] for distinct keys
    whose partners are not keys. *)
Lemma fold_accum_reduce (stride : Z) (l : list T) (st : kstate) :
  NoDup (map key l) ->
  (forall t t', In t l -> In t' l -> key t + stride <> key t') ->
  let st' :=
    fold_left
      (fun st t =>
         set_accum st (key t)
           (fadd (accumResult st (key t))
                 (accumResult st (key t + stride)))) l st in
  d_C st' = d_C st /\
  (forall idx, (forall t, In t l -> key t <> idx) ->
     accumResult st' idx = accumResult st idx) /\
  (forall t, In t l ->
     accumResult st' (key t) =
     fadd (accumResult st (key t)) (accumResult st (key t + stride))).
Proof.
  revert st. induction l as [|t0 l IH]; intros st Hnd Hp; simpl.
  - repeat split; auto. contradiction.
  - simpl in Hnd. apply NoDup_cons_iff in Hnd as [Hn0 Hnd].
    set (st1 := set_accum st (key t0) _).
    destruct (IH st1 Hnd) as (HC & Hfr & Hv).
    { intros t t' Ht Ht'. apply Hp; now right. }
    split; [exact HC|]. split.
    + intros idx Hidx. rewrite Hfr by (intros t Ht; apply Hidx; now right).
      unfold st1. simpl. apply store_other.
      intros E. apply (Hidx t0); [now left|congruence].
    + intros t [<-|Ht].
      * rewrite Hfr.
        -- unfold st1. simpl. apply store_same.
        -- intros t Ht E. apply Hn0. rewrite <- E. now apply in_map.
      * rewrite Hv by exact Ht. unfold st1. simpl.
        rewrite !store_other; [reflexivity| |].
        -- apply Hp; [now right|now left].
        -- intros E. apply Hn0. rewrite <- E. now apply in_map.
Qed.

End CacheWrites.

Lemma fold_accum_frame {T : Type} (key : T -> Z) (val : T -> float)
    (l : list T) (st : kstate) (c : Z) :
  (forall t, In t l -> key t <> c) ->
  accumResult (fold_left (fun st t => set_accum st (key t) (val t)) l st) c =
  accumResult st c.
Proof.
  revert st. induction l as [|t l IH]; intros st H; simpl; [reflexivity|].
  rewrite IH by (intros t' Ht'; apply H; now right).
  simpl. apply store_other. intros E. apply (H t); [now left|auto].
Qed.

Lemma tree_fun_ext (m : nat) (f g : Z -> float) :
  (forall i, 0 <= i < 2 ^ Z.of_nat m -> f i = g i) ->
  tree_fun m f = tree_fun m g.
Proof.
  revert f g. induction m as [|m IH]; intros f g H; simpl.
  - apply H. simpl. lia.
  - apply IH. intros i Hi.
    rewrite Nat2Z.inj_succ, Z.pow_succ_r in H by lia.
    rewrite !H by lia. reflexivity.
Qed.

(** ** One item run by the threads of a block *)

Section Regions.

Variable k : nat.
Local Abbreviation N := (2 ^ Z.of_nat k).
Variables d_A d_B : mem.
Variables blockDim_x blockDim_y : Z.
Variable fuel : nat.
Variable ts : list (Z * Z).

Hypothesis HN : N <= 2 ^ 30.
Hypothesis Hbx : 0 < blockDim_x /\ N + blockDim_x <= 2 ^ 31.
Hypothesis Hby : 0 < blockDim_y <= 3.
Hypothesis Hts : Permutation ts (block_threads blockDim_x blockDim_y).
Hypothesis Hfuel : N <= Z.of_nat fuel.

Lemma N_pos : 0 < N.
Proof using Type.
  exact (pow2_pos k).
Qed.

(** The cell of accumulator [i] in row [ty]. *)
Local Abbreviation cell t := (fst t + N * snd t).

Lemma cell_inj (i i' ty ty' : Z) :
  0 <= i < N -> 0 <= i' < N -> i + N * ty = i' + N * ty' ->
  i = i' /\ ty = ty'.
Proof using Type.
  clear. intros Hi Hi' E. assert (ty = ty') by nia. subst. lia.
Qed.

Lemma cell_index (i ty : Z) :
  0 <= i < 2 * N -> 0 <= ty < blockDim_y ->
  wrapU32 (i + N * ty) = i + N * ty.
Proof using HN Hby.
  clear Hbx Hts Hfuel. intros Hi Hy. apply wrapU32_id. pose proof N_pos. nia.
Qed.

(** Per-thread loops run their body once on every task. *)
Lemma region_tasks (limit : Z) (body : Z -> Z -> kstate -> option kstate)
    (F : Z * Z -> kstate -> kstate) (st : kstate) :
  limit <= N ->
  (forall i ty st, 0 <= i < limit -> 0 <= ty < blockDim_y ->
     body ty i st = Some (F (i, ty) st)) ->
  forall_threads ts
    (fun tx ty st => for_loop fuel (wrap32 tx) limit blockDim_x (body ty) st)
    st =
  Some (fold_left (fun st t => F t st) (tasks ts limit blockDim_x) st).
Proof.
  intros Hlim Hbody. unfold tasks. rewrite fold_left_flat_map.
  rewrite (forall_threads_fold
             (fun t st =>
                fold_left (fun st i => F (i, snd t) st)
                  (stride_list (fst t) limit blockDim_x) st)).
  - f_equal. apply fold_left_ext. intros s t _.
    now rewrite fold_left_map.
  - intros [tx ty] s Ht. simpl.
    apply (in_threads blockDim_x blockDim_y ts Hts) in Ht.
    rewrite wrap32_id by lia.
    apply for_loop_fold; try lia.
    intros j s' Hj. apply Hbody; lia.
Qed.

Lemma tasks_cells_NoDup (limit : Z) :
  limit <= N ->
  NoDup (map (fun t => cell t) (tasks ts limit blockDim_x)).
Proof.
  intros Hlim. apply NoDup_map_inj.
  - intros [i ty] [i' ty'] H H' E. simpl in E.
    apply (in_tasks blockDim_x blockDim_y limit ts) in H, H'; try tauto.
    destruct (cell_inj i i' ty ty') as [-> ->]; auto; lia.
  - apply (NoDup_tasks blockDim_x blockDim_y limit ts); tauto.
Qed.

(** Lines 63-66. *)
Lemma lane_sum_value (vectorBase vectorEnd iAccum : Z) :
  - 2 ^ 31 <= vectorBase -> vectorBase + N <= 2 ^ 31 ->
  vectorEnd + N <= 2 ^ 31 ->
  vectorEnd - vectorBase <= Z.of_nat fuel ->
  0 <= iAccum < N ->
  lane_sum N d_A d_B fuel vectorBase vectorEnd iAccum =
  Some (lane_value N d_A d_B vectorBase vectorEnd iAccum).
Proof.
  intros Hb1 Hb2 He Hf Hi. unfold lane_sum, lane_value, lane_fold.
  pose proof N_pos. rewrite wrap32_id by lia.
  apply for_loop_fold with
    (g := fun pos sum => fadd sum (fmul (d_A pos) (d_B pos))); try lia.
  reflexivity.
Qed.

(** Lines 61-69: every accumulator of every row gets its partial sum. *)
Lemma accum_region (vectorBase vectorEnd : Z) (st : kstate) :
  - 2 ^ 31 <= vectorBase -> vectorBase + N <= 2 ^ 31 ->
  vectorEnd + N <= 2 ^ 31 ->
  vectorEnd - vectorBase <= Z.of_nat fuel ->
  exists st',
    forall_threads ts
      (accum_phase N d_A d_B blockDim_x fuel vectorBase vectorEnd) st =
    Some st' /\
    d_C st' = d_C st /\
    forall i ty, 0 <= i < N -> 0 <= ty < blockDim_y ->
      accumResult st' (i + N * ty) =
      lane_value N d_A d_B vectorBase vectorEnd i.
Proof using HN Hbx Hby Hts Hfuel.
  intros Hb1 Hb2 He Hf. unfold accum_phase.
  set (F := fun (t : Z * Z) st =>
              set_accum st (cell t)
                (lane_value N d_A d_B vectorBase vectorEnd (fst t))).
  eexists. split.
  - apply (region_tasks N
             (fun ty iAccum st =>
                let* sum :=
                  lane_sum N d_A d_B fuel vectorBase vectorEnd iAccum in
                Some (set_accum st (wrapU32 (iAccum + N * ty)) sum)) F);
      [lia|].
    intros i ty s Hi Hy. rewrite lane_sum_value by assumption. simpl.
    unfold F. simpl. now rewrite cell_index by lia.
  - pose proof (fold_accum_writes (Z * Z) (fun t => cell t)
                  (fun t => lane_value N d_A d_B vectorBase vectorEnd (fst t))
                  (tasks ts N blockDim_x) st) as [HC Hv].
    split; [exact HC|]. intros i ty Hi Hy.
    apply (Hv (i, ty)).
    + apply (in_tasks blockDim_x blockDim_y N ts); tauto.
    + intros [i' ty'] H' E. simpl in *.
      apply (in_tasks blockDim_x blockDim_y N ts) in H'; try tauto.
      destruct (cell_inj i' i ty' ty) as [-> _]; auto; lia.
Qed.

(** Lines 79-80: accumulator [i] below [stride] adds accumulator
    [i + stride] of its row. *)
Lemma reduce_region (stride : Z) (st : kstate) :
  0 < stride -> 2 * stride <= N ->
  exists st',
    forall_threads ts (reduce_phase N blockDim_x fuel stride) st =
    Some st' /\
    d_C st' = d_C st /\
    forall i ty, 0 <= i < stride -> 0 <= ty < blockDim_y ->
      accumResult st' (i + N * ty) =
      fadd (accumResult st (i + N * ty))
           (accumResult st (i + stride + N * ty)).
Proof using HN Hbx Hby Hts Hfuel.
  intros Hs Hs2. unfold reduce_phase.
  set (F := fun (t : Z * Z) st =>
              set_accum st (cell t)
                (fadd (accumResult st (cell t))
                      (accumResult st (cell t + stride)))).
  eexists. split.
  - apply (region_tasks stride
             (fun ty iAccum st =>
                let i := wrapU32 (iAccum + N * ty) in
                let j := wrapU32 (stride + iAccum + N * ty) in
                Some (set_accum st i
                        (fadd (accumResult st i) (accumResult st j)))) F);
      [lia|].
    intros i ty s Hi Hy. cbv zeta. unfold F. simpl.
    rewrite cell_index by lia.
    replace (stride + i + N * ty) with (stride + i + N * ty) by ring.
    rewrite (cell_index (stride + i) ty) by lia.
    do 4 f_equal. ring.
  - pose proof (fold_accum_reduce (Z * Z) (fun t => cell t) stride
                  (tasks ts stride blockDim_x) st) as H.
    destruct H as (HC & _ & Hv).
    + apply tasks_cells_NoDup. lia.
    + intros [i ty] [i' ty'] Ht Ht'. simpl.
      apply (in_tasks blockDim_x blockDim_y stride ts) in Ht, Ht';
        try tauto.
      intros E. destruct (cell_inj (i + stride) i' ty ty'); lia.
    + split; [exact HC|]. intros i ty Hi Hy.
      etransitivity.
      * apply (Hv (i, ty)).
        apply (in_tasks blockDim_x blockDim_y stride ts); tauto.
      * simpl. do 2 f_equal. ring.
Qed.

(** Lines 61-69, one thread: its accumulators get the partial sums, the
    others keep their values. *)
Lemma accum_thread (vectorBase vectorEnd tx ty : Z) (st : kstate) :
  - 2 ^ 31 <= vectorBase -> vectorBase + N <= 2 ^ 31 ->
  vectorEnd + N <= 2 ^ 31 ->
  vectorEnd - vectorBase <= Z.of_nat fuel ->
  0 <= tx < blockDim_x -> 0 <= ty < blockDim_y ->
  exists st',
    accum_phase N d_A d_B blockDim_x fuel vectorBase vectorEnd tx ty st =
    Some st' /\
    d_C st' = d_C st /\
    (forall i, In i (stride_list tx N blockDim_x) ->
       accumResult st' (i + N * ty) =
       lane_value N d_A d_B vectorBase vectorEnd i) /\
    (forall c, (forall i, In i (stride_list tx N blockDim_x) ->
                  c <> i + N * ty) ->
       accumResult st' c = accumResult st c).
Proof using HN Hbx Hby Hfuel.
  intros Hb1 Hb2 He Hf Hx Hy. unfold accum_phase.
  rewrite wrap32_id by lia.
  rewrite (for_loop_fold
             (fun i st =>
                set_accum st (i + N * ty)
                  (lane_value N d_A d_B vectorBase vectorEnd i))); try lia.
  - eexists. split; [reflexivity|].
    pose proof (fold_accum_writes Z (fun i => i + N * ty)
                  (lane_value N d_A d_B vectorBase vectorEnd)
                  (stride_list tx N blockDim_x) st) as [HC Hv].
    split; [exact HC|]. split.
    + intros i Hi. apply (Hv i Hi). intros i' _ E. f_equal. lia.
    + intros c Hc. apply fold_accum_frame. intros i Hi E.
      apply (Hc i Hi). auto.
  - intros j s Hj.
    rewrite lane_sum_value by (try assumption; lia).
    simpl. rewrite cell_index by lia. reflexivity.
Qed.

(** Lines 79-80 with stride 1, one thread: thread 0 of a row adds
    accumulator 1 to accumulator 0. *)
Lemma reduce_one_thread (tx ty : Z) (st : kstate) :
  0 <= tx < blockDim_x -> 0 <= ty < blockDim_y ->
  reduce_phase N blockDim_x fuel 1 tx ty st =
  Some (if tx =? 0
        then set_accum st (N * ty)
               (fadd (accumResult st (N * ty)) (accumResult st (1 + N * ty)))
        else st).
Proof using HN Hbx Hby Hfuel.
  intros Hx Hy. unfold reduce_phase. rewrite wrap32_id by lia.
  pose proof N_pos as Hpos.
  destruct (Z.eqb_spec tx 0) as [->|Hne].
  - destruct fuel as [|fuel']; [lia|]. cbn [for_loop].
    cbn [Z.ltb Z.compare bind].
    change (1 + 0 + N * ty) with (1 + N * ty).
    rewrite (cell_index 0 ty) by lia.
    rewrite (cell_index 1 ty) by lia.
    rewrite wrap32_id by lia. rewrite for_loop_done by lia.
    reflexivity.
  - apply for_loop_done. lia.
Qed.

(** Line 83, one thread. *)
Lemma write_thread (vec tx ty : Z) (st : kstate) :
  0 <= vec < 2 ^ 31 -> 0 <= ty < blockDim_y ->
  write_phase N vec tx ty st =
  Some (if tx =? 0
        then set_C st (vec + 256 * ty) (accumResult st (N * ty))
        else st).
Proof using HN Hbx Hby Hfuel.
  intros Hv Hy. unfold write_phase.
  rewrite (wrapU32_id (vec + 256 * ty)) by lia.
  rewrite (cell_index 0 ty) by (pose proof N_pos; lia).
  now destruct (tx =? 0).
Qed.

End Regions.

(** ** Writes to the output *)

Lemma slot_state_nil (R : Z -> float -> Prop) (bdy : Z) (C : mem) (s : Z) :
  slot_state R bdy C C [] s.
Proof.
  left. split; [reflexivity|]. intros vec [].
Qed.

(** Processing [l2] after [l1]. *)
Lemma slot_state_app (R : Z -> float -> Prop) (bdy : Z) (C C1 C2 : mem)
    (l1 l2 : list Z) (s : Z) :
  slot_state R bdy C C1 l1 s -> slot_state R bdy C1 C2 l2 s ->
  slot_state R bdy C C2 (l1 ++ l2) s.
Proof.
  intros H1 [[E2 N2]|(vec & Hin & W & HR)].
  - destruct H1 as [[E1 N1]|(vec & Hin & W & HR)].
    + left. split; [congruence|]. intros vec Hv.
      apply in_app_or in Hv as [Hv|Hv]; auto.
    + right. exists vec. rewrite E2. split; [apply in_or_app; now left|auto].
  - right. exists vec. split; [apply in_or_app; now right|auto].
Qed.

Lemma slot_state_impl (R R' : Z -> float -> Prop) (bdy : Z) (C C' : mem)
    (l : list Z) (s : Z) :
  (forall vec x, In vec l -> R vec x -> R' vec x) ->
  slot_state R bdy C C' l s -> slot_state R' bdy C C' l s.
Proof.
  intros HR [H|(vec & Hin & W & Hv)]; [now left|].
  right. exists vec. auto.
Qed.

(** Line 85 for the threads of [l]. *)
Lemma fold_sentinel (blockIdx_x : Z) (l : list (Z * Z)) (st : kstate) :
  let step st (t : Z * Z) :=
    if (fst t =? 0) && (snd t =? 0) && (blockIdx_x =? 0)
    then set_C st 0 fone else st in
  let st' := fold_left step l st in
  (forall s, s <> 0 \/ blockIdx_x <> 0 -> d_C st' s = d_C st s) /\
  (blockIdx_x = 0 -> d_C st 0 = fone \/ In (0, 0) l -> d_C st' 0 = fone).
Proof.
  intros step. revert st.
  induction l as [|t l IH]; intros st; cbn [fold_left].
  - split; [reflexivity|]. intros _ [H|[]]. exact H.
  - set (st1 := step st t).
    destruct (IH st1) as [Hfr Hhit]. split.
    + intros s Hs. rewrite Hfr by exact Hs. unfold st1, step.
      destruct (Z.eqb_spec (fst t) 0), (Z.eqb_spec (snd t) 0),
        (Z.eqb_spec blockIdx_x 0); simpl; try reflexivity.
      apply store_other. lia.
    + intros Hb H. apply Hhit; [exact Hb|].
      destruct H as [H|[H|H]].
      * left. unfold st1, step.
        destruct ((fst t =? 0) && (snd t =? 0) && (blockIdx_x =? 0));
          [apply store_same|exact H].
      * left. unfold st1, step. subst t blockIdx_x. apply store_same.
      * right. exact H.
Qed.

(** ** The rounds above the last one *)

Lemma tree_fun_upper (m : nat) (f : Z -> float) :
  tree_fun (S m) f = fadd (upper m f 0) (upper m f 1).
Proof.
  revert f. induction m as [|m IH]; intros f; [reflexivity|].
  change (tree_fun (S (S m)) f)
    with (tree_fun (S m) (round_fun (2 ^ Z.of_nat (S m)) f)).
  now rewrite IH.
Qed.

Lemma upper_ext (m : nat) (f g : Z -> float) :
  (forall i, 0 <= i < 2 ^ Z.of_nat (S m) -> f i = g i) ->
  forall i, 0 <= i < 2 -> upper m f i = upper m g i.
Proof.
  revert f g. induction m as [|m IH]; intros f g H i Hi.
  - apply H. change (2 ^ Z.of_nat 1) with 2. lia.
  - cbn [upper]. apply IH; [|exact Hi]. intros j Hj. unfold round_fun.
    pose proof (pow2_succ (S m)).
    rewrite !H by lia. reflexivity.
Qed.

Section Rounds.

Variable k : nat.
Local Abbreviation N := (2 ^ Z.of_nat k).
Variables d_A d_B : mem.
Variables blockDim_x blockDim_y : Z.
Variable fuel : nat.
Variable order : nat -> list (Z * Z).
Variable bx : Z.

Hypothesis HN : N <= 2 ^ 30.
Hypothesis Hbx : 0 < blockDim_x /\ N + blockDim_x <= 2 ^ 31.
Hypothesis Hby : 0 < blockDim_y <= 3.
Hypothesis Horder :
  forall j, Permutation (order j) (block_threads blockDim_x blockDim_y).
Hypothesis Hfuel : N <= Z.of_nat fuel.

Local Abbreviation run_from j p st :=
  (run_segments N d_A d_B blockDim_x fuel bx order j (segments p) st)
  (only parsing).

(** The first segment of a block: lines 61-69 of its first vector. *)
Lemma accum_segment (ts : list (Z * Z)) (vectorBase vectorEnd : Z)
    (st : kstate) :
  Permutation ts (block_threads blockDim_x blockDim_y) ->
  - 2 ^ 31 <= vectorBase -> vectorBase + N <= 2 ^ 31 ->
  vectorEnd + N <= 2 ^ 31 ->
  vectorEnd - vectorBase <= Z.of_nat fuel ->
  exists st',
    forall_threads ts
      (run_thread N d_A d_B blockDim_x fuel bx [Accum vectorBase vectorEnd])
      st = Some st' /\
    d_C st' = d_C st /\
    forall i ty, 0 <= i < N -> 0 <= ty < blockDim_y ->
      accumResult st' (i + N * ty) =
      lane_value N d_A d_B vectorBase vectorEnd i.
Proof using HN Hbx Hby Hfuel.
  intros Hts Hb1 Hb2 He Hf.
  destruct (accum_region k d_A d_B blockDim_x blockDim_y fuel ts HN Hbx Hby
              Hts Hfuel vectorBase vectorEnd st Hb1 Hb2 He Hf)
    as (st' & E & H).
  exists st'. split; [|exact H]. rewrite <- E.
  apply forall_threads_ext. intros t s _. apply run_thread_one.
Qed.

(** The segments of the rounds with strides [2^j], ..., [2]: accumulators
    0 and 1 of every row end with the sums of [upper]. *)
Lemma uppers_spec (j : nat) :
  2 ^ Z.of_nat (S j) <= N ->
  forall (q : list item) (n : nat) (st : kstate),
  exists n' st',
    run_from n (uppers j ++ q) st = run_from n' q st' /\
    d_C st' = d_C st /\
    forall ty i, 0 <= ty < blockDim_y -> 0 <= i < 2 ->
      accumResult st' (i + N * ty) =
      upper j (fun i => accumResult st (i + N * ty)) i.
Proof using HN Hbx Hby Horder Hfuel.
  induction j as [|j IH]; intros Hj q n st.
  - exists n, st. repeat split; reflexivity.
  - pose proof (pow2_succ (S j)) as Hd. pose proof (pow2_pos (S j)) as Hp.
    cbn [uppers app].
    change (Reduce (2 ^ Z.of_nat (S j)) :: Barrier :: uppers j ++ q)
      with ([Reduce (2 ^ Z.of_nat (S j))] ++ Barrier :: uppers j ++ q).
    rewrite segments_barrier by reflexivity. cbn [run_segments].
    destruct (reduce_region k blockDim_x blockDim_y fuel (order n) HN Hbx
                Hby (Horder n) Hfuel (2 ^ Z.of_nat (S j)) st)
      as (st1 & E1 & HC1 & Hv1); [lia|lia|].
    rewrite (forall_threads_ext _
               (reduce_phase N blockDim_x fuel (2 ^ Z.of_nat (S j))))
      by (intros t s _; apply run_thread_one).
    rewrite E1. cbn [bind].
    destruct (IH ltac:(lia) q (S n) st1) as (n' & st' & E & HC & Hv).
    exists n', st'. split; [exact E|]. split; [congruence|].
    intros ty i Hy Hi. rewrite Hv by assumption. cbn [upper].
    apply upper_ext; [|exact Hi]. intros x Hx. unfold round_fun.
    apply Hv1; assumption.
Qed.

End Rounds.

(** ** The last round, line 83 and what follows them *)

Section LastRound.

Variable m : nat.
Local Abbreviation N := (2 ^ Z.of_nat (S m)).
Variables d_A d_B : mem.
Variables blockDim_x blockDim_y : Z.
Variable fuel : nat.
Variable ts : list (Z * Z).
Variable bx : Z.

Hypothesis HN : N <= 2 ^ 30.
Hypothesis Hbx : 0 < blockDim_x /\ N + blockDim_x <= 2 ^ 31.
Hypothesis Hby : 0 < blockDim_y <= 3.
Hypothesis Hts : Permutation ts (block_threads blockDim_x blockDim_y).
Hypothesis Hfuel : N <= Z.of_nat fuel.

(** The vector [u] that line 83 writes, and accumulators 0 and 1 of its
    rows after the round with stride 2. *)
Variable u : Z.
Variables a0 a1 : float.
Hypothesis Hu : 0 <= u < 2 ^ 31.

Lemma N_ge_2 : 2 <= N.
Proof.
  rewrite pow2_succ. pose proof (pow2_pos m). lia.
Qed.

Lemma cell_0_1 (ty ty' : Z) : N * ty <> 1 + N * ty'.
Proof.
  pose proof N_ge_2. intros E.
  destruct (cell_inj (S m) 0 1 ty ty'); lia.
Qed.

(** One thread through the round with stride 1, line 83 and lines 61-69
    of the next vector. *)
Lemma thread_next (vectorBase vectorEnd tx ty : Z) (st : kstate) :
  - 2 ^ 31 <= vectorBase -> vectorBase + N <= 2 ^ 31 ->
  vectorEnd + N <= 2 ^ 31 ->
  vectorEnd - vectorBase <= Z.of_nat fuel ->
  0 <= tx < blockDim_x -> 0 <= ty < blockDim_y ->
  exists st',
    run_thread N d_A d_B blockDim_x fuel bx
      [Reduce 1; Write u; Accum vectorBase vectorEnd] tx ty st = Some st' /\
    (forall i, In i (stride_list tx N blockDim_x) ->
       accumResult st' (i + N * ty) =
       lane_value N d_A d_B vectorBase vectorEnd i) /\
    (forall c, (forall i, In i (stride_list tx N blockDim_x) ->
                  c <> i + N * ty) ->
       accumResult st' c = accumResult st c) /\
    d_C st' =
    (if tx =? 0
     then store (d_C st) (u + 256 * ty)
            (fadd (accumResult st (N * ty)) (accumResult st (1 + N * ty)))
     else d_C st).
Proof.
  intros Hb1 Hb2 He Hf Hx Hy. pose proof N_ge_2 as H2.
  cbn [run_thread exec_item].
  rewrite (reduce_one_thread (S m) blockDim_x blockDim_y fuel HN Hbx Hby Hfuel)
    by assumption.
  cbn [bind].
  rewrite (write_thread (S m) blockDim_x blockDim_y fuel HN Hbx Hby Hfuel)
    by assumption.
  cbn [bind].
  match goal with
  | |- context [accum_phase _ _ _ _ _ _ _ _ _ ?s] => set (st2 := s)
  end.
  destruct (accum_thread (S m) d_A d_B blockDim_x blockDim_y fuel HN Hbx Hby
              Hfuel vectorBase vectorEnd tx ty st2 Hb1 Hb2 He Hf Hx Hy)
    as (st3 & E & HC & Hown & Hfr).
  exists st3. rewrite E. split; [reflexivity|]. split; [exact Hown|].
  split.
  - intros c Hc. rewrite Hfr by exact Hc. unfold st2.
    destruct (Z.eqb_spec tx 0) as [->|Hne]; [|reflexivity].
    cbn [set_C set_accum accumResult]. apply store_other.
    replace (N * ty) with (0 + N * ty) by ring. apply Hc.
    apply in_stride_list; [lia|]. split; [lia|reflexivity].
  - rewrite HC. unfold st2.
    destruct (Z.eqb_spec tx 0) as [->|Hne]; [|reflexivity].
    cbn [set_C set_accum accumResult d_C]. now rewrite store_same.
Qed.

(** One thread through the round with stride 1, line 83 and line 85. *)
Lemma thread_last (tx ty : Z) (st : kstate) :
  0 <= tx < blockDim_x -> 0 <= ty < blockDim_y ->
  exists st',
    run_thread N d_A d_B blockDim_x fuel bx [Reduce 1; Write u; Sentinel]
      tx ty st = Some st' /\
    (forall c, tx <> 0 \/ c <> N * ty ->
       accumResult st' c = accumResult st c) /\
    (tx <> 0 -> d_C st' = d_C st) /\
    (tx = 0 ->
     let C1 := store (d_C st) (u + 256 * ty)
                 (fadd (accumResult st (N * ty))
                       (accumResult st (1 + N * ty))) in
     d_C st' = if (ty =? 0) && (bx =? 0) then store C1 0 fone else C1).
Proof.
  intros Hx Hy. cbn [run_thread exec_item].
  rewrite (reduce_one_thread (S m) blockDim_x blockDim_y fuel HN Hbx Hby Hfuel)
    by assumption.
  cbn [bind].
  rewrite (write_thread (S m) blockDim_x blockDim_y fuel HN Hbx Hby Hfuel)
    by assumption.
  cbn [bind]. unfold sentinel_phase.
  destruct (Z.eqb_spec tx 0) as [->|Hne].
  - cbn [andb].
    destruct ((ty =? 0) && (bx =? 0)); eexists; (split; [reflexivity|]);
      cbn [set_C set_accum accumResult d_C]; rewrite store_same;
      (split; [|split; [congruence|reflexivity]]);
      intros c [Hc|Hc]; try congruence; now rewrite store_other.
  - cbn [andb]. exists st. split; [reflexivity|].
    split; [reflexivity|]. split; [reflexivity|]. congruence.
Qed.

(** The threads of the block through the round with stride 1, line 83 and
    lines 61-69 of the next vector.  Thread [(0, ty)] reads accumulator 1
    of its row, which thread [(1, ty)] overwrites for the next vector: the
    value written for [u] depends on which of the two runs first. *)
Lemma segment_next (vectorBase vectorEnd : Z) (st : kstate) :
  - 2 ^ 31 <= vectorBase -> vectorBase + N <= 2 ^ 31 ->
  vectorEnd + N <= 2 ^ 31 ->
  vectorEnd - vectorBase <= Z.of_nat fuel ->
  (forall ty, 0 <= ty < blockDim_y ->
     accumResult st (N * ty) = a0 /\ accumResult st (1 + N * ty) = a1) ->
  exists st',
    forall_threads ts
      (run_thread N d_A d_B blockDim_x fuel bx
         [Reduce 1; Write u; Accum vectorBase vectorEnd]) st = Some st' /\
    (forall i ty, 0 <= i < N -> 0 <= ty < blockDim_y ->
       accumResult st' (i + N * ty) =
       lane_value N d_A d_B vectorBase vectorEnd i) /\
    forall s,
      slot_state
        (fun _ x =>
           x = fadd a0 a1 \/
           (1 < blockDim_x /\
            x = fadd a0 (lane_value N d_A d_B vectorBase vectorEnd 1)))
        blockDim_y (d_C st) (d_C st') [u] s.
Proof using HN Hbx Hby Hts Hfuel Hu.
  intros Hb1 Hb2 He Hf Hpre. pose proof N_ge_2 as H2.
  set (L := lane_value N d_A d_B vectorBase vectorEnd).
  pose proof (in_threads blockDim_x blockDim_y ts Hts) as Hin.
  destruct (forall_threads_inv
              (fun done st' =>
                 (forall ty, 0 <= ty < blockDim_y -> ~ In (0, ty) done ->
                    accumResult st' (N * ty) = a0 /\
                    (accumResult st' (1 + N * ty) = a1 \/
                     (In (1, ty) done /\
                      accumResult st' (1 + N * ty) = L 1))) /\
                 (forall tx ty i, In (tx, ty) done ->
                    In i (stride_list tx N blockDim_x) ->
                    accumResult st' (i + N * ty) = L i) /\
                 (forall s,
                    (d_C st' s = d_C st s /\
                     forall ty, In (0, ty) done -> s <> u + 256 * ty) \/
                    (exists ty, In (0, ty) done /\ s = u + 256 * ty /\
                       (d_C st' s = fadd a0 a1 \/
                        (1 < blockDim_x /\ d_C st' s = fadd a0 (L 1))))))
              (run_thread N d_A d_B blockDim_x fuel bx
                 [Reduce 1; Write u; Accum vectorBase vectorEnd]) ts st)
    as (st' & E & done & Hdone & P1 & P2 & P3).
  - apply (NoDup_threads blockDim_x blockDim_y ts Hts).
  - split; [|split].
    + intros ty Hy _. destruct (Hpre ty Hy). auto.
    + intros tx ty i [].
    + intros s. left. split; [reflexivity|]. intros ty [].
  - intros done [tx ty] s0 Ht Hnd Hincl (P1 & P2 & P3). cbn [fst snd].
    apply Hin in Ht. destruct Ht as [Hx Hy].
    destruct (thread_next vectorBase vectorEnd tx ty s0 Hb1 Hb2 He Hf Hx Hy)
      as (s1 & E & Hown & Hfr & HC).
    exists s1. split; [exact E|]. split; [|split].
    + intros ty' Hy' Hn'.
      assert (Hne : (0, ty') <> (tx, ty))
        by (intros X; apply Hn'; left; now symmetry).
      assert (Hn0 : ~ In (0, ty') done) by (intros X; apply Hn'; now right).
      destruct (P1 ty' Hy' Hn0) as [Q0 Q1]. split.
      * rewrite Hfr; [exact Q0|]. intros i Hi Ec.
        apply in_stride_list in Hi; [|lia].
        destruct (cell_inj (S m) 0 i ty' ty) as [Ei Ey]; try lia.
        apply Hne. f_equal; lia.
      * assert (Hold : accumResult s0 (1 + N * ty') = a1 \/
                       In (1, ty') ((tx, ty) :: done) /\
                       accumResult s0 (1 + N * ty') = L 1).
        { destruct Q1 as [Q1|[Q1 Q1']]; [now left|].
          right. split; [now right|exact Q1']. }
        destruct (Z.eq_dec ty ty') as [Ey|Hty];
          [destruct (Z.eq_dec tx 1) as [Ex|Htx]|].
        -- subst. right. split; [now left|]. apply Hown.
           apply in_stride_list; [lia|]. split; [lia|].
           rewrite Z.sub_diag. apply Z.mod_0_l. lia.
        -- rewrite Hfr; [exact Hold|]. intros i Hi Ec.
           apply in_stride_list in Hi; [|lia].
           destruct (cell_inj (S m) 1 i ty' ty) as [Ei _]; try lia.
           apply Hne. f_equal; lia.
        -- rewrite Hfr; [exact Hold|]. intros i Hi Ec.
           apply in_stride_list in Hi; [|lia].
           destruct (cell_inj (S m) 1 i ty' ty) as [_ Ey]; lia.
    + intros tx2 ty2 i [Heq|Hd] Hi.
      * inversion Heq; subst. now apply Hown.
      * rewrite Hfr; [now apply (P2 tx2 ty2)|].
        intros i' Hi' Ec.
        assert (Ht2 : 0 <= tx2 < blockDim_x /\ 0 <= ty2 < blockDim_y)
          by (apply Hin, Hincl, Hd).
        pose proof Hi as Hr. apply in_stride_list in Hr; [|lia].
        pose proof Hi' as Hr'. apply in_stride_list in Hr'; [|lia].
        destruct (cell_inj (S m) i i' ty2 ty) as [Ei Ey]; try lia.
        apply Hnd. subst i' ty2.
        rewrite <- (in_stride_class tx N blockDim_x i) by (assumption || lia).
        rewrite (in_stride_class tx2 N blockDim_x i) by (assumption || lia).
        exact Hd.
    + intros s. rewrite HC. destruct (Z.eqb_spec tx 0) as [->|Hne].
      * destruct (Z.eq_dec s (u + 256 * ty)) as [->|Hs].
        -- right. exists ty. split; [now left|]. split; [reflexivity|].
           rewrite store_same.
           destruct (P1 ty Hy Hnd) as [Q0 [Q1|[Q1 Q1']]]; rewrite Q0.
           ++ left. now rewrite Q1.
           ++ right. split; [|now rewrite Q1'].
              apply Hincl, Hin in Q1. lia.
        -- rewrite store_other by exact Hs.
           destruct (P3 s) as [[Q Qn]|(ty' & Qi & Qs & Qv)].
           ++ left. split; [exact Q|].
              intros ty' [X|X]; [inversion X; subst; exact Hs|now apply Qn].
           ++ right. exists ty'. split; [now right|auto].
      * destruct (P3 s) as [[Q Qn]|(ty' & Qi & Qs & Qv)].
        -- left. split; [exact Q|].
           intros ty' [X|X]; [inversion X; lia|now apply Qn].
        -- right. exists ty'. split; [now right|auto].
  - exists st'. split; [exact E|]. split.
    + intros i ty Hi Hy. apply (P2 (i mod blockDim_x) ty).
      * apply Hdone, Hin.
        pose proof (Z.mod_pos_bound i blockDim_x ltac:(lia)). lia.
      * apply in_stride_own; lia.
    + intros s. destruct (P3 s) as [[Q Qn]|(ty & Qi & Qs & Qv)].
      * left. split; [exact Q|]. intros vec [<-|[]] (ty & Hy & Hs).
        apply (Qn ty); [apply Hdone, Hin; lia|exact Hs].
      * right. exists u. split; [now left|]. split; [|exact Qv].
        exists ty. split; [apply Hdone, Hin in Qi; lia|exact Qs].
Qed.

(** The threads of the block through the round with stride 1, line 83 and
    line 85: the last segment of a block. *)
Lemma segment_last (st : kstate) :
  (forall ty, 0 <= ty < blockDim_y ->
     accumResult st (N * ty) = a0 /\ accumResult st (1 + N * ty) = a1) ->
  exists st',
    forall_threads ts
      (run_thread N d_A d_B blockDim_x fuel bx [Reduce 1; Write u; Sentinel])
      st = Some st' /\
    (forall s, s <> 0 \/ bx <> 0 ->
       slot_state (fun _ x => x = fadd a0 a1) blockDim_y (d_C st) (d_C st')
         [u] s) /\
    (bx = 0 -> d_C st' 0 = fone).
Proof using HN Hbx Hby Hts Hfuel Hu.
  intros Hpre. pose proof N_ge_2 as H2.
  pose proof (in_threads blockDim_x blockDim_y ts Hts) as Hin.
  destruct (forall_threads_inv
              (fun done st' =>
                 (forall ty, 0 <= ty < blockDim_y -> ~ In (0, ty) done ->
                    accumResult st' (N * ty) = a0 /\
                    accumResult st' (1 + N * ty) = a1) /\
                 (forall s, s <> 0 \/ bx <> 0 ->
                    (d_C st' s = d_C st s /\
                     forall ty, In (0, ty) done -> s <> u + 256 * ty) \/
                    (exists ty, In (0, ty) done /\ s = u + 256 * ty /\
                       d_C st' s = fadd a0 a1)) /\
                 (bx = 0 -> In (0, 0) done -> d_C st' 0 = fone))
              (run_thread N d_A d_B blockDim_x fuel bx
                 [Reduce 1; Write u; Sentinel]) ts st)
    as (st' & E & done & Hdone & P1 & P3 & P4).
  - apply (NoDup_threads blockDim_x blockDim_y ts Hts).
  - split; [|split].
    + intros ty Hy _. now apply Hpre.
    + intros s _. left. split; [reflexivity|]. intros ty [].
    + intros _ [].
  - intros done [tx ty] s0 Ht Hnd Hincl (P1 & P3 & P4). cbn [fst snd].
    apply Hin in Ht. destruct Ht as [Hx Hy].
    destruct (thread_last tx ty s0 Hx Hy) as (s1 & E & Hfr & HC & HC0).
    exists s1. split; [exact E|]. split; [|split].
    + intros ty' Hy' Hn'.
      assert (Hne : (0, ty') <> (tx, ty))
        by (intros X; apply Hn'; left; now symmetry).
      assert (Hn0 : ~ In (0, ty') done) by (intros X; apply Hn'; now right).
      destruct (P1 ty' Hy' Hn0) as [Q0 Q1].
      rewrite !Hfr; [auto| |].
      * right. apply not_eq_sym, cell_0_1.
      * destruct (Z.eq_dec tx 0) as [->|Hn]; [|now left]. right.
        intros Ec. destruct (cell_inj (S m) 0 0 ty' ty) as [_ Ey]; try lia.
        apply Hne. now rewrite Ey.
    + intros s Hs. destruct (Z.eq_dec tx 0) as [->|Hne].
      * assert (Es : forall x, s <> x ->
                  d_C s1 s = store (d_C s0) x
                               (fadd (accumResult s0 (N * ty))
                                  (accumResult s0 (1 + N * ty))) s ->
                  d_C s1 s = d_C s0 s)
          by (intros x Hx' ->; now apply store_other).
        assert (EC : d_C s1 s =
                     store (d_C s0) (u + 256 * ty)
                       (fadd (accumResult s0 (N * ty))
                          (accumResult s0 (1 + N * ty))) s).
        { rewrite (HC0 eq_refl). cbv zeta.
          destruct (Z.eqb_spec ty 0) as [Ey|Ey];
            destruct (Z.eqb_spec bx 0) as [Eb|Eb]; cbn [andb];
            try reflexivity.
          apply store_other. lia. }
        rewrite EC.
        destruct (Z.eq_dec s (u + 256 * ty)) as [->|Hsu].
        -- right. exists ty. split; [now left|]. split; [reflexivity|].
           rewrite store_same. destruct (P1 ty Hy Hnd) as [-> ->].
           reflexivity.
        -- rewrite store_other by exact Hsu.
           destruct (P3 s Hs) as [[Q Qn]|(ty' & Qi & Qs & Qv)].
           ++ left. split; [exact Q|].
              intros ty' [X|X]; [inversion X; subst; exact Hsu|now apply Qn].
           ++ right. exists ty'. split; [now right|auto].
      * rewrite (HC Hne).
        destruct (P3 s Hs) as [[Q Qn]|(ty' & Qi & Qs & Qv)].
        -- left. split; [exact Q|].
           intros ty' [X|X]; [inversion X; lia|now apply Qn].
        -- right. exists ty'. split; [now right|auto].
    + intros Eb [X|X].
      * inversion X; subst. rewrite (HC0 eq_refl). cbv zeta. cbn [Z.eqb andb].
        apply store_same.
      * destruct (Z.eq_dec tx 0) as [->|Hne].
        -- rewrite (HC0 eq_refl). cbv zeta.
           assert (ty <> 0) by (intros ->; contradiction).
           destruct (Z.eqb_spec ty 0); [lia|]. cbn [andb].
           rewrite store_other by lia. now apply P4.
        -- rewrite (HC Hne). now apply P4.
  - exists st'. split; [exact E|]. split.
    + intros s Hs. destruct (P3 s Hs) as [[Q Qn]|(ty & Qi & Qs & Qv)].
      * left. split; [exact Q|]. intros vec [<-|[]] (ty & Hy & Hsu).
        apply (Qn ty); [apply Hdone, Hin; lia|exact Hsu].
      * right. exists u. split; [now left|]. split; [|exact Qv].
        exists ty. split; [apply Hdone, Hin in Qi; lia|exact Qs].
    + intros Eb. apply P4; [exact Eb|]. apply Hdone, Hin. lia.
Qed.

End LastRound.

(** ** The vectors of a block *)

Lemma program_nil (k : nat) (elementN : Z) : program k elementN [] = [Sentinel].
Proof.
  reflexivity.
Qed.

Lemma program_cons (m : nat) (elementN vec : Z) (vecs : list Z) :
  program (S m) elementN (vec :: vecs) =
  Accum (IMUL elementN vec) (wrap32 (IMUL elementN vec + elementN))
  :: Barrier
  :: uppers m ++ Reduce 1 :: Write vec :: program (S m) elementN vecs.
Proof.
  unfold program, vitems, rounds_of. cbn [map concat app].
  rewrite <- !app_assoc. reflexivity.
Qed.

Lemma program_cons_0 (elementN vec : Z) (vecs : list Z) :
  program 0 elementN (vec :: vecs) =
  Accum (IMUL elementN vec) (wrap32 (IMUL elementN vec + elementN))
  :: Write vec :: program 0 elementN vecs.
Proof.
  reflexivity.
Qed.

Lemma program_0_no_barrier (elementN : Z) (vecs : list Z) :
  no_barrier (program 0 elementN vecs) = true.
Proof.
  induction vecs as [|vec vecs IH]; [reflexivity|].
  rewrite program_cons_0. exact IH.
Qed.

(** Line 85 alone: the segment of a block without vectors. *)
Lemma sentinel_segment (ACCUM_N : Z) (d_A d_B : mem) (blockDim_x : Z)
    (fuel : nat) (ts : list (Z * Z)) (bx : Z) (st : kstate) :
  exists st',
    forall_threads ts
      (run_thread ACCUM_N d_A d_B blockDim_x fuel bx [Sentinel]) st =
    Some st' /\
    (forall s, s <> 0 \/ bx <> 0 -> d_C st' s = d_C st s) /\
    (bx = 0 -> In (0, 0) ts -> d_C st' 0 = fone).
Proof.
  rewrite (forall_threads_fold
             (fun t st =>
                if (fst t =? 0) && (snd t =? 0) && (bx =? 0)
                then set_C st 0 fone else st)).
  - eexists. split; [reflexivity|].
    destruct (fold_sentinel bx ts st) as [Hfr Hhit]. split.
    + intros s Hs. cbv zeta in Hfr. now rewrite Hfr.
    + intros E0 Hin. apply Hhit; auto.
  - intros t s _. cbn [run_thread exec_item]. unfold sentinel_phase.
    now destruct ((fst t =? 0) && (snd t =? 0) && (bx =? 0)).
Qed.

Lemma stride_list_one (i limit step : Z) :
  0 < step -> i < limit -> limit <= i + step ->
  stride_list i limit step = [i].
Proof.
  intros Hs Hi Hl. rewrite stride_list_cons by lia.
  now rewrite stride_list_nil by lia.
Qed.

Section Vectors.

Variable m : nat.
Local Abbreviation N := (2 ^ Z.of_nat (S m)).
Variables d_A d_B : mem.
Variables vectorN elementN : Z.
Variables gridDim_x blockDim_x blockDim_y : Z.
Variable fuel : nat.
Variable order : nat -> list (Z * Z).
Variable bx : Z.

Hypothesis HN : N <= 2 ^ 30.
Hypothesis Hgrid : 0 < gridDim_x < 2 ^ 31 /\ vectorN + gridDim_x <= 2 ^ 31.
Hypothesis Hbx : 0 < blockDim_x /\ N + blockDim_x <= 2 ^ 31.
Hypothesis Hby : 0 < blockDim_y <= 3.
Hypothesis Horder :
  forall j, Permutation (order j) (block_threads blockDim_x blockDim_y).
Hypothesis Hfuel : vectorN <= Z.of_nat fuel /\ N <= Z.of_nat fuel.
Hypothesis Hvec : forall vec, 0 <= vec < vectorN -> vec_ok N elementN fuel vec.

Local Abbreviation R :=
  (slot_value (S m) d_A d_B vectorN elementN gridDim_x blockDim_x).

Local Abbreviation run_from j p st :=
  (run_segments N d_A d_B blockDim_x fuel bx order j (segments p) st)
  (only parsing).

(** From the first barrier of vector [v] to the end of the block. *)
Lemma vectors_spec (n : nat) :
  forall (v : Z) (j : nat) (st : kstate),
    0 <= v < vectorN -> (Z.to_nat (vectorN - v) <= n)%nat ->
    (forall i ty, 0 <= i < N -> 0 <= ty < blockDim_y ->
       accumResult st (i + N * ty) = lanes (S m) d_A d_B elementN v i) ->
    exists st',
      run_from j
        (uppers m ++ Reduce 1 :: Write v
           :: program (S m) elementN
                (stride_list (v + gridDim_x) vectorN gridDim_x)) st =
      Some st' /\
      (forall s, s <> 0 \/ bx <> 0 ->
         slot_state R blockDim_y (d_C st) (d_C st')
           (stride_list v vectorN gridDim_x) s) /\
      (bx = 0 -> d_C st' 0 = fone).
Proof using HN Hgrid Hbx Hby Horder Hfuel Hvec.
  induction n as [|n IH]; intros v j st Hv Hn Hrows; [lia|].
  pose proof (pow2_succ m) as Hd. pose proof (pow2_pos m) as Hp.
  set (a := upper m (lanes (S m) d_A d_B elementN v)).
  destruct (uppers_spec (S m) d_A d_B blockDim_x blockDim_y fuel order bx HN
              Hbx Hby Horder (proj2 Hfuel) m ltac:(lia)
              (Reduce 1 :: Write v
                 :: program (S m) elementN
                      (stride_list (v + gridDim_x) vectorN gridDim_x)) j st)
    as (j2 & st2 & E2 & HC2 & Hv2).
  rewrite E2. clear E2.
  assert (Hpre : forall ty, 0 <= ty < blockDim_y ->
                   accumResult st2 (N * ty) = a 0 /\
                   accumResult st2 (1 + N * ty) = a 1).
  { intros ty Hy. split.
    - rewrite <- (Z.add_0_l (N * ty)). rewrite Hv2 by lia.
      apply upper_ext; [|lia]. intros i Hi. apply Hrows; lia.
    - rewrite Hv2 by lia.
      apply upper_ext; [|lia]. intros i Hi. apply Hrows; lia. }
  assert (Hval : vec_value (S m) d_A d_B elementN v = fadd (a 0) (a 1)).
  { unfold vec_value, a, lanes. apply tree_fun_upper. }
  assert (Hu : 0 <= v < 2 ^ 31) by lia.
  destruct (Z_lt_le_dec (v + gridDim_x) vectorN) as [Hnext|Hend].
  - rewrite (stride_list_cons (v + gridDim_x) vectorN gridDim_x) by lia.
    rewrite program_cons.
    set (v' := v + gridDim_x) in *.
    set (q := uppers m ++ Reduce 1 :: Write v'
                :: program (S m) elementN
                     (stride_list (v' + gridDim_x) vectorN gridDim_x)).
    change (Reduce 1 :: Write v
              :: Accum (IMUL elementN v') (wrap32 (IMUL elementN v' + elementN))
              :: Barrier :: q)
      with ([Reduce 1; Write v;
             Accum (IMUL elementN v') (wrap32 (IMUL elementN v' + elementN))]
              ++ Barrier :: q).
    rewrite segments_barrier by reflexivity. cbn [run_segments].
    destruct (Hvec v' ltac:(lia)) as (Hb & He & Hf).
    destruct (segment_next m d_A d_B blockDim_x blockDim_y fuel (order j2) bx
                HN Hbx Hby (Horder j2) (proj2 Hfuel) v (a 0) (a 1) Hu
                (IMUL elementN v') (wrap32 (IMUL elementN v' + elementN))
                st2 (proj1 (wrap32_range _)) Hb He Hf Hpre)
      as (st3 & E3 & Hrows3 & Hs3).
    rewrite E3. cbn [bind].
    destruct (IH v' (S j2) st3 ltac:(lia) ltac:(lia) Hrows3)
      as (st' & E & Hs & H0).
    exists st'. split; [exact E|]. split; [|exact H0].
    intros s Hs0. rewrite (stride_list_cons v vectorN gridDim_x) by lia.
    change (v :: stride_list (v + gridDim_x) vectorN gridDim_x)
      with ([v] ++ stride_list v' vectorN gridDim_x).
    apply slot_state_app with (C1 := d_C st3); [|now apply Hs].
    rewrite <- HC2. eapply slot_state_impl; [|apply Hs3].
    intros vec x [<-|[]] [Hx|[Hx1 Hx2]].
    + left. now rewrite Hval.
    + right. split; [lia|]. split; [exact Hx1|]. split; [exact Hnext|].
      exact Hx2.
  - rewrite (stride_list_nil (v + gridDim_x)) by lia. rewrite program_nil.
    rewrite segments_last by reflexivity. cbn [run_segments].
    destruct (segment_last m d_A d_B blockDim_x blockDim_y fuel (order j2) bx
                HN Hbx Hby (Horder j2) (proj2 Hfuel) v (a 0) (a 1) Hu st2
                Hpre)
      as (st3 & E3 & Hs3 & H0).
    rewrite E3. cbn [bind].
    exists st3. split; [reflexivity|]. split; [|exact H0].
    intros s Hs0. rewrite stride_list_one by lia.
    rewrite <- HC2. eapply slot_state_impl; [|now apply Hs3].
    intros vec x [<-|[]] Hx. left. now rewrite Hval.
Qed.

(** Lines 50-85 for the block [bx], with [ACCUM_N] at least 2. *)
Lemma block_spec (st : kstate) :
  0 <= bx < gridDim_x ->
  exists st',
    run_from 0%nat
      (program (S m) elementN (stride_list bx vectorN gridDim_x)) st =
    Some st' /\
    (forall s, s <> 0 \/ bx <> 0 ->
       slot_state R blockDim_y (d_C st) (d_C st')
         (stride_list bx vectorN gridDim_x) s) /\
    (bx = 0 -> d_C st' 0 = fone).
Proof using HN Hgrid Hbx Hby Horder Hfuel Hvec.
  intros Hb.
  assert (Hin : In (0, 0) (order 0%nat))
    by (apply (in_threads blockDim_x blockDim_y _ (Horder 0%nat)); lia).
  destruct (Z_lt_le_dec bx vectorN) as [Hlt|Hge].
  - rewrite (stride_list_cons bx vectorN gridDim_x) by lia.
    rewrite program_cons.
    set (q := uppers m ++ Reduce 1 :: Write bx
                :: program (S m) elementN
                     (stride_list (bx + gridDim_x) vectorN gridDim_x)).
    change (Accum (IMUL elementN bx) (wrap32 (IMUL elementN bx + elementN))
              :: Barrier :: q)
      with ([Accum (IMUL elementN bx)
               (wrap32 (IMUL elementN bx + elementN))] ++ Barrier :: q).
    rewrite segments_barrier by reflexivity. cbn [run_segments].
    destruct (Hvec bx ltac:(lia)) as (Hbase & He & Hf).
    destruct (accum_segment (S m) d_A d_B blockDim_x blockDim_y fuel bx
                HN Hbx Hby (proj2 Hfuel) (order 0%nat)
                (IMUL elementN bx) (wrap32 (IMUL elementN bx + elementN))
                st (Horder 0%nat) (proj1 (wrap32_range _)) Hbase He Hf)
      as (st1 & E1 & HC1 & Hrows).
    rewrite E1. cbn [bind].
    destruct (vectors_spec (Z.to_nat (vectorN - bx)) bx 1%nat st1 ltac:(lia)
                (le_n _) Hrows) as (st' & E & Hs & H0).
    exists st'. split; [exact E|]. split; [|exact H0].
    intros s Hs0. rewrite <- HC1.
    rewrite <- (stride_list_cons bx vectorN gridDim_x) by lia.
    now apply Hs.
  - rewrite stride_list_nil by lia. rewrite program_nil.
    rewrite segments_last by reflexivity. cbn [run_segments].
    destruct (sentinel_segment N d_A d_B blockDim_x fuel (order 0%nat) bx st)
      as (st' & E & Hfr & H0).
    rewrite E. cbn [bind]. exists st'. split; [reflexivity|].
    split; [|auto]. intros s Hs. left. split; [now apply Hfr|].
    intros vec [].
Qed.

End Vectors.

(** ** A block with one accumulator per row *)

Section Flat.

Local Abbreviation N := (2 ^ Z.of_nat 0).
Variables d_A d_B : mem.
Variables vectorN elementN : Z.
Variables blockDim_x blockDim_y : Z.
Variable fuel : nat.
Variable ts : list (Z * Z).
Variable bx : Z.

Hypothesis Hn : vectorN <= 2 ^ 31.
Hypothesis Hbx : 0 < blockDim_x /\ N + blockDim_x <= 2 ^ 31.
Hypothesis Hby : 0 < blockDim_y <= 3.
Hypothesis Hts : Permutation ts (block_threads blockDim_x blockDim_y).
Hypothesis Hfuel : N <= Z.of_nat fuel.
Hypothesis Hvec : forall vec, 0 <= vec < vectorN -> vec_ok N elementN fuel vec.

Local Abbreviation V := (vec_value 0 d_A d_B elementN).

(** With [ACCUM_N = 1] there is no round and no barrier: a thread runs
    lines 61-69 and line 83 of all the vectors, then line 85, on its own
    accumulator. *)
Lemma thread_flat (vecs : list Z) :
  forall (tx ty : Z) (st : kstate),
    (forall v, In v vecs -> 0 <= v < vectorN) ->
    0 <= tx < blockDim_x -> 0 <= ty < blockDim_y ->
    exists st',
      run_thread N d_A d_B blockDim_x fuel bx (program 0 elementN vecs)
        tx ty st = Some st' /\
      (tx <> 0 -> d_C st' = d_C st) /\
      (tx = 0 ->
       (forall s, s <> 0 \/ bx <> 0 \/ ty <> 0 ->
          (d_C st' s = d_C st s /\
           forall v, In v vecs -> s <> v + 256 * ty) \/
          (exists v, In v vecs /\ s = v + 256 * ty /\ d_C st' s = V v)) /\
       (bx = 0 -> ty = 0 -> d_C st' 0 = fone)).
Proof using Hn Hbx Hby Hfuel Hvec.
  assert (HN : N <= 2 ^ 30) by (change N with 1; lia).
  induction vecs as [|v vecs IH]; intros tx ty st Hin Hx Hy.
  - rewrite program_nil. cbn [run_thread exec_item]. unfold sentinel_phase.
    destruct ((tx =? 0) && (ty =? 0) && (bx =? 0)) eqn:Ec; cbn [bind].
    + apply andb_prop in Ec as [Ec Eb]. apply andb_prop in Ec as [Ex Ey].
      apply Z.eqb_eq in Ex, Ey, Eb.
      eexists. split; [reflexivity|]. split; [congruence|]. intros _. split.
      * intros s Hs. left. split; [|intros v' []].
        cbn [set_C d_C]. apply store_other. lia.
      * intros _ _. apply store_same.
    + exists st. split; [reflexivity|]. split; [reflexivity|].
      intros Ex. split.
      * intros s _. left. split; [reflexivity|intros v' []].
      * intros Eb Ey. subst. discriminate Ec.
  - rewrite program_cons_0. cbn [run_thread exec_item].
    destruct (Hvec v (Hin v (in_eq _ _))) as (Hb & He & Hf).
    destruct (accum_thread 0 d_A d_B blockDim_x blockDim_y fuel HN Hbx Hby
                Hfuel (IMUL elementN v) (wrap32 (IMUL elementN v + elementN))
                tx ty st (proj1 (wrap32_range _)) Hb He Hf Hx Hy)
      as (st1 & E1 & HC1 & Hown & _).
    rewrite E1. cbn [bind].
    rewrite (write_thread 0 blockDim_x blockDim_y fuel HN Hbx Hby Hfuel)
      by (try assumption; specialize (Hin v (in_eq _ _)); lia).
    cbn [bind].
    match goal with
    | |- context [run_thread _ _ _ _ _ _ _ _ _ ?s] => set (st2 := s)
    end.
    destruct (IH tx ty st2 (fun v' Hv' => Hin v' (in_cons _ _ _ Hv')) Hx Hy)
      as (st' & E & Hne & H0).
    exists st'. split; [exact E|]. split.
    + intros Ex. rewrite (Hne Ex). unfold st2.
      destruct (Z.eqb_spec tx 0); [contradiction|exact HC1].
    + intros Ex. destruct (H0 Ex) as [Hs Hz]. split; [|exact Hz].
      assert (E2 : d_C st2 =
                   store (d_C st) (v + 256 * ty) (V v)).
      { unfold st2. subst tx. cbn [Z.eqb set_C d_C]. rewrite HC1. f_equal.
        rewrite <- (Z.add_0_l (N * ty)). rewrite Hown; [reflexivity|].
        apply in_stride_list; [lia|]. change N with 1.
        split; [lia|reflexivity]. }
      intros s Hs0. destruct (Hs s Hs0) as [[Q Qn]|(v' & Qi & Qs & Qv)].
      * destruct (Z.eq_dec s (v + 256 * ty)) as [Es|Es].
        -- right. exists v. split; [now left|]. split; [exact Es|].
           rewrite Q, E2, Es. apply store_same.
        -- left. split.
           ++ rewrite Q, E2. now apply store_other.
           ++ intros v' [<-|Hv']; [exact Es|now apply Qn].
      * right. exists v'. split; [now right|auto].
Qed.

Lemma flat_segment (vecs : list Z) (st : kstate) :
  (forall v, In v vecs -> 0 <= v < vectorN) ->
  exists st',
    forall_threads ts
      (run_thread N d_A d_B blockDim_x fuel bx (program 0 elementN vecs)) st =
    Some st' /\
    (forall s, s <> 0 \/ bx <> 0 ->
       slot_state (fun v x => x = V v) blockDim_y (d_C st) (d_C st') vecs s) /\
    (bx = 0 -> d_C st' 0 = fone).
Proof using Hn Hbx Hby Hts Hfuel Hvec.
  intros Hin.
  pose proof (in_threads blockDim_x blockDim_y ts Hts) as Hth.
  destruct (forall_threads_inv
              (fun done st' =>
                 (forall s, s <> 0 \/ bx <> 0 ->
                    (d_C st' s = d_C st s /\
                     forall v ty, In v vecs -> In (0, ty) done ->
                       s <> v + 256 * ty) \/
                    (exists v ty, In v vecs /\ In (0, ty) done /\
                       s = v + 256 * ty /\ d_C st' s = V v)) /\
                 (bx = 0 -> In (0, 0) done -> d_C st' 0 = fone))
              (run_thread N d_A d_B blockDim_x fuel bx
                 (program 0 elementN vecs)) ts st)
    as (st' & E & done & Hdone & P3 & P4).
  - apply (NoDup_threads blockDim_x blockDim_y ts Hts).
  - split.
    + intros s _. left. split; [reflexivity|]. intros v ty _ [].
    + intros _ [].
  - intros done [tx ty] s0 Ht Hnd Hincl (P3 & P4). cbn [fst snd].
    apply Hth in Ht. destruct Ht as [Hx Hy].
    destruct (thread_flat vecs tx ty s0 Hin Hx Hy) as (s1 & E & Hne & H0).
    exists s1. split; [exact E|].
    destruct (Z.eq_dec tx 0) as [Ex|Ex].
    + destruct (H0 Ex) as [Hs Hz]. subst tx. split.
      * intros s Hs0.
        destruct (Hs s ltac:(tauto)) as [[Q Qn]|(v & Qi & Qs & Qv)].
        -- rewrite Q.
           destruct (P3 s Hs0) as [[Q' Qn']|(v & ty' & Qi & Qd & Qs & Qv)].
           ++ left. split; [exact Q'|]. intros v ty' Hv [X|X].
              ** inversion X; subst. now apply Qn.
              ** now apply Qn'.
           ++ right. exists v, ty'. split; [exact Qi|].
              split; [now right|auto].
        -- right. exists v, ty. split; [exact Qi|]. split; [now left|auto].
      * intros Eb [X|X].
        -- inversion X; subst. now apply Hz.
        -- assert (Hty : ty <> 0) by (intros ->; contradiction).
           destruct (Hs 0 ltac:(tauto)) as [[Q Qn]|(v & Qi & Qs & Qv)].
           ++ rewrite Q. now apply P4.
           ++ specialize (Hin v Qi). lia.
    + rewrite (Hne Ex). split.
      * intros s Hs0.
        destruct (P3 s Hs0) as [[Q' Qn']|(v & ty' & Qi & Qd & Qs & Qv)].
        -- left. split; [exact Q'|]. intros v ty' Hv [X|X].
           ++ inversion X; lia.
           ++ now apply Qn'.
        -- right. exists v, ty'. split; [exact Qi|].
           split; [now right|auto].
      * intros Eb [X|X]; [inversion X; lia|now apply P4].
  - exists st'. split; [exact E|]. split.
    + intros s Hs0.
      destruct (P3 s Hs0) as [[Q Qn]|(v & ty & Qi & Qd & Qs & Qv)].
      * left. split; [exact Q|]. intros v Hv (ty & Hy & Hs).
        apply (Qn v ty Hv); [apply Hdone, Hth; lia|exact Hs].
      * right. exists v. split; [exact Qi|]. split; [|exact Qv].
        exists ty. split; [apply Hdone, Hth in Qd; lia|exact Qs].
    + intros Eb. apply P4; [exact Eb|]. apply Hdone, Hth. lia.
Qed.

End Flat.

(** ** One block, the grid *)

Lemma fold_option_inv {A S : Type} (P : list A -> S -> Prop)
    (F : A -> S -> option S) (l : list A) :
  (forall done a s, In a l -> P done s ->
     exists s', F a s = Some s' /\ P (done ++ [a]) s') ->
  forall (done : list A) (s : S),
    P done s ->
    exists s', fold_left (fun acc a => let* s := acc in F a s) l (Some s)
               = Some s' /\ P (done ++ l) s'.
Proof.
  induction l as [|a l IH]; intros HF done s HP; simpl.
  - exists s. now rewrite app_nil_r.
  - destruct (HF done a s (in_eq _ _) HP) as (s1 & E & HP1). rewrite E.
    destruct (IH (fun d b s0 Hb => HF d b s0 (in_cons _ _ _ Hb))
                 (done ++ [a]) s1 HP1) as (s' & E' & HP').
    exists s'. split; [exact E'|]. now rewrite <- app_assoc in HP'.
Qed.

(** The segments of a block, for every [ACCUM_N = 2^k]. *)
Lemma segments_spec (k : nat) (d_A d_B : mem)
    (vectorN elementN gridDim_x blockDim_x blockDim_y : Z) (fuel : nat)
    (order : nat -> list (Z * Z)) (bx : Z) (st : kstate) :
  2 ^ Z.of_nat k <= 2 ^ 30 ->
  0 < gridDim_x < 2 ^ 31 /\ vectorN + gridDim_x <= 2 ^ 31 ->
  0 < blockDim_x /\ 2 ^ Z.of_nat k + blockDim_x <= 2 ^ 31 ->
  0 < blockDim_y <= 3 ->
  (forall j, Permutation (order j) (block_threads blockDim_x blockDim_y)) ->
  vectorN <= Z.of_nat fuel /\ 2 ^ Z.of_nat k <= Z.of_nat fuel ->
  (forall vec, 0 <= vec < vectorN ->
     vec_ok (2 ^ Z.of_nat k) elementN fuel vec) ->
  0 <= bx < gridDim_x ->
  exists st',
    run_segments (2 ^ Z.of_nat k) d_A d_B blockDim_x fuel bx order 0
      (segments (program k elementN (stride_list bx vectorN gridDim_x))) st =
    Some st' /\
    (forall s, s <> 0 \/ bx <> 0 ->
       slot_state
         (slot_value k d_A d_B vectorN elementN gridDim_x blockDim_x)
         blockDim_y (d_C st) (d_C st')
         (stride_list bx vectorN gridDim_x) s) /\
    (bx = 0 -> d_C st' 0 = fone).
Proof.
  intros HN Hgrid Hbx Hby Horder Hfuel Hvec Hb. destruct k as [|m].
  - rewrite segments_last by apply program_0_no_barrier.
    cbn [run_segments].
    destruct (flat_segment d_A d_B vectorN elementN blockDim_x blockDim_y
                fuel (order 0%nat) bx ltac:(lia) Hbx Hby (Horder 0%nat)
                (proj2 Hfuel) Hvec (stride_list bx vectorN gridDim_x) st)
      as (st' & E & Hs & H0).
    { intros v Hv. apply in_stride_list in Hv; lia. }
    rewrite E. cbn [bind]. exists st'. split; [reflexivity|].
    split; [|exact H0]. intros s Hs0.
    eapply slot_state_impl; [|now apply Hs].
    intros vec x _ ->. now left.
  - now apply block_spec.
Qed.

Section EngineOrders.

Variable k : nat.
Local Abbreviation N := (2 ^ Z.of_nat k).
Variables d_A d_B : mem.
Variables vectorN elementN : Z.
Variables gridDim_x blockDim_x blockDim_y : Z.
Variable fuel : nat.
Variable order : Z -> nat -> list (Z * Z).

Hypothesis HN : N <= 2 ^ 30.
Hypothesis Hgrid : 0 < gridDim_x < 2 ^ 31 /\ vectorN + gridDim_x <= 2 ^ 31.
Hypothesis Hbx : 0 < blockDim_x /\ N + blockDim_x <= 2 ^ 31.
Hypothesis Hby : 0 < blockDim_y <= 3.
Hypothesis Horder :
  forall b j, Permutation (order b j) (block_threads blockDim_x blockDim_y).
Hypothesis Hfuel : vectorN <= Z.of_nat fuel /\ N <= Z.of_nat fuel.
Hypothesis Hvec : forall vec, 0 <= vec < vectorN -> vec_ok N elementN fuel vec.

Local Abbreviation R :=
  (slot_value k d_A d_B vectorN elementN gridDim_x blockDim_x).

(** Lines 50-85: the slots after block [blockIdx_x]. *)
Lemma run_block_orders_spec (shared : mem) (blockIdx_x : Z) (C : mem) :
  0 <= blockIdx_x < gridDim_x ->
  exists C',
    run_block_orders N d_A d_B vectorN elementN gridDim_x blockDim_x fuel
      (order blockIdx_x) shared blockIdx_x C = Some C' /\
    (forall s, s <> 0 \/ blockIdx_x <> 0 ->
       slot_state R blockDim_y C C'
         (stride_list blockIdx_x vectorN gridDim_x) s) /\
    (blockIdx_x = 0 -> C' 0 = fone).
Proof using HN Hgrid Hbx Hby Horder Hfuel Hvec.
  intros Hb. unfold run_block_orders.
  rewrite block_items_eq by lia. cbn [bind].
  destruct (segments_spec k d_A d_B vectorN elementN gridDim_x blockDim_x
              blockDim_y fuel (order blockIdx_x) blockIdx_x (mkK shared C)
              HN Hgrid Hbx Hby (Horder blockIdx_x) Hfuel Hvec Hb)
    as (st' & E & Hs & H0).
  rewrite E. cbn [bind]. exists (d_C st'). split; [reflexivity|].
  split; [exact Hs|exact H0].
Qed.

Variable bs : list Z.
Hypothesis Hbs : Permutation bs (seqZ gridDim_x).

Lemma in_blocks (b : Z) : In b bs <-> 0 <= b < gridDim_x.
Proof using Hbs.
  rewrite <- in_seqZ. split; apply Permutation_in;
    [exact Hbs|exact (Permutation_sym Hbs)].
Qed.

(** Every vector is processed by a block of the grid. *)
Lemma in_vecs_of (vec : Z) :
  In vec (vecs_of vectorN gridDim_x bs) <-> 0 <= vec < vectorN.
Proof using Hgrid Hbs.
  clear HN Hbx Hby Horder Hfuel Hvec. unfold vecs_of. rewrite in_flat_map.
  destruct Hgrid as [[Hg _] _]. split.
  - intros (b & Hb & Hin). apply in_blocks in Hb.
    apply in_stride_list in Hin; lia.
  - intros Hv. exists (vec mod gridDim_x).
    pose proof (Z.mod_pos_bound vec gridDim_x Hg).
    split; [apply in_blocks; lia|].
    apply in_stride_own; lia.
Qed.

(** The kernel: it returns, slot 0 holds the sentinel, and every other
    slot is as its writers leave it. *)
Theorem scalarProdGPU_orders_spec (shared : Z -> mem) (C : mem) :
  exists C',
    scalarProdGPU_orders N d_A d_B vectorN elementN gridDim_x blockDim_x
      fuel bs order shared C = Some C' /\
    C' 0 = fone /\
    forall s, s <> 0 ->
      slot_state R blockDim_y C C' (vecs_of vectorN gridDim_x bs) s.
Proof using HN Hgrid Hbx Hby Horder Hfuel Hvec Hbs.
  unfold scalarProdGPU_orders.
  destruct (fold_option_inv
              (fun done C' =>
                 (forall s, s <> 0 ->
                    slot_state R blockDim_y C C'
                      (vecs_of vectorN gridDim_x done) s) /\
                 ((C' 0 = C 0 /\ ~ In 0 done) \/
                  (C' 0 = fone /\ In 0 done)))
              (fun b C' =>
                 run_block_orders N d_A d_B vectorN elementN gridDim_x
                   blockDim_x fuel (order b) (shared b) b C')
              bs) with (done := @nil Z) (s := C) as (C' & E & HP & H0).
  - intros done b C1 Hb [HP H0]. apply in_blocks in Hb.
    destruct (run_block_orders_spec (shared b) b C1 Hb)
      as (C2 & E & Hs & Hz).
    exists C2. split; [exact E|]. split.
    + intros s Hs0. unfold vecs_of. rewrite flat_map_app. simpl flat_map.
      rewrite app_nil_r.
      apply slot_state_app with (C1 := C1); [now apply HP|].
      apply Hs. now left.
    + destruct (Z.eq_dec b 0) as [->|Hb0].
      * right. split; [now apply Hz|]. apply in_or_app. right. now left.
      * assert (E0 : C2 0 = C1 0).
        { destruct (Hs 0 (or_intror Hb0))
            as [[E0 _]|(vec & Hin & (ty & Hy & Hs0) & _)]; [exact E0|].
          apply in_stride_list in Hin; lia. }
        destruct H0 as [[H0 Hn]|[H0 Hi]].
        -- left. split; [congruence|]. intros Hin.
           apply in_app_or in Hin as [Hin|[Hin|[]]]; auto.
        -- right. split; [congruence|]. apply in_or_app. now left.
  - split; [intros s _; apply slot_state_nil|]. left. auto.
  - simpl app in *. exists C'. split; [exact E|]. split; [|exact HP].
    destruct H0 as [[_ Hn]|[H0 _]]; [|exact H0].
    exfalso. apply Hn. apply in_blocks. lia.
Qed.

End EngineOrders.

(** The same for one order of the threads in all the segments. *)
Section Engine.

Variable k : nat.
Local Abbreviation N := (2 ^ Z.of_nat k).
Variables d_A d_B : mem.
Variables vectorN elementN : Z.
Variables gridDim_x blockDim_x blockDim_y : Z.
Variable fuel : nat.
Variable ts : list (Z * Z).

Hypothesis HN : N <= 2 ^ 30.
Hypothesis Hgrid : 0 < gridDim_x < 2 ^ 31 /\ vectorN + gridDim_x <= 2 ^ 31.
Hypothesis Hbx : 0 < blockDim_x /\ N + blockDim_x <= 2 ^ 31.
Hypothesis Hby : 0 < blockDim_y <= 3.
Hypothesis Hts : Permutation ts (block_threads blockDim_x blockDim_y).
Hypothesis Hfuel : vectorN <= Z.of_nat fuel /\ N <= Z.of_nat fuel.
Hypothesis Hvec : forall vec, 0 <= vec < vectorN -> vec_ok N elementN fuel vec.

Local Abbreviation R :=
  (slot_value k d_A d_B vectorN elementN gridDim_x blockDim_x).

Lemma run_block_spec (shared : mem) (blockIdx_x : Z) (C : mem) :
  0 <= blockIdx_x < gridDim_x ->
  exists C',
    run_block N d_A d_B vectorN elementN gridDim_x blockDim_x fuel ts
      shared blockIdx_x C = Some C' /\
    (forall s, s <> 0 \/ blockIdx_x <> 0 ->
       slot_state R blockDim_y C C'
         (stride_list blockIdx_x vectorN gridDim_x) s) /\
    (blockIdx_x = 0 -> C' 0 = fone).
Proof using HN Hgrid Hbx Hby Hts Hfuel Hvec.
  exact (run_block_orders_spec k d_A d_B vectorN elementN gridDim_x
           blockDim_x blockDim_y fuel (fun _ _ => ts) HN Hgrid Hbx Hby
           (fun _ _ => Hts) Hfuel Hvec shared blockIdx_x C).
Qed.

Variable bs : list Z.
Hypothesis Hbs : Permutation bs (seqZ gridDim_x).

Theorem scalarProdGPU_spec (shared : Z -> mem) (C : mem) :
  exists C',
    scalarProdGPU N d_A d_B vectorN elementN gridDim_x blockDim_x fuel
      bs ts shared C = Some C' /\
    C' 0 = fone /\
    forall s, s <> 0 ->
      slot_state R blockDim_y C C' (vecs_of vectorN gridDim_x bs) s.
Proof using HN Hgrid Hbx Hby Hts Hfuel Hvec Hbs.
  exact (scalarProdGPU_orders_spec k d_A d_B vectorN elementN gridDim_x
           blockDim_x blockDim_y fuel (fun _ _ => ts) HN Hgrid Hbx Hby
           (fun _ _ => Hts) Hfuel Hvec bs Hbs shared C).
Qed.

End Engine.

(** ** The kernel against the sequential reference *)

Lemma sorted_unique (l1 l2 : list Z) :
  StronglySorted Z.lt l1 -> StronglySorted Z.lt l2 ->
  (forall x, In x l1 <-> In x l2) -> l1 = l2.
Proof.
  intros H1. revert l2.
  induction H1 as [|a l1 H1 IH Ha]; intros l2 H2 Hin.
  - destruct l2 as [|b l2]; [reflexivity|].
    destruct (proj2 (Hin b) (in_eq _ _)).
  - destruct H2 as [|b l2 H2 Hb].
    + destruct (proj1 (Hin a) (in_eq _ _)).
    + rewrite Forall_forall in Ha, Hb.
      assert (a = b).
      { destruct (proj1 (Hin a) (in_eq _ _)) as [E|Hal2]; [now symmetry|].
        destruct (proj2 (Hin b) (in_eq _ _)) as [E|Hbl1]; [exact E|].
        specialize (Ha b Hbl1). specialize (Hb a Hal2). lia. }
      subst b. f_equal. apply IH; [exact H2|].
      intros x. split; intros Hx.
      * destruct (proj1 (Hin x) (in_cons _ _ _ Hx)) as [E|H]; [|exact H].
        specialize (Ha x Hx). lia.
      * destruct (proj2 (Hin x) (in_cons _ _ _ Hx)) as [E|H]; [|exact H].
        specialize (Hb x Hx). lia.
Qed.

Lemma sorted_filter (f : Z -> bool) (l : list Z) :
  StronglySorted Z.lt l -> StronglySorted Z.lt (filter f l).
Proof.
  induction 1 as [|a l H IH Ha]; simpl; [constructor|].
  destruct (f a); [|exact IH]. constructor; [exact IH|].
  rewrite Forall_forall in *. intros x Hx. apply filter_In in Hx. now apply Ha.
Qed.

Lemma sorted_seqZ (n : Z) : StronglySorted Z.lt (seqZ n).
Proof.
  unfold seqZ. generalize (Z.to_nat n) as m. intros m.
  generalize 0%nat as a. induction m as [|m IH]; intros a; simpl.
  - constructor.
  - constructor; [apply IH|]. rewrite Forall_forall. intros x Hx.
    apply in_map_iff in Hx as (y & <- & Hy). apply in_seq in Hy. lia.
Qed.

Lemma sorted_stride_list (i limit step : Z) :
  0 < step -> StronglySorted Z.lt (stride_list i limit step).
Proof.
  intros Hs. unfold stride_list. generalize (Z.to_nat (limit - i)) as n.
  intros n. revert i. induction n as [|n IH]; intros i; simpl.
  - constructor.
  - destruct (i <? limit); constructor; [apply IH|].
    rewrite Forall_forall. intros x Hx. apply strides_ge in Hx; lia.
Qed.

(** The positions of a lane in the reference are those the loop visits. *)
Lemma ref_positions_strides (accumN elementN lane : Z) :
  0 <= lane < accumN ->
  ref_positions accumN elementN lane = stride_list lane elementN accumN.
Proof.
  intros Hl. apply sorted_unique.
  - apply sorted_filter, sorted_seqZ.
  - apply sorted_stride_list. lia.
  - intros x. unfold ref_positions.
    rewrite filter_In, in_seqZ, in_stride_list, Z.eqb_eq by lia. split.
    + intros [Hx Hm]. subst lane.
      pose proof (Z.mod_le x accumN ltac:(lia) ltac:(lia)).
      split; [lia|].
      rewrite Zminus_mod, Z.mod_mod, Z.sub_diag by lia. reflexivity.
    + intros [Hx Hm]. split; [lia|].
      apply Z.mod_divide in Hm; [|lia]. destruct Hm as [q Hq].
      replace x with (lane + q * accumN) by lia.
      rewrite Z_mod_plus_full. apply Z.mod_small. lia.
Qed.

Lemma lane_value_ref (accumN : Z) (A B : mem) (elementN v lane : Z) :
  0 <= lane < accumN ->
  lane_value accumN A B (elementN * v) (elementN * v + elementN) lane =
  ref_lane_sum accumN A B elementN v lane.
Proof.
  intros Hl. unfold lane_value, lane_fold, ref_lane_sum.
  rewrite ref_positions_strides by exact Hl.
  rewrite stride_list_shift by lia. rewrite fold_left_map.
  apply fold_left_ext. intros s x _.
  now replace (elementN * v + x) with (v * elementN + x) by ring.
Qed.

Lemma nth_map_seqZ {A : Type} (g : Z -> A) (n i : Z) (d : A) :
  0 <= i < n -> nth (Z.to_nat i) (map g (seqZ n)) d = g i.
Proof.
  intros Hi. unfold seqZ. rewrite map_map.
  rewrite nth_indep with (d' := g (Z.of_nat 0%nat))
    by (rewrite length_map, length_seq; lia).
  rewrite (map_nth (fun x => g (Z.of_nat x))), seq_nth by lia.
  f_equal. lia.
Qed.

(** The tree of the reference on a list is the tree of the kernel on the
    cache. *)
Lemma ref_tree_tree_fun (m : nat) :
  forall (l : list float) (f : Z -> float),
    (forall i, 0 <= i < 2 ^ Z.of_nat m -> nth (Z.to_nat i) l fzero = f i) ->
    hd fzero (ref_tree m (2 ^ Z.of_nat m / 2) l) = tree_fun m f.
Proof.
  induction m as [|m IH]; intros l f H.
  - simpl. rewrite <- (H 0) by (simpl; lia). now destruct l.
  - assert (Hpow : 2 ^ Z.of_nat (S m) = 2 * 2 ^ Z.of_nat m)
      by (rewrite Nat2Z.inj_succ, Z.pow_succ_r; lia).
    assert (Hpos : 0 < 2 ^ Z.of_nat m) by (apply Z.pow_pos_nonneg; lia).
    assert (Hhalf : 2 ^ Z.of_nat (S m) / 2 = 2 ^ Z.of_nat m).
    { rewrite Hpow, Z.mul_comm. apply Z.div_mul. lia. }
    cbn [ref_tree tree_fun]. rewrite Hhalf. apply IH.
    intros i Hi. unfold ref_round.
    rewrite nth_map_seqZ by exact Hi. rewrite !H by lia. reflexivity.
Qed.

(** Inside the 24-bit range of [IMUL], the value of the kernel for vector
    [v] is the reference dot product. *)
Lemma vec_value_ref_dot (k : nat) (A B : mem) (elementN v : Z) :
  0 < elementN < 2 ^ 23 -> 0 <= v < 2 ^ 23 ->
  elementN * (v + 1) < 2 ^ 31 ->
  vec_value k A B elementN v = ref_dot (2 ^ Z.of_nat k) A B elementN v.
Proof.
  intros He Hv Hprod. unfold vec_value, ref_dot.
  assert (H0 : 0 <= elementN * v) by nia.
  assert (H1 : elementN * (v + 1) = elementN * v + elementN) by ring.
  rewrite IMUL_exact by lia. rewrite wrap32_id by lia.
  rewrite Z.log2_pow2, Nat2Z.id by lia.
  symmetry. apply ref_tree_tree_fun. intros i Hi.
  rewrite nth_map_seqZ by exact Hi.
  symmetry. apply lane_value_ref. exact Hi.
Qed.

(** ** The output of a launch *)

Lemma slot_state_none (R : Z -> float -> Prop) (bdy : Z) (C C' : mem)
    (l : list Z) (s : Z) :
  slot_state R bdy C C' l s ->
  (forall vec, In vec l -> ~ writes_slot bdy vec s) ->
  C' s = C s.
Proof.
  intros [[E _]|(vec & Hin & W & _)] Hn; [exact E|].
  now destruct (Hn vec Hin).
Qed.

Lemma slot_state_one (R : Z -> float -> Prop) (bdy : Z) (C C' : mem)
    (l : list Z) (s v : Z) :
  slot_state R bdy C C' l s ->
  In v l -> writes_slot bdy v s ->
  (forall vec, In vec l -> writes_slot bdy vec s -> vec = v) ->
  R v (C' s).
Proof.
  intros [[_ Hn]|(vec & Hvec & W & HR)] Hin Wv Hu.
  - now destruct (Hn v Hin).
  - now rewrite <- (Hu vec Hvec W).
Qed.

(** Without the race on accumulator 1 a slot holds the value of its
    vector: one thread per row, or no next vector in the block. *)
Lemma slot_value_exact (k : nat) (d_A d_B : mem)
    (vectorN elementN gridDim_x blockDim_x vec : Z) (x : float) :
  slot_value k d_A d_B vectorN elementN gridDim_x blockDim_x vec x ->
  blockDim_x = 1 \/ vectorN <= vec + gridDim_x ->
  x = vec_value k d_A d_B elementN vec.
Proof.
  intros [H|(_ & Hb & Hn & _)] Hfree; [exact H|lia].
Qed.

Lemma vec_ok_small (ACCUM_N elementN : Z) (fuel : nat) (vec : Z) :
  0 <= elementN < 2 ^ 23 -> 0 <= vec < 2 ^ 23 ->
  elementN * (vec + 1) + ACCUM_N <= 2 ^ 31 -> 0 < ACCUM_N ->
  elementN <= Z.of_nat fuel ->
  vec_ok ACCUM_N elementN fuel vec.
Proof.
  intros He Hv Hp Ha Hf. unfold vec_ok.
  assert (H0 : 0 <= elementN * vec) by nia.
  assert (H1 : elementN * (vec + 1) = elementN * vec + elementN) by ring.
  rewrite IMUL_exact by lia. rewrite wrap32_id by lia. lia.
Qed.

Section Launch.

Variable k : nat.
Variables d_A d_B : mem.
Variables vectorN elementN : Z.
Variables gridDim_x blockDim_x blockDim_y : Z.
Variable fuel : nat.
Variable bs : list Z.
Variable ts : list (Z * Z).
Variable shared : Z -> mem.
Variables C C' : mem.

Hypothesis Hok :
  engine_ok k vectorN elementN gridDim_x blockDim_x blockDim_y fuel bs ts.

Local Abbreviation run :=
  (scalarProdGPU (2 ^ Z.of_nat k) d_A d_B vectorN elementN gridDim_x
     blockDim_x fuel bs ts shared C).

Lemma engine_total : exists C0, run = Some C0.
Proof using Hok.
  destruct Hok.
  destruct (scalarProdGPU_spec k d_A d_B vectorN elementN gridDim_x
              blockDim_x blockDim_y fuel ts ok_accum0 ok_grid0 ok_block_x0
              ok_block_y0 ok_threads0 ok_fuel0 ok_vec0 bs ok_blocks0
              shared C) as (C0 & E & _).
  now exists C0.
Qed.

Hypothesis Hrun : run = Some C'.

Lemma engine_slot_state :
  C' 0 = fone /\
  forall s, s <> 0 ->
    slot_state
      (slot_value k d_A d_B vectorN elementN gridDim_x blockDim_x)
      blockDim_y C C' (vecs_of vectorN gridDim_x bs) s.
Proof using Hok Hrun.
  destruct Hok.
  destruct (scalarProdGPU_spec k d_A d_B vectorN elementN gridDim_x
              blockDim_x blockDim_y fuel ts ok_accum0 ok_grid0 ok_block_x0
              ok_block_y0 ok_threads0 ok_fuel0 ok_vec0 bs ok_blocks0
              shared C) as (C0 & E & H0 & Hs).
  rewrite Hrun in E. inversion E; subst C0. auto.
Qed.

Lemma engine_vecs (vec : Z) :
  In vec (vecs_of vectorN gridDim_x bs) <-> 0 <= vec < vectorN.
Proof using Hok.
  destruct Hok. now apply (in_vecs_of vectorN gridDim_x).
Qed.

(** A slot that no vector is written to keeps its value. *)
Lemma engine_slot_unwritten (s : Z) :
  s <> 0 ->
  (forall vec, 0 <= vec < vectorN -> ~ writes_slot blockDim_y vec s) ->
  C' s = C s.
Proof using Hok Hrun.
  intros Hs Hn. destruct engine_slot_state as [_ H].
  apply (slot_state_none _ _ _ _ _ _ (H s Hs)).
  intros vec Hin. apply Hn. now apply engine_vecs.
Qed.

(** A slot that one vector is written to holds a value of that vector. *)
Lemma engine_slot_written (s v : Z) :
  s <> 0 -> 0 <= v < vectorN -> writes_slot blockDim_y v s ->
  (forall vec, 0 <= vec < vectorN -> writes_slot blockDim_y vec s ->
     vec = v) ->
  slot_value k d_A d_B vectorN elementN gridDim_x blockDim_x v (C' s).
Proof using Hok Hrun.
  intros Hs Hv W Hu. destruct engine_slot_state as [_ H].
  apply (slot_state_one _ _ _ _ _ _ _ (H s Hs)).
  - now apply engine_vecs.
  - exact W.
  - intros vec Hin. apply Hu. now apply engine_vecs.
Qed.

(** The same without the race on accumulator 1. *)
Lemma engine_slot_exact (s v : Z) :
  s <> 0 -> 0 <= v < vectorN -> writes_slot blockDim_y v s ->
  (forall vec, 0 <= vec < vectorN -> writes_slot blockDim_y vec s ->
     vec = v) ->
  blockDim_x = 1 \/ vectorN <= v + gridDim_x ->
  C' s = vec_value k d_A d_B elementN v.
Proof using Hok Hrun.
  intros Hs Hv W Hu Hfree.
  exact (slot_value_exact _ _ _ _ _ _ _ _ _
           (engine_slot_written s v Hs Hv W Hu) Hfree).
Qed.

End Launch.

(** The kernel under one order of the threads is the kernel whose orders
    do not change. *)
Lemma scalarProdGPU_one_order (ACCUM_N : Z) (d_A d_B : mem)
    (vectorN elementN gridDim_x blockDim_x : Z) (fuel : nat)
    (bs : list Z) (ts : list (Z * Z)) (shared : Z -> mem) (C : mem) :
  scalarProdGPU ACCUM_N d_A d_B vectorN elementN gridDim_x blockDim_x fuel
    bs ts shared C =
  scalarProdGPU_orders ACCUM_N d_A d_B vectorN elementN gridDim_x blockDim_x
    fuel bs (fun _ _ => ts) shared C.
Proof.
  reflexivity.
Qed.

(** The same when the order of the threads changes at every barrier. *)
Section LaunchOrders.

Variable k : nat.
Variables d_A d_B : mem.
Variables vectorN elementN : Z.
Variables gridDim_x blockDim_x blockDim_y : Z.
Variable fuel : nat.
Variable bs : list Z.
Variable order : Z -> nat -> list (Z * Z).
Variable shared : Z -> mem.
Variables C C' : mem.

Hypothesis Hok :
  engine_ok_orders k vectorN elementN gridDim_x blockDim_x blockDim_y fuel
    bs order.

Local Abbreviation run :=
  (scalarProdGPU_orders (2 ^ Z.of_nat k) d_A d_B vectorN elementN gridDim_x
     blockDim_x fuel bs order shared C).

Lemma orders_spec :
  exists C0,
    run = Some C0 /\
    C0 0 = fone /\
    forall s, s <> 0 ->
      slot_state
        (slot_value k d_A d_B vectorN elementN gridDim_x blockDim_x)
        blockDim_y C C0 (vecs_of vectorN gridDim_x bs) s.
Proof using Hok.
  destruct (Hok 0 0%nat).
  apply (scalarProdGPU_orders_spec k d_A d_B vectorN elementN gridDim_x
           blockDim_x blockDim_y fuel order); try assumption.
  intros b j. now destruct (Hok b j).
Qed.

Lemma orders_total : exists C0, run = Some C0.
Proof using Hok.
  destruct orders_spec as (C0 & E & _). now exists C0.
Qed.

Hypothesis Hrun : run = Some C'.

Lemma orders_slot_state :
  C' 0 = fone /\
  forall s, s <> 0 ->
    slot_state
      (slot_value k d_A d_B vectorN elementN gridDim_x blockDim_x)
      blockDim_y C C' (vecs_of vectorN gridDim_x bs) s.
Proof using Hok Hrun.
  destruct orders_spec as (C0 & E & H).
  rewrite Hrun in E. inversion E; subst C0. exact H.
Qed.

Lemma orders_vecs (vec : Z) :
  In vec (vecs_of vectorN gridDim_x bs) <-> 0 <= vec < vectorN.
Proof using Hok.
  destruct (Hok 0 0%nat). now apply (in_vecs_of vectorN gridDim_x).
Qed.

(** A slot that no vector is written to keeps its value. *)
Lemma orders_slot_unwritten (s : Z) :
  s <> 0 ->
  (forall vec, 0 <= vec < vectorN -> ~ writes_slot blockDim_y vec s) ->
  C' s = C s.
Proof using Hok Hrun.
  intros Hs Hn. destruct orders_slot_state as [_ H].
  apply (slot_state_none _ _ _ _ _ _ (H s Hs)).
  intros vec Hin. apply Hn. now apply orders_vecs.
Qed.

(** A slot that one vector is written to holds a value of that vector. *)
Lemma orders_slot_written (s v : Z) :
  s <> 0 -> 0 <= v < vectorN -> writes_slot blockDim_y v s ->
  (forall vec, 0 <= vec < vectorN -> writes_slot blockDim_y vec s ->
     vec = v) ->
  slot_value k d_A d_B vectorN elementN gridDim_x blockDim_x v (C' s).
Proof using Hok Hrun.
  intros Hs Hv W Hu. destruct orders_slot_state as [_ H].
  apply (slot_state_one _ _ _ _ _ _ _ (H s Hs)).
  - now apply orders_vecs.
  - exact W.
  - intros vec Hin. apply Hu. now apply orders_vecs.
Qed.

(** The same without the race on accumulator 1. *)
Lemma orders_slot_exact (s v : Z) :
  s <> 0 -> 0 <= v < vectorN -> writes_slot blockDim_y v s ->
  (forall vec, 0 <= vec < vectorN -> writes_slot blockDim_y vec s ->
     vec = v) ->
  blockDim_x = 1 \/ vectorN <= v + gridDim_x ->
  C' s = vec_value k d_A d_B elementN v.
Proof using Hok Hrun.
  intros Hs Hv W Hu Hfree.
  exact (slot_value_exact _ _ _ _ _ _ _ _ _
           (orders_slot_written s v Hs Hv W Hu) Hfree).
Qed.

End LaunchOrders.

(** ** C9: an empty batch *)

(** Without vectors a block runs the sentinel line only. *)
Lemma run_block_empty (ACCUM_N : Z) (d_A d_B : mem)
    (vectorN elementN gridDim_x blockDim_x : Z) (fuel : nat)
    (ts : list (Z * Z)) (shared : mem) (blockIdx_x : Z) (C : mem) :
  vectorN <= 0 -> 0 <= blockIdx_x < 2 ^ 31 -> In (0, 0) ts ->
  exists C',
    run_block ACCUM_N d_A d_B vectorN elementN gridDim_x blockDim_x fuel ts
      shared blockIdx_x C = Some C' /\
    (forall s, s <> 0 \/ blockIdx_x <> 0 -> C' s = C s) /\
    (blockIdx_x = 0 -> C' 0 = fone).
Proof.
  intros Hn Hb Hin. unfold run_block, run_block_orders.
  rewrite block_items_empty by lia. cbn [bind segments run_segments].
  destruct (sentinel_segment ACCUM_N d_A d_B blockDim_x fuel ts blockIdx_x
              (mkK shared C)) as (st' & E & Hfr & H0).
  rewrite E. cbn [bind]. exists (d_C st'). split; [reflexivity|].
  split; [exact Hfr|auto].
Qed.

(** C9. For every non-positive [vectorN] the kernel returns, [C[0]] is the
    sentinel 1 and every other slot of [C] keeps its value: no slot is
    written for a vector. *)
Theorem engine_empty_batch (ACCUM_N : Z) (d_A d_B : mem)
    (vectorN elementN gridDim_x blockDim_x blockDim_y : Z) (fuel : nat)
    (bs : list Z) (ts : list (Z * Z)) (shared : Z -> mem) (C : mem) :
  vectorN <= 0 ->
  0 < gridDim_x < 2 ^ 31 -> 0 < blockDim_x -> 0 < blockDim_y ->
  Permutation bs (seqZ gridDim_x) ->
  Permutation ts (block_threads blockDim_x blockDim_y) ->
  exists C',
    scalarProdGPU ACCUM_N d_A d_B vectorN elementN gridDim_x blockDim_x fuel
      bs ts shared C = Some C' /\
    C' 0 = fone /\
    forall s, s <> 0 -> C' s = C s.
Proof.
  intros Hn Hg Hbx Hby Hbs Hts. unfold scalarProdGPU.
  assert (Hin : In (0, 0) ts).
  { apply (Permutation_in _ (Permutation_sym Hts)), in_block_threads. lia. }
  destruct (fold_option_inv
              (fun done C' =>
                 (forall s, s <> 0 -> C' s = C s) /\
                 ((C' 0 = C 0 /\ ~ In 0 done) \/ (C' 0 = fone /\ In 0 done)))
              (fun b C' =>
                 run_block ACCUM_N d_A d_B vectorN elementN gridDim_x
                   blockDim_x fuel ts (shared b) b C')
              bs) with (done := @nil Z) (s := C) as (C' & E & HP & H0).
  - intros done b C1 Hb [HP H0].
    apply (Permutation_in _ Hbs), in_seqZ in Hb.
    destruct (run_block_empty ACCUM_N d_A d_B vectorN elementN gridDim_x
                blockDim_x fuel ts (shared b) b C1)
      as (C2 & E & Hfr & Hz); [lia|lia|exact Hin|].
    exists C2. split; [exact E|]. split.
    + intros s Hs. rewrite Hfr by now left. now apply HP.
    + destruct (Z.eq_dec b 0) as [->|Hb0].
      * right. split; [now apply Hz|]. apply in_or_app. right. now left.
      * rewrite Hfr by now right. destruct H0 as [[H0 Hn0]|[H0 Hi]].
        -- left. split; [exact H0|]. intros Hi.
           apply in_app_or in Hi as [Hi|[Hi|[]]]; auto.
        -- right. split; [exact H0|]. apply in_or_app. now left.
  - split; [reflexivity|]. left. auto.
  - simpl app in *. exists C'. split; [exact E|]. split; [|exact HP].
    destruct H0 as [[_ Hn0]|[H0 _]]; [|exact H0].
    exfalso. apply Hn0. apply (Permutation_in _ (Permutation_sym Hbs)).
    apply in_seqZ. lia.
Qed.

Lemma engine_empty_batch_witness :
  exists C',
    scalarProdGPU ACCUM_N_default ones ones 0 4096 128 256 0
      bench_blocks bench_threads (fun _ => zeros) zeros = Some C' /\
    C' 0 = fone /\
    forall s, s <> 0 -> C' s = zeros s.
Proof.
  apply (engine_empty_batch ACCUM_N_default ones ones 0 4096 128 256 3 0
           bench_blocks bench_threads (fun _ => zeros) zeros).
  - lia.
  - lia.
  - lia.
  - lia.
  - apply Permutation_refl.
  - apply Permutation_refl.
Defined.

(** ** Example launches *)

Lemma bench_ok (fuel : nat) :
  4096 <= Z.of_nat fuel ->
  engine_ok 10 256 4096 128 256 3 fuel bench_blocks bench_threads.
Proof.
  intros Hf. constructor; change (2 ^ Z.of_nat 10) with 1024; try lia.
  - apply Permutation_refl.
  - apply Permutation_refl.
  - intros vec Hv. apply vec_ok_small; lia.
Qed.

(** Two vectors of one element, one block of three rows. *)
Lemma rows_ok : engine_ok 10 2 1 1 1 3 1024 [0] (block_threads 1 3).
Proof.
  constructor; change (2 ^ Z.of_nat 10) with 1024; try lia.
  - apply Permutation_refl.
  - apply Permutation_refl.
  - intros vec Hv. apply vec_ok_small; lia.
Qed.

(** 257 vectors of one element, three blocks of two rows, in two orders of
    the blocks. *)
Lemma overlap_ok (bs : list Z) :
  Permutation bs (seqZ 3) ->
  engine_ok 10 257 1 3 1 2 1024 bs (block_threads 1 2).
Proof.
  intros Hbs.
  constructor; change (2 ^ Z.of_nat 10) with 1024; try lia.
  - exact Hbs.
  - apply Permutation_refl.
  - intros vec Hv. apply vec_ok_small; lia.
Qed.

Lemma value_ones_1 : vec_value 10 ones ones 1 1 = fone.
Proof.
  vm_compute. reflexivity.
Qed.

Lemma value_unit_0 : vec_value 10 unit_at_0 ones 1 0 = fone.
Proof.
  vm_compute. reflexivity.
Qed.

Lemma value_unit_256 : vec_value 10 unit_at_0 ones 1 256 = fzero.
Proof.
  vm_compute. reflexivity.
Qed.

(** ** C5: the sentinel *)

(** C5. After a launch of the kernel, [C[0]] is 1 whatever the inputs and
    whatever the dot product of vector 0 is; the line that writes it is run
    by the thread (0, 0) of block 0 and by no other thread, and that thread
    is in the launch once. *)
Theorem engine_sentinel (k : nat) (d_A d_B : mem)
    (vectorN elementN gridDim_x blockDim_x blockDim_y : Z) (fuel : nat)
    (bs : list Z) (ts : list (Z * Z)) (shared : Z -> mem) (C : mem) :
  engine_ok k vectorN elementN gridDim_x blockDim_x blockDim_y fuel bs ts ->
  (exists C',
     scalarProdGPU (2 ^ Z.of_nat k) d_A d_B vectorN elementN gridDim_x
       blockDim_x fuel bs ts shared C = Some C' /\
     C' 0 = fone) /\
  (forall st, sentinel_phase 0 0 0 st = Some (set_C st 0 fone)) /\
  (forall b tx ty st, (b, tx, ty) <> (0, 0, 0) ->
     sentinel_phase b tx ty st = Some st) /\
  (In 0 bs /\ NoDup bs) /\ (In (0, 0) ts /\ NoDup ts).
Proof.
  intros Hok. split; [|split; [|split; [|split]]].
  - destruct (engine_total k d_A d_B vectorN elementN gridDim_x blockDim_x
                blockDim_y fuel bs ts shared C Hok) as (C' & E).
    exists C'. split; [exact E|].
    apply (engine_slot_state k d_A d_B vectorN elementN gridDim_x blockDim_x
             blockDim_y fuel bs ts shared C C' Hok E).
  - reflexivity.
  - intros b tx ty st Hne. unfold sentinel_phase.
    destruct (Z.eqb_spec tx 0), (Z.eqb_spec ty 0), (Z.eqb_spec b 0);
      simpl; try reflexivity. subst. congruence.
  - destruct Hok. split.
    + apply (Permutation_in _ (Permutation_sym ok_blocks0)), in_seqZ. lia.
    + apply (Permutation_NoDup (Permutation_sym ok_blocks0)), NoDup_seqZ.
  - destruct Hok. split.
    + apply (Permutation_in _ (Permutation_sym ok_threads0)).
      apply in_block_threads. lia.
    + apply (Permutation_NoDup (Permutation_sym ok_threads0)).
      apply NoDup_block_threads.
Qed.

Lemma engine_sentinel_witness :
  (exists C',
     scalarProdGPU (2 ^ Z.of_nat 10) ones ones 256 4096 128 256 4096%nat
       bench_blocks bench_threads (fun _ => zeros) zeros = Some C' /\
     C' 0 = fone) /\
  (forall st, sentinel_phase 0 0 0 st = Some (set_C st 0 fone)) /\
  (forall b tx ty st, (b, tx, ty) <> (0, 0, 0) ->
     sentinel_phase b tx ty st = Some st) /\
  (In 0 bench_blocks /\ NoDup bench_blocks) /\
  (In (0, 0) bench_threads /\ NoDup bench_threads).
Proof.
  apply (engine_sentinel 10 ones ones 256 4096 128 256 3 4096 bench_blocks
           bench_threads (fun _ => zeros) zeros).
  apply bench_ok. lia.
Defined.

(** ** C1: the dot product *)

(** Two vectors of [2^24] elements, one block of one thread for each:
    [IMUL(2^24, 1)] is 0, so both vectors are read at offsets 0 to
    [2^24 - 1]. *)
Lemma wide_ok : engine_ok 10 2 16777216 2 1 1 long_fuel [0; 1] [(0, 0)].
Proof.
  assert (Hf : Z.of_nat long_fuel = 16777217)
    by (unfold long_fuel; apply Z2Nat.id; lia).
  assert (E0 : IMUL 16777216 0 = 0) by reflexivity.
  assert (E1 : IMUL 16777216 1 = 0) by reflexivity.
  assert (Ew : wrap32 (0 + 16777216) = 16777216) by reflexivity.
  constructor; change (2 ^ Z.of_nat 10) with 1024; try lia.
  - apply Permutation_refl.
  - apply Permutation_refl.
  - intros vec Hv. unfold vec_ok.
    assert (Hvec : vec = 0 \/ vec = 1) by lia.
    destruct Hvec as [-> | ->]; rewrite ?E0, ?E1, Ew; lia.
Qed.

(** Products with [unit_at_0] away from offset 0 add nothing. *)
Lemma lane_fold_unit_rest (f : Z -> Z) (l : list Z) (x : float) :
  (forall p, In p l -> f p <> 0) ->
  x = fzero \/ x = fone ->
  fold_left (fun sum p => fadd sum (fmul (unit_at_0 (f p)) (ones (f p)))) l x
  = x.
Proof.
  intros Hl Hx. induction l as [|p l IH]; [reflexivity|].
  cbn [fold_left].
  assert (E : unit_at_0 (f p) = fzero).
  { unfold unit_at_0. destruct (Z.eqb_spec (f p) 0) as [E|E]; [|reflexivity].
    now destruct (Hl p (in_eq _ _)). }
  rewrite E.
  assert (Ex : fadd x (fmul fzero (ones (f p))) = x)
    by (destruct Hx as [-> | ->]; reflexivity).
  rewrite Ex. apply IH. intros q Hq. apply Hl. now right.
Qed.

(** The accumulators of a vector at offset 0 whose first element is the
    only one that is not zero. *)
Lemma lanes_unit (e i : Z) :
  0 < e -> 0 <= i < 1024 ->
  lane_value 1024 unit_at_0 ones 0 e i = unit_at_0 i.
Proof.
  intros He Hi. unfold lane_value, lane_fold.
  destruct (Z.eq_dec i 0) as [->|Hne].
  - rewrite (stride_list_cons (0 + 0) e 1024) by lia.
    cbn [fold_left].
    change (fadd fzero (fmul (unit_at_0 (0 + 0)) (ones (0 + 0)))) with fone.
    rewrite (lane_fold_unit_rest (fun p => p)); [reflexivity| |now right].
    intros p Hp. apply in_stride_list in Hp; lia.
  - rewrite (lane_fold_unit_rest (fun p => p)); [|  |now left].
    + unfold unit_at_0. destruct (Z.eqb_spec i 0); [contradiction|reflexivity].
    + intros p Hp. apply in_stride_list in Hp; lia.
Qed.

Lemma value_unit_at_0 (e : Z) :
  0 < e -> tree_fun 10 (lane_value 1024 unit_at_0 ones 0 e) = fone.
Proof.
  intros He.
  transitivity (tree_fun 10 unit_at_0); [|vm_compute; reflexivity].
  apply tree_fun_ext. intros i Hi. apply lanes_unit; [exact He|].
  change (2 ^ Z.of_nat 10) with 1024 in Hi. exact Hi.
Qed.

Lemma value_unit_wide : vec_value 10 unit_at_0 ones 16777216 1 = fone.
Proof.
  exact (value_unit_at_0 16777216 eq_refl).
Qed.

(** The reference on a vector of zeros. *)
Lemma ref_unit_zero (e v : Z) :
  0 < e -> 0 < v -> ref_dot ACCUM_N_default unit_at_0 ones e v = fzero.
Proof.
  intros He Hv. unfold ref_dot.
  rewrite (map_ext_in _ (fun _ => fzero)); [vm_compute; reflexivity|].
  intros lane _. unfold ref_lane_sum.
  apply (lane_fold_unit_rest (fun i => v * e + i)); [|now left].
  intros i Hi. unfold ref_positions in Hi. apply filter_In in Hi as [Hi _].
  apply in_seqZ in Hi. nia.
Qed.

Lemma ref_unit_wide :
  ref_dot ACCUM_N_default unit_at_0 ones 16777216 1 = fzero.
Proof.
  apply ref_unit_zero; reflexivity.
Qed.

(** The benchmark's launch with the order of the threads reversed at every
    other barrier. *)
Lemma bench_orders_perm (b : Z) (j : nat) :
  Permutation (bench_orders b j) (block_threads 256 3).
Proof.
  unfold bench_orders. destruct (Nat.even j).
  - apply Permutation_refl.
  - apply Permutation_sym, Permutation_rev.
Qed.

Lemma bench_orders_ok (fuel : nat) :
  4096 <= Z.of_nat fuel ->
  engine_ok_orders 10 256 4096 128 256 3 fuel bench_blocks bench_orders.
Proof.
  intros Hf b j. destruct (bench_ok fuel Hf).
  constructor; try assumption. apply bench_orders_perm.
Qed.

(** C1, for a launch [<<<gridDim_x, (blockDim_x, blockDim_y)>>>] of one to
    three rows with [ACCUM_N = 2^k] at most [2^30] whose loop counters stay
    inside [int] ([vectorN + gridDim_x], [ACCUM_N + blockDim_x] and
    [elementN * vectorN + ACCUM_N] at most [2^31]), with [elementN]
    positive and inside the 24-bit range of [IMUL] ([elementN < 2^23],
    [vectorN <= 2^23]), under every order of the blocks and every order of
    the threads between two barriers, with fuel for the loops: for every
    vector [v] with [0 < v < vectorN] whose slot is the slot of no other
    row ([v < 256], or one row) and whose last round is not raced by the
    next vector of its block (one thread per row, or [v] is the last
    vector of its block), the kernel returns and [C[v]] is the dot product
    of vector [v] summed in the strided-then-tree order of the sequential
    reference, bit for bit. *)
Theorem engine_dot_product (k : nat) (d_A d_B : mem)
    (vectorN elementN gridDim_x blockDim_x blockDim_y : Z) (fuel : nat)
    (bs : list Z) (order : Z -> nat -> list (Z * Z)) (shared : Z -> mem)
    (C : mem) (v : Z) :
  2 ^ Z.of_nat k <= 2 ^ 30 ->
  0 < gridDim_x -> 0 < blockDim_x -> 0 < blockDim_y <= 3 ->
  vectorN + gridDim_x <= 2 ^ 31 ->
  2 ^ Z.of_nat k + blockDim_x <= 2 ^ 31 ->
  elementN * vectorN + 2 ^ Z.of_nat k <= 2 ^ 31 ->
  0 < elementN < 2 ^ 23 -> vectorN <= 2 ^ 23 ->
  Permutation bs (seqZ gridDim_x) ->
  (forall b j,
     Permutation (order b j) (block_threads blockDim_x blockDim_y)) ->
  vectorN <= Z.of_nat fuel -> elementN <= Z.of_nat fuel ->
  2 ^ Z.of_nat k <= Z.of_nat fuel ->
  0 < v < vectorN ->
  v < 256 \/ blockDim_y = 1 ->
  blockDim_x = 1 \/ vectorN <= v + gridDim_x ->
  exists C',
    scalarProdGPU_orders (2 ^ Z.of_nat k) d_A d_B vectorN elementN gridDim_x
      blockDim_x fuel bs order shared C = Some C' /\
    C' v = ref_dot (2 ^ Z.of_nat k) d_A d_B elementN v.
Proof.
  intros Hk Hg Hbx Hby Hng Hnb Hne He Hn Hbs Hts Hf1 Hf2 Hf3 Hv Hrow Hfree.
  pose proof (pow2_pos k) as Hpos.
  assert (Hok : engine_ok_orders k vectorN elementN gridDim_x blockDim_x
                  blockDim_y fuel bs order).
  { intros b j. constructor; try assumption; try lia; [apply Hts|].
    intros vec Hvec. apply vec_ok_small; try lia. nia. }
  destruct (orders_total k d_A d_B vectorN elementN gridDim_x blockDim_x
              blockDim_y fuel bs order shared C Hok) as (C' & E).
  exists C'. split; [exact E|].
  rewrite <- vec_value_ref_dot by nia.
  apply (orders_slot_exact k d_A d_B vectorN elementN gridDim_x blockDim_x
           blockDim_y fuel bs order shared C C' Hok E); try lia.
  - exists 0. lia.
  - intros vec Hvec (ty & Hy & Hs). lia.
Qed.

Lemma engine_dot_product_witness :
  exists C',
    scalarProdGPU_orders (2 ^ Z.of_nat 10) ones ones 256 4096 128 256
      4096%nat bench_blocks bench_orders (fun _ => zeros) zeros = Some C' /\
    C' 200 = ref_dot (2 ^ Z.of_nat 10) ones ones 4096 200.
Proof.
  apply (engine_dot_product 10 ones ones 256 4096 128 256 3 4096 bench_blocks
           bench_orders (fun _ => zeros) zeros 200);
    change (2 ^ Z.of_nat 10) with 1024;
    first [ apply Permutation_refl | exact bench_orders_perm | lia
          | left; lia | right; lia ].
Defined.

(** C1 fails outside the 24-bit range of [IMUL]: with two vectors of
    [2^24] elements, [IMUL(2^24, 1)] is 0, and [C[1]] is the dot product
    of the elements at offsets 0 to [2^24 - 1], which are those of vector
    0, not of those at offsets [2^24] to [2^25 - 1].  Every offset that
    the launch reads is inside the arrays of [2 * 2^24] elements. *)
Lemma engine_dot_product_mul24 :
  IMUL 16777216 1 = 0 /\
  exists C',
    scalarProdGPU_orders ACCUM_N_default unit_at_0 ones 2 16777216 2 1
      long_fuel [0; 1] (fun _ _ => [(0, 0)]) (fun _ => zeros) zeros =
    Some C' /\
    C' 1 = fone /\
    ref_dot ACCUM_N_default unit_at_0 ones 16777216 1 = fzero /\
    C' 1 <> ref_dot ACCUM_N_default unit_at_0 ones 16777216 1.
Proof.
  split; [reflexivity|].
  change ACCUM_N_default with (2 ^ Z.of_nat 10).
  assert (Hok : engine_ok_orders 10 2 16777216 2 1 1 long_fuel [0; 1]
                  (fun _ _ => [(0, 0)])) by (intros b j; exact wide_ok).
  destruct (orders_total 10 unit_at_0 ones 2 16777216 2 1 1 long_fuel
              [0; 1] (fun _ _ => [(0, 0)]) (fun _ => zeros) zeros Hok)
    as (C' & E).
  exists C'. split; [exact E|].
  assert (H : C' 1 = fone).
  { rewrite <- value_unit_wide.
    apply (orders_slot_exact 10 unit_at_0 ones 2 16777216 2 1 1 long_fuel
             [0; 1] (fun _ _ => [(0, 0)]) (fun _ => zeros) zeros C' Hok E);
      try lia.
    - exists 0. lia.
    - intros vec Hvec (ty & Hy & Hs). lia. }
  split; [exact H|].
  change (2 ^ Z.of_nat 10) with ACCUM_N_default.
  split; [exact ref_unit_wide|].
  rewrite H, ref_unit_wide. discriminate.
Qed.

(** ** C6: the slots of the rows *)

(** X13. With at most 256 vectors, the result of row [r] for vector [v] is
    in slot [v + 256 * r] of the result buffer (slot 0 apart, which holds
    the sentinel), for every vector whose last round is not raced by the next
    vector of its block (one thread per row, or [v] is the last vector of
    its block): the rows are 256 slots apart, whatever [vectorN] is, and
    the slot is entry [v] of [copy r] in a buffer of three copies of [size]
    entries when [size = vectorN = 256]. *)
Theorem engine_replica_slots (k : nat) (d_A d_B : mem)
    (vectorN elementN gridDim_x blockDim_x blockDim_y : Z) (fuel : nat)
    (bs : list Z) (order : Z -> nat -> list (Z * Z)) (shared : Z -> mem)
    (C : mem) :
  engine_ok_orders k vectorN elementN gridDim_x blockDim_x blockDim_y fuel
    bs order ->
  vectorN <= 256 ->
  exists C',
    scalarProdGPU_orders (2 ^ Z.of_nat k) d_A d_B vectorN elementN gridDim_x
      blockDim_x fuel bs order shared C = Some C' /\
    forall r v, 0 <= r < blockDim_y -> 0 <= v < vectorN ->
      v <> 0 \/ r <> 0 ->
      blockDim_x = 1 \/ vectorN <= v + gridDim_x ->
      C' (v + 256 * r) = vec_value k d_A d_B elementN v /\
      (vectorN = 256 ->
       copy r vectorN C' v = vec_value k d_A d_B elementN v).
Proof.
  intros Hok Hn.
  destruct (orders_total k d_A d_B vectorN elementN gridDim_x blockDim_x
              blockDim_y fuel bs order shared C Hok) as (C' & E).
  exists C'. split; [exact E|]. intros r v Hr Hv Hnz Hfree.
  assert (H : C' (v + 256 * r) = vec_value k d_A d_B elementN v).
  { apply (orders_slot_exact k d_A d_B vectorN elementN gridDim_x
             blockDim_x blockDim_y fuel bs order shared C C' Hok E); try lia.
    - exists r. lia.
    - intros vec Hvec (ty & Hy & Hs). lia. }
  split; [exact H|]. intros E256. unfold copy. rewrite E256.
  now replace (v + r * 256) with (v + 256 * r) by ring.
Qed.

Lemma engine_replica_slots_witness :
  exists C',
    scalarProdGPU_orders (2 ^ Z.of_nat 10) ones ones 256 4096 128 256
      4096%nat bench_blocks bench_orders (fun _ => zeros) zeros = Some C' /\
    forall r v, 0 <= r < 3 -> 0 <= v < 256 -> v <> 0 \/ r <> 0 ->
      256 = 1 \/ 256 <= v + 128 ->
      C' (v + 256 * r) = vec_value 10 ones ones 4096 v /\
      (256 = 256 -> copy r 256 C' v = vec_value 10 ones ones 4096 v).
Proof.
  apply (engine_replica_slots 10 ones ones 256 4096 128 256 3 4096
           bench_blocks bench_orders (fun _ => zeros) zeros).
  - apply bench_orders_ok. lia.
  - lia.
Defined.

(** C6. The rows are written 256 slots apart, not [vectorN] slots apart:
    with two vectors and three rows, the result of row 1 for vector 1 is in
    slot 257, and slot [1 + 1 * vectorN = 3], which is [copy1[1]] for
    [size = vectorN], is never written. *)
Lemma engine_replica_slots_stride :
  exists C',
    scalarProdGPU ACCUM_N_default ones ones 2 1 1 1 1024%nat
      [0] (block_threads 1 3) (fun _ => zeros) zeros = Some C' /\
    vec_value 10 ones ones 1 1 = fone /\
    C' (1 + 256 * 1) = fone /\
    copy 1 2 C' 1 = fzero /\
    copy 1 2 C' 1 <> vec_value 10 ones ones 1 1.
Proof.
  change ACCUM_N_default with (2 ^ Z.of_nat 10).
  destruct (engine_total 10 ones ones 2 1 1 1 3 1024 [0] (block_threads 1 3)
              (fun _ => zeros) zeros rows_ok) as (C' & E).
  exists C'. split; [exact E|]. split; [exact value_ones_1|].
  assert (H257 : C' (1 + 256 * 1) = fone).
  { rewrite <- value_ones_1.
    apply (engine_slot_exact 10 ones ones 2 1 1 1 3 1024 [0]
             (block_threads 1 3) (fun _ => zeros) zeros C' rows_ok E);
      try lia.
    - exists 1. lia.
    - intros vec Hvec (ty & Hy & Hs). lia. }
  assert (H3 : copy 1 2 C' 1 = fzero).
  { unfold copy. change (1 + 1 * 2) with 3.
    apply (engine_slot_unwritten 10 ones ones 2 1 1 1 3 1024 [0]
             (block_threads 1 3) (fun _ => zeros) zeros C' rows_ok E);
      [lia|].
    intros vec Hvec (ty & Hy & Hs). lia. }
  split; [exact H257|]. split; [exact H3|].
  rewrite H3, value_ones_1. discriminate.
Qed.

(** ** C7: determinism *)

(** Two launches that differ in the numbers of blocks and of threads per
    row, in the orders of the blocks and of the threads, in the fuels and
    in the initial contents of the accumulator caches return the same
    array, when no two rows share a slot (at most 256 vectors, or one row)
    and no last round is raced by a next vector (one thread per row, or at
    most one vector per block). *)
Lemma engine_same_output (k : nat) (d_A d_B : mem)
    (vectorN elementN blockDim_y : Z) (C : mem)
    (gridDim_x1 blockDim_x1 gridDim_x2 blockDim_x2 : Z)
    (fuel1 fuel2 : nat) (bs1 bs2 : list Z)
    (order1 order2 : Z -> nat -> list (Z * Z))
    (shared1 shared2 : Z -> mem) :
  engine_ok_orders k vectorN elementN gridDim_x1 blockDim_x1 blockDim_y
    fuel1 bs1 order1 ->
  engine_ok_orders k vectorN elementN gridDim_x2 blockDim_x2 blockDim_y
    fuel2 bs2 order2 ->
  vectorN <= 256 \/ blockDim_y = 1 ->
  blockDim_x1 = 1 \/ vectorN <= gridDim_x1 ->
  blockDim_x2 = 1 \/ vectorN <= gridDim_x2 ->
  exists C1 C2,
    scalarProdGPU_orders (2 ^ Z.of_nat k) d_A d_B vectorN elementN
      gridDim_x1 blockDim_x1 fuel1 bs1 order1 shared1 C = Some C1 /\
    scalarProdGPU_orders (2 ^ Z.of_nat k) d_A d_B vectorN elementN
      gridDim_x2 blockDim_x2 fuel2 bs2 order2 shared2 C = Some C2 /\
    forall s, C1 s = C2 s.
Proof.
  intros Hok1 Hok2 Hrows Hfree1 Hfree2.
  destruct (orders_total k d_A d_B vectorN elementN gridDim_x1 blockDim_x1
              blockDim_y fuel1 bs1 order1 shared1 C Hok1) as (C1 & E1).
  destruct (orders_total k d_A d_B vectorN elementN gridDim_x2 blockDim_x2
              blockDim_y fuel2 bs2 order2 shared2 C Hok2) as (C2 & E2).
  exists C1, C2. split; [exact E1|]. split; [exact E2|]. intros s.
  destruct (orders_slot_state k d_A d_B vectorN elementN gridDim_x1
              blockDim_x1 blockDim_y fuel1 bs1 order1 shared1 C C1 Hok1 E1)
    as [Z1 S1].
  destruct (orders_slot_state k d_A d_B vectorN elementN gridDim_x2
              blockDim_x2 blockDim_y fuel2 bs2 order2 shared2 C C2 Hok2 E2)
    as [Z2 S2].
  destruct (Z.eq_dec s 0) as [->|Hs]; [congruence|].
  pose proof (orders_vecs k vectorN elementN gridDim_x1 blockDim_x1
                blockDim_y fuel1 bs1 order1 Hok1) as V1.
  pose proof (orders_vecs k vectorN elementN gridDim_x2 blockDim_x2
                blockDim_y fuel2 bs2 order2 Hok2) as V2.
  assert (Hby : 0 < blockDim_y <= 3) by now destruct (Hok1 0 0%nat).
  assert (Hu : forall va vb, 0 <= va < vectorN -> 0 <= vb < vectorN ->
                 writes_slot blockDim_y va s -> writes_slot blockDim_y vb s ->
                 va = vb).
  { intros va vb Ha Hb (ta & Hta & Ea) (tb & Htb & Eb). lia. }
  destruct (S1 s Hs) as [[Ea Na]|(va & Ia & Wa & Ra)];
    destruct (S2 s Hs) as [[Eb Nb]|(vb & Ib & Wb & Rb)].
  - congruence.
  - exfalso. apply (Na vb); [|exact Wb]. apply V1. now apply V2.
  - exfalso. apply (Nb va); [|exact Wa]. apply V2. now apply V1.
  - apply V1 in Ia. apply V2 in Ib.
    rewrite (slot_value_exact _ _ _ _ _ _ _ _ _ Ra) by lia.
    rewrite (slot_value_exact _ _ _ _ _ _ _ _ _ Rb) by lia.
    f_equal. now apply Hu.
Qed.

(** When no two rows share a slot (at most 256 vectors, or one row) and no
    last round is raced by a next vector (one thread per row, or at most
    one vector per block), two launches with the same inputs, [vectorN],
    [elementN], [ACCUM_N] and grid and block sizes return the same output
    array, slot for slot, whatever the orders of the blocks and of the
    threads, the fuels and the initial contents of the accumulator caches
    are. *)
Theorem engine_deterministic (k : nat) (d_A d_B : mem)
    (vectorN elementN gridDim_x blockDim_x blockDim_y : Z) (C : mem)
    (fuel1 fuel2 : nat) (bs1 bs2 : list Z)
    (order1 order2 : Z -> nat -> list (Z * Z))
    (shared1 shared2 : Z -> mem) :
  engine_ok_orders k vectorN elementN gridDim_x blockDim_x blockDim_y
    fuel1 bs1 order1 ->
  engine_ok_orders k vectorN elementN gridDim_x blockDim_x blockDim_y
    fuel2 bs2 order2 ->
  vectorN <= 256 \/ blockDim_y = 1 ->
  blockDim_x = 1 \/ vectorN <= gridDim_x ->
  exists C1 C2,
    scalarProdGPU_orders (2 ^ Z.of_nat k) d_A d_B vectorN elementN gridDim_x
      blockDim_x fuel1 bs1 order1 shared1 C = Some C1 /\
    scalarProdGPU_orders (2 ^ Z.of_nat k) d_A d_B vectorN elementN gridDim_x
      blockDim_x fuel2 bs2 order2 shared2 C = Some C2 /\
    forall s, C1 s = C2 s.
Proof.
  intros Hok1 Hok2 Hrows Hfree.
  now apply (engine_same_output k d_A d_B vectorN elementN blockDim_y C
               gridDim_x blockDim_x gridDim_x blockDim_x).
Qed.

(** The benchmark's batch on 256 blocks, one vector per block. *)
Lemma bench_wide_ok (fuel : nat) (bs : list Z)
    (order : Z -> nat -> list (Z * Z)) :
  4096 <= Z.of_nat fuel ->
  Permutation bs (seqZ 256) ->
  (forall b j, Permutation (order b j) (block_threads 256 3)) ->
  engine_ok_orders 10 256 4096 256 256 3 fuel bs order.
Proof.
  intros Hf Hbs Hts b j.
  constructor; change (2 ^ Z.of_nat 10) with 1024; try lia; try assumption.
  - apply Hts.
  - intros vec Hv. apply vec_ok_small; lia.
Qed.

Lemma engine_deterministic_witness :
  exists C1 C2,
    scalarProdGPU_orders (2 ^ Z.of_nat 10) ones ones 256 4096 256 256
      4096%nat (seqZ 256) bench_orders (fun _ => zeros) zeros = Some C1 /\
    scalarProdGPU_orders (2 ^ Z.of_nat 10) ones ones 256 4096 256 256
      5000%nat (rev (seqZ 256)) (fun _ _ => rev bench_threads)
      (fun _ => ones) zeros = Some C2 /\
    forall s, C1 s = C2 s.
Proof.
  apply (engine_deterministic 10 ones ones 256 4096 256 256 3 zeros).
  - apply bench_wide_ok;
      [lia|apply Permutation_refl|exact bench_orders_perm].
  - apply bench_wide_ok; [lia| |intros b j];
      apply Permutation_sym, Permutation_rev.
  - left. lia.
  - right. lia.
Defined.

(** Slot 256 after one block of the launch of 257 vectors on three blocks of
    two rows: block 0 writes it for vector 0 (row 1), block 1 writes it for
    vector 256 (row 0), block 2 does not write it. *)
Lemma overlap_block_256 (shared : mem) (b : Z) (C : mem) :
  0 <= b < 3 ->
  exists C',
    run_block (2 ^ Z.of_nat 10) unit_at_0 ones 257 1 3 1 1024%nat
      (block_threads 1 2) shared b C = Some C' /\
    C' 256 = if b =? 0 then fone else if b =? 1 then fzero else C 256.
Proof.
  intros Hb. destruct (overlap_ok (seqZ 3) (Permutation_refl _)).
  destruct (run_block_spec 10 unit_at_0 ones 257 1 3 1 2 1024
              (block_threads 1 2) ok_accum0 ok_grid0 ok_block_x0 ok_block_y0
              ok_threads0 ok_fuel0 ok_vec0 shared b C Hb)
    as (C' & E & Hs & _).
  exists C'. split; [exact E|].
  assert (H256 : 256 <> 0 \/ b <> 0) by (left; lia).
  specialize (Hs 256 H256).
  assert (Hw : forall vec, In vec (stride_list b 257 3) ->
                 writes_slot 2 vec 256 ->
                 (vec = 0 /\ b = 0) \/ (vec = 256 /\ b = 1)).
  { intros vec Hin (ty & Hy & Hty).
    apply in_stride_list in Hin; [|lia]. destruct Hin as [Hr Hm].
    assert (Hc : (ty = 0 /\ vec = 256) \/ (ty = 1 /\ vec = 0)) by lia.
    assert (Hbc : b = 0 \/ b = 1 \/ b = 2) by lia.
    destruct Hc as [[-> ->] | [-> ->]]; destruct Hbc as [-> | [-> | ->]];
      try (vm_compute in Hm; discriminate Hm); try lia. }
  assert (Hbc : b = 0 \/ b = 1 \/ b = 2) by lia.
  destruct Hbc as [-> | [-> | ->]]; cbn [Z.eqb Pos.eqb].
  - rewrite <- value_unit_0.
    apply (slot_value_exact 10 unit_at_0 ones 257 1 3 1); [|now left].
    apply (slot_state_one _ _ _ _ _ _ _ Hs).
    + apply in_stride_list; [lia|]. split; [lia|reflexivity].
    + exists 1. lia.
    + intros vec Hin W. destruct (Hw vec Hin W); lia.
  - rewrite <- value_unit_256.
    apply (slot_value_exact 10 unit_at_0 ones 257 1 3 1); [|now left].
    apply (slot_state_one _ _ _ _ _ _ _ Hs).
    + apply in_stride_list; [lia|]. split; [lia|reflexivity].
    + exists 0. lia.
    + intros vec Hin W. destruct (Hw vec Hin W); lia.
  - apply (slot_state_none _ _ _ _ _ _ Hs).
    intros vec Hin W. destruct (Hw vec Hin W); lia.
Qed.

(** C7. Two launches with the same inputs and the same configuration can
    return different outputs when two rows share a slot: with 257 vectors on
    three blocks of two rows, slot 256 is written for vector 0 by block 0
    (row 1) and for vector 256 by block 1 (row 0), and the two orders of
    these blocks leave different values in it. *)
Lemma engine_deterministic_block_order :
  exists C1 C2,
    scalarProdGPU ACCUM_N_default unit_at_0 ones 257 1 3 1 1024%nat
      [0; 1; 2] (block_threads 1 2) (fun _ => zeros) zeros = Some C1 /\
    scalarProdGPU ACCUM_N_default unit_at_0 ones 257 1 3 1 1024%nat
      [1; 0; 2] (block_threads 1 2) (fun _ => zeros) zeros = Some C2 /\
    C1 256 = fzero /\ C2 256 = fone /\ C1 256 <> C2 256.
Proof.
  change ACCUM_N_default with (2 ^ Z.of_nat 10).
  unfold scalarProdGPU. cbn [fold_left bind].
  destruct (overlap_block_256 zeros 0 zeros) as (Ca & Ea & Ha); [lia|].
  destruct (overlap_block_256 zeros 1 Ca) as (Cb & Eb & Hb); [lia|].
  destruct (overlap_block_256 zeros 2 Cb) as (Cc & Ec & Hc); [lia|].
  destruct (overlap_block_256 zeros 1 zeros) as (Cd & Ed & Hd); [lia|].
  destruct (overlap_block_256 zeros 0 Cd) as (Ce & Ee & He); [lia|].
  destruct (overlap_block_256 zeros 2 Ce) as (Cf & Ef & Hf); [lia|].
  cbn [Z.eqb Pos.eqb] in *.
  exists Cc, Cf. rewrite Ea, Ed. cbn [bind]. rewrite Eb, Ee. cbn [bind].
  split; [exact Ec|]. split; [exact Ef|].
  assert (H1 : Cc 256 = fzero) by congruence.
  assert (H2 : Cf 256 = fone) by congruence.
  split; [exact H1|]. split; [exact H2|].
  rewrite H1, H2. discriminate.
Qed.

(** ** The voter on the scenario of the specification *)

Ltac voter_side :=
  first [ apply Permutation_refl | lia | vm_compute; reflexivity ].

Lemma voter_agreement_passthrough_witness :
  result (vote 4 2 (grid_threads 2 2) scenario) 2 = copy 0 4 scenario 2 /\
  forall k x,
    ~ In (k, Store 2 x) (trace (vote 4 2 (grid_threads 2 2) scenario)).
Proof.
  apply (voter_agreement_passthrough 4 2 2 (grid_threads 2 2) scenario);
    voter_side.
Defined.

Lemma voter_majority_correction_witness :
  copy 0 4 (result (vote 4 2 (grid_threads 2 2) scenario)) 1 =
    copy 2 4 (result (vote 4 2 (grid_threads 2 2) scenario)) 1 /\
  copy 2 4 (result (vote 4 2 (grid_threads 2 2) scenario)) 1 =
    copy 2 4 scenario 1 /\
  feqb (copy 0 4 (result (vote 4 2 (grid_threads 2 2) scenario)) 1)
       (copy 2 4 (result (vote 4 2 (grid_threads 2 2) scenario)) 1) = true.
Proof.
  apply (voter_majority_correction 4 2 2 (grid_threads 2 2) scenario);
    try voter_side.
  left. vm_compute. reflexivity.
Defined.

Lemma voter_double_upset_witness :
  result (vote 4 2 (grid_threads 2 2) scenario) 3 = copy 0 4 scenario 3 /\
  In (3, PrintDUE (copy 0 4 scenario 3) (copy 1 4 scenario 3)
           (copy 2 4 scenario 3))
     (trace (vote 4 2 (grid_threads 2 2) scenario)) /\
  (forall j, 0 <= j < 4 -> j < 2 * 2 ->
     (exists x y z,
        In (j, PrintDUE x y z) (trace (vote 4 2 (grid_threads 2 2) scenario)))
     <->
     (fneb (copy 0 4 scenario j) (copy 1 4 scenario j) = true /\
      fneb (copy 0 4 scenario j) (copy 2 4 scenario j) = true /\
      fneb (copy 1 4 scenario j) (copy 2 4 scenario j) = true)) /\
  (forall j, 0 <= j < 4 -> j < 2 * 2 ->
     result (vote 4 2 (grid_threads 2 2) scenario) j =
     voted (copy 0 4 scenario j) (copy 1 4 scenario j) (copy 2 4 scenario j)).
Proof.
  apply (voter_double_upset 4 2 2 (grid_threads 2 2) scenario); voter_side.
Defined.

Lemma voter_nan_copies_witness :
  feqb fnan fnan = false /\
  In (0, PrintDUE fnan fnan fnan)
     (trace (vote 1 1 (grid_threads 1 1) nan_buffer)) /\
  result (vote 1 1 (grid_threads 1 1) nan_buffer) 0 = fnan /\
  result (vote 1 1 (grid_threads 1 1) nan_buffer) 0 = copy 0 1 nan_buffer 0.
Proof.
  apply (voter_nan_copies 1 1 1 (grid_threads 1 1) nan_buffer); voter_side.
Defined.

Lemma voter_frame_witness :
  (forall j, 4 <= j ->
     result (vote 4 2 (grid_threads 2 2) scenario) j = scenario j) /\
  (forall k i x,
     In (k, Store i x) (trace (vote 4 2 (grid_threads 2 2) scenario)) ->
     0 <= i < 4) /\
  (4 = 0 -> vote 4 2 (grid_threads 2 2) scenario = mkV scenario []).
Proof.
  apply (voter_frame 4 2 2 (grid_threads 2 2) scenario); voter_side.
Defined.

(** The scenario as a whole: [copy0] ends as [1 2 3 4], index 1 is
    rewritten with the value of [copy2], and index 3 is the one diagnostic. *)
Example voter_scenario :
  map (result (vote 4 2 (grid_threads 2 2) scenario)) [0; 1; 2; 3] =
    map float_of_Z [1; 2; 3; 4] /\
  filter (fun e => match snd e with PrintDUE _ _ _ => true | _ => false end)
         (trace (vote 4 2 (grid_threads 2 2) scenario)) =
    [(3, PrintDUE (float_of_Z 4) (float_of_Z 7) (float_of_Z 8))].
Proof.
  vm_compute. split; reflexivity.
Qed.

(** * Further properties of the voter *)

Lemma feqb_refl (x : float) : x <> fnan -> feqb x x = true.
Proof.
  intros Hx. unfold feqb, SFeqb, SFcompare.
  destruct x as [s|s| |s m e];
    [ | |exfalso; apply Hx; reflexivity| ];
    destruct s; rewrite ?Z.compare_refl, ?Pos.compare_cont_refl;
    reflexivity.
Qed.

Lemma feqb_not_nan_r (x y : float) : feqb x y = true -> y <> fnan.
Proof.
  intros H E. subst y. unfold feqb, SFeqb in H. destruct x; discriminate.
Qed.

Lemma voted_idem (c0 c1 c2 : float) :
  voted (voted c0 c1 c2) c1 c2 = voted c0 c1 c2.
Proof.
  unfold voted. destruct (feqb c0 c1) eqn:E01.
  - now rewrite E01.
  - destruct (feqb c0 c2 || feqb c1 c2) eqn:E.
    + destruct (feqb c2 c1); [reflexivity|].
      now destruct (feqb c2 c2 || feqb c1 c2).
    + now rewrite E01, E.
Qed.

Lemma filter_none {A : Type} (f : A -> bool) (l : list A) :
  (forall x, In x l -> f x = false) -> filter f l = [].
Proof.
  induction l as [|a l IH]; intros H; simpl; [reflexivity|].
  rewrite (H a) by now left. apply IH. intros x Hx. apply H. now right.
Qed.

Section VoterLaunch.

Variables size gridDim_x blockDim_x : Z.
Variable sched : list (Z * Z).
Variable r : mem.

Hypothesis Hsched : Permutation sched (grid_threads gridDim_x blockDim_x).
Hypothesis Hgrid : gridDim_x * blockDim_x <= 2 ^ 31.

(** The indices of the threads of the launch. *)
Lemma tid_of_range (t : Z * Z) :
  In t sched -> 0 <= tid_of blockDim_x t < gridDim_x * blockDim_x.
Proof.
  intros Ht.
  rewrite (tid_of_exact blockDim_x gridDim_x sched Hsched Hgrid t Ht).
  apply (in_sched blockDim_x gridDim_x sched Hsched) in Ht.
  assert (0 <= fst t * blockDim_x) by nia.
  assert (fst t * blockDim_x <= (gridDim_x - 1) * blockDim_x) by nia.
  assert ((gridDim_x - 1) * blockDim_x = gridDim_x * blockDim_x - blockDim_x)
    by ring.
  lia.
Qed.

(** Every event of a thread carries an index below [size]. *)
Lemma check_correctness_events (t : Z * Z) (st : vstate) (j : Z)
    (a : action) :
  In (j, a) (trace (check_correctness size blockDim_x (fst t) (snd t) st)) ->
  In (j, a) (trace st) \/ (j = tid_of blockDim_x t /\ j < size).
Proof.
  unfold check_correctness. fold (tid_of blockDim_x t).
  destruct (Z.geb_spec (tid_of blockDim_x t) size) as [?|Hlt]; [now left|].
  intros H.
  repeat match type of H with
         | context [if ?c then _ else _] => destruct c
         end; simpl in H; rewrite ?in_app_iff in H; simpl in H;
    repeat match type of H with
           | _ \/ _ => destruct H as [H|H]
           end;
    try (now left); try contradiction;
    inversion H; subst; right; auto.
Qed.

Lemma run_voter_events (l : list (Z * Z)) (st : vstate) (j : Z) (a : action) :
  In (j, a) (trace (run_voter size blockDim_x l st)) ->
  In (j, a) (trace st) \/
  exists t, In t l /\ j = tid_of blockDim_x t /\ j < size.
Proof.
  revert st. induction l as [|t l IH]; intros st H; simpl in H; [now left|].
  apply IH in H as [H|(t' & Ht' & H)].
  - apply check_correctness_events in H as [H|H]; [now left|].
    right. exists t. split; [now left|exact H].
  - right. exists t'. split; [now right|exact H].
Qed.

(** An index outside [0, size) or without a thread is left alone. *)
Lemma voter_untouched (j : Z) :
  ~ (0 <= j < size /\ j < gridDim_x * blockDim_x) ->
  result (vote size blockDim_x sched r) j = r j.
Proof.
  intros Hj. unfold vote. apply run_voter_frame.
  destruct (Z_le_dec size j) as [?|Hlt]; [now left|right].
  intros t Ht E. pose proof (tid_of_range t Ht). lia.
Qed.

Lemma voter_event_range (j : Z) (a : action) :
  In (j, a) (trace (vote size blockDim_x sched r)) ->
  0 <= j < size /\ j < gridDim_x * blockDim_x.
Proof.
  intros H. apply run_voter_events in H as [[]|(t & Ht & -> & Hlt)].
  pose proof (tid_of_range t Ht). lia.
Qed.

(** The threads before and after the thread of an index have other
    indices. *)
Lemma sched_split (t : Z * Z) :
  In t sched ->
  exists l1 l2,
    sched = l1 ++ t :: l2 /\
    (forall t', In t' l1 -> tid_of blockDim_x t' <> tid_of blockDim_x t) /\
    (forall t', In t' l2 -> tid_of blockDim_x t' <> tid_of blockDim_x t).
Proof.
  intros Hin. destruct (in_split _ _ Hin) as (l1 & l2 & Heq).
  exists l1, l2. split; [exact Heq|].
  assert (Hnd : NoDup (l1 ++ t :: l2)).
  { rewrite <- Heq.
    apply (Permutation_NoDup (Permutation_sym Hsched)).
    apply NoDup_list_prod; apply NoDup_seqZ. }
  apply NoDup_remove_2 in Hnd.
  assert (Hinj : forall t', In t' sched ->
            tid_of blockDim_x t' = tid_of blockDim_x t -> t' = t).
  { intros t' Ht' E.
    rewrite !(tid_of_exact blockDim_x gridDim_x sched Hsched Hgrid) in E
      by assumption.
    apply (in_sched blockDim_x gridDim_x sched Hsched) in Ht', Hin.
    destruct t as [b x], t' as [b' x']. simpl in *.
    assert (b' = b) by nia. subst b'. f_equal. lia. }
  split; intros t' Ht' E; apply Hnd.
  - rewrite <- (Hinj t'); [apply in_or_app; now left| |exact E].
    rewrite Heq. apply in_or_app. now left.
  - rewrite <- (Hinj t'); [apply in_or_app; now right| |exact E].
    rewrite Heq. apply in_or_app. right. now right.
Qed.

Hypothesis Hsize : 3 * size <= 2 ^ 31.

(** The events of one index in the trace of the launch are those of its
    thread on the initial buffer, in their order. *)
Lemma voter_filter_at (f : event -> bool) (t : Z * Z) :
  In t sched -> 0 <= tid_of blockDim_x t < size ->
  (forall e, f e = true -> fst e = tid_of blockDim_x t) ->
  filter f (trace (vote size blockDim_x sched r)) =
  filter f (trace (check_correctness size blockDim_x (fst t) (snd t)
                     (mkV r []))).
Proof.
  intros Hin Htid Hf.
  destruct (sched_split t Hin) as (l1 & l2 & Heq & Hl1 & Hl2).
  assert (Hskip : forall l st,
            (forall t', In t' l ->
               tid_of blockDim_x t' <> tid_of blockDim_x t) ->
            filter f (trace (run_voter size blockDim_x l st)) =
            filter f (trace st)).
  { induction l as [|t0 l IH]; intros st Hl; simpl; [reflexivity|].
    rewrite IH by (intros t' Ht'; apply Hl; now right).
    destruct (check_correctness_local size blockDim_x t0 st (result st))
      as [_ Htr]; try reflexivity.
    rewrite Htr, filter_app.
    rewrite (filter_none f (trace (check_correctness _ _ _ _ _))).
    - apply app_nil_r.
    - intros [j a] He. destruct (f (j, a)) eqn:Ef; [|reflexivity].
      apply Hf in Ef. simpl in Ef. subst j.
      assert (Hne : tid_of blockDim_x t0 <> tid_of blockDim_x t)
        by (apply Hl; now left).
      apply (proj1 (check_correctness_tags size blockDim_x t0
                      (mkV (result st) []) _ a Hne)) in He.
      destruct He. }
  unfold vote. rewrite Heq, run_voter_app. simpl. rewrite Hskip by exact Hl2.
  set (st1 := run_voter size blockDim_x l1 (mkV r [])).
  destruct (check_correctness_local size blockDim_x t st1 r) as [_ Htr].
  - unfold st1. rewrite run_voter_frame; auto.
  - unfold st1. rewrite run_voter_frame; [reflexivity|]. left.
    rewrite wrap32_id; lia.
  - unfold st1. rewrite run_voter_frame; [reflexivity|]. left.
    rewrite (wrap32_id (size * 2)) by lia. rewrite wrap32_id; lia.
  - rewrite Htr, filter_app. unfold st1. rewrite Hskip by exact Hl1.
    reflexivity.
Qed.

End VoterLaunch.

Section VoterFurther.

Variables size gridDim_x blockDim_x : Z.
Variable sched : list (Z * Z).
Variable r : mem.

Hypothesis Hsched : Permutation sched (grid_threads gridDim_x blockDim_x).
Hypothesis Hgrid : gridDim_x * blockDim_x <= 2 ^ 31.
Hypothesis Hsize : 3 * size <= 2 ^ 31.
Hypothesis Hbd : 0 < blockDim_x.

(** Two copies that hold the same value outvote the third. *)
Lemma voter_masks (tid : Z) (x : float) :
  0 <= tid < size -> tid < gridDim_x * blockDim_x ->
  x <> fnan ->
  (copy 0 size r tid = x /\ copy 1 size r tid = x) \/
  (copy 0 size r tid = x /\ copy 2 size r tid = x) \/
  (copy 1 size r tid = x /\ copy 2 size r tid = x) ->
  feqb (result (vote size blockDim_x sched r) tid) x = true /\
  forall a b c,
    ~ In (tid, PrintDUE a b c) (trace (vote size blockDim_x sched r)).
Proof.
  intros Htid Hcov Hx Htwo. pose proof (feqb_refl x Hx) as Hxx. split.
  - rewrite (voter_voted size gridDim_x blockDim_x sched r) by assumption.
    unfold voted.
    destruct Htwo as [[E0 E1]|[[E0 E2]|[E1 E2]]].
    + rewrite E0, E1, Hxx. exact Hxx.
    + rewrite E0, E2, Hxx.
      destruct (feqb x (copy 1 size r tid)); exact Hxx.
    + rewrite E1, E2, Hxx, orb_true_r.
      destruct (feqb (copy 0 size r tid) x) eqn:E; [exact E|exact Hxx].
  - intros a b c Hin.
    apply (voter_due_iff size gridDim_x blockDim_x sched r) in Hin;
      try assumption.
    destruct Hin as [(H01 & H02 & H12) _]. unfold fneb in *.
    destruct Htwo as [[E0 E1]|[[E0 E2]|[E1 E2]]].
    + rewrite E0, E1, Hxx in H01. discriminate.
    + rewrite E0, E2, Hxx in H02. discriminate.
    + rewrite E1, E2, Hxx in H12. discriminate.
Qed.

(** X1. Single-upset masking: when two of the three copies of an index hold
    the same value [x] that is not a NaN, whatever the third copy holds, the
    voter leaves in [copy0] a value that compares equal to [x], and prints
    no diagnostic for that index. *)
Theorem voter_single_upset (tid : Z) (x : float) :
  0 <= tid < size -> tid < gridDim_x * blockDim_x ->
  x <> fnan ->
  (copy 0 size r tid = x /\ copy 1 size r tid = x) \/
  (copy 0 size r tid = x /\ copy 2 size r tid = x) \/
  (copy 1 size r tid = x /\ copy 2 size r tid = x) ->
  feqb (result (vote size blockDim_x sched r) tid) x = true /\
  forall a b c,
    ~ In (tid, PrintDUE a b c) (trace (vote size blockDim_x sched r)).
Proof.
  intros Htid Hcov Hx Htwo. now apply voter_masks.
Qed.

(** X2. The voter is idempotent on the buffer: a second launch, under any
    schedule [sched'], leaves every cell as the first launch left it. *)
Theorem voter_idempotent (sched' : list (Z * Z)) (j : Z) :
  Permutation sched' (grid_threads gridDim_x blockDim_x) ->
  result (vote size blockDim_x sched'
            (result (vote size blockDim_x sched r))) j =
  result (vote size blockDim_x sched r) j.
Proof.
  intros Hsched'.
  set (r1 := result (vote size blockDim_x sched r)).
  destruct (Z_le_dec 0 j) as [H0|H0];
    [destruct (Z_lt_dec j size) as [H1|H1];
     [destruct (Z_lt_dec j (gridDim_x * blockDim_x)) as [H2|H2]|]|];
    try (apply (voter_untouched size gridDim_x blockDim_x sched' r1
                  Hsched' Hgrid); lia).
  rewrite (voter_voted size gridDim_x blockDim_x sched' r1) by
    (try assumption; lia).
  assert (E1 : copy 1 size r1 j = copy 1 size r j).
  { rewrite !copy1_eq. unfold r1, vote.
    apply run_voter_frame. left. lia. }
  assert (E2 : copy 2 size r1 j = copy 2 size r j).
  { rewrite !copy2_eq. unfold r1, vote.
    apply run_voter_frame. left. lia. }
  assert (E0 : copy 0 size r1 j =
               voted (copy 0 size r j) (copy 1 size r j) (copy 2 size r j)).
  { rewrite copy0_eq. unfold r1.
    apply (voter_voted size gridDim_x blockDim_x sched r);
      try assumption; lia. }
  rewrite E0, E1, E2, voted_idem.
  symmetry. unfold r1.
  apply (voter_voted size gridDim_x blockDim_x sched r); try assumption; lia.
Qed.

(** X3. The outcome of the voter does not depend on the order in which the
    threads run: two schedules of the same launch leave the same buffer and
    the same events. *)
Theorem voter_schedule_independent (sched' : list (Z * Z)) :
  Permutation sched' (grid_threads gridDim_x blockDim_x) ->
  (forall j, result (vote size blockDim_x sched r) j =
             result (vote size blockDim_x sched' r) j) /\
  (forall e, In e (trace (vote size blockDim_x sched r)) <->
             In e (trace (vote size blockDim_x sched' r))).
Proof.
  intros Hsched'. split.
  - intros j.
    destruct (Z_le_dec 0 j) as [H0|H0];
      [destruct (Z_lt_dec j size) as [H1|H1];
       [destruct (Z_lt_dec j (gridDim_x * blockDim_x)) as [H2|H2]|]|];
      try (rewrite (voter_untouched size gridDim_x blockDim_x sched r
                      Hsched Hgrid) by lia;
           rewrite (voter_untouched size gridDim_x blockDim_x sched' r
                      Hsched' Hgrid) by lia;
           reflexivity).
    rewrite (voter_voted size gridDim_x blockDim_x sched r),
      (voter_voted size gridDim_x blockDim_x sched' r);
      try assumption; try lia. reflexivity.
  - assert (Hone : forall s1 s2,
              Permutation s1 (grid_threads gridDim_x blockDim_x) ->
              Permutation s2 (grid_threads gridDim_x blockDim_x) ->
              forall e, In e (trace (vote size blockDim_x s1 r)) ->
                        In e (trace (vote size blockDim_x s2 r))).
    { intros s1 s2 H1 H2 [j a] Hin.
      pose proof (voter_event_range size gridDim_x blockDim_x s1 r H1 Hgrid
                    j a Hin) as [Hj Hc].
      destruct (voter_at size gridDim_x blockDim_x s1 r H1 Hgrid Hsize Hbd
                  j Hj Hc) as (t1 & Ht1 & _ & Htr1).
      destruct (voter_at size gridDim_x blockDim_x s2 r H2 Hgrid Hsize Hbd
                  j Hj Hc) as (t2 & Ht2 & _ & Htr2).
      apply Htr2. apply Htr1 in Hin.
      rewrite (check_correctness_alone size blockDim_x r Hsize t1 j Ht1 Hj)
        in Hin.
      rewrite (check_correctness_alone size blockDim_x r Hsize t2 j Ht2 Hj).
      exact Hin. }
    intros e. split; apply Hone; assumption.
Qed.

(** X4. An index outside [0, size), or at or beyond the number of threads of
    the launch, is left alone: its cell keeps its value and the trace has no
    event for it.  A launch with fewer threads than [size] leaves the tail
    of [copy0] unvoted. *)
Theorem voter_uncovered (j : Z) :
  ~ (0 <= j < size /\ j < gridDim_x * blockDim_x) ->
  result (vote size blockDim_x sched r) j = r j /\
  forall a, ~ In (j, a) (trace (vote size blockDim_x sched r)).
Proof.
  clear Hsize Hbd. intros Hj. split.
  - now apply (voter_untouched size gridDim_x blockDim_x sched r).
  - intros a Hin. apply Hj.
    now apply (voter_event_range size gridDim_x blockDim_x sched r
                 Hsched Hgrid j a).
Qed.

(** X5. Every index is reported at most once: the diagnostics of the index
    [tid] in the trace are the one [DUE] line with its three copies when the
    copies are pairwise unequal, and none otherwise. *)
Theorem voter_due_once (tid : Z) :
  0 <= tid < size -> tid < gridDim_x * blockDim_x ->
  filter (is_due_at tid) (trace (vote size blockDim_x sched r)) =
  if fneb (copy 0 size r tid) (copy 1 size r tid) &&
     fneb (copy 0 size r tid) (copy 2 size r tid) &&
     fneb (copy 1 size r tid) (copy 2 size r tid)
  then [(tid, PrintDUE (copy 0 size r tid) (copy 1 size r tid)
                (copy 2 size r tid))]
  else [].
Proof.
  intros Htid Hcov.
  destruct (thread_of_index blockDim_x gridDim_x sched Hsched Hgrid tid)
    as (t & Hin & Ht); [assumption|lia|].
  rewrite (voter_filter_at size gridDim_x blockDim_x sched r Hsched Hgrid
             Hsize (is_due_at tid) t Hin).
  - rewrite (check_correctness_alone size blockDim_x r Hsize t tid Ht Htid).
    destruct (fneb (copy 0 size r tid) (copy 1 size r tid));
      [destruct (fneb (copy 0 size r tid) (copy 2 size r tid));
       [destruct (fneb (copy 1 size r tid) (copy 2 size r tid))|]|];
      unfold is_due_at; simpl; rewrite ?Z.eqb_refl; reflexivity.
  - rewrite Ht. exact Htid.
  - intros e He. unfold is_due_at in He. apply andb_true_iff in He.
    destruct He as [He _]. apply Z.eqb_eq in He. now rewrite Ht.
Qed.

End VoterFurther.

Lemma voter_single_upset_witness :
  feqb (result (vote 4 2 (grid_threads 2 2) scenario) 1) (float_of_Z 2) = true
  /\ forall a b c,
       ~ In (1, PrintDUE a b c) (trace (vote 4 2 (grid_threads 2 2) scenario)).
Proof.
  apply (voter_single_upset 4 2 2 (grid_threads 2 2) scenario); try voter_side.
  - discriminate.
  - right. left. split; vm_compute; reflexivity.
Defined.

Lemma voter_idempotent_witness :
  result (vote 4 2 (rev (grid_threads 2 2))
            (result (vote 4 2 (grid_threads 2 2) scenario))) 1 =
  result (vote 4 2 (grid_threads 2 2) scenario) 1.
Proof.
  apply (voter_idempotent 4 2 2 (grid_threads 2 2) scenario); try voter_side.
  apply Permutation_sym, Permutation_rev.
Defined.

Lemma voter_schedule_independent_witness :
  (forall j, result (vote 4 2 (grid_threads 2 2) scenario) j =
             result (vote 4 2 (rev (grid_threads 2 2)) scenario) j) /\
  (forall e, In e (trace (vote 4 2 (grid_threads 2 2) scenario)) <->
             In e (trace (vote 4 2 (rev (grid_threads 2 2)) scenario))).
Proof.
  apply (voter_schedule_independent 4 2 2 (grid_threads 2 2) scenario);
    try voter_side.
  apply Permutation_sym, Permutation_rev.
Defined.

Lemma voter_uncovered_witness :
  result (vote 4 1 (grid_threads 2 1) scenario) 3 = scenario 3 /\
  forall a, ~ In (3, a) (trace (vote 4 1 (grid_threads 2 1) scenario)).
Proof.
  apply (voter_uncovered 4 2 1 (grid_threads 2 1) scenario); try voter_side.
Defined.

Lemma voter_due_once_witness :
  filter (is_due_at 3) (trace (vote 4 2 (grid_threads 2 2) scenario)) =
  if fneb (copy 0 4 scenario 3) (copy 1 4 scenario 3) &&
     fneb (copy 0 4 scenario 3) (copy 2 4 scenario 3) &&
     fneb (copy 1 4 scenario 3) (copy 2 4 scenario 3)
  then [(3, PrintDUE (copy 0 4 scenario 3) (copy 1 4 scenario 3)
              (copy 2 4 scenario 3))]
  else [].
Proof.
  apply (voter_due_once 4 2 2 (grid_threads 2 2) scenario); voter_side.
Defined.

(** * Further properties of the kernel *)

(** ** The 24-bit multiplication *)

(** X6. [IMUL] is the multiplication when the two operands fit in 24 signed
    bits and the product in 32 (the restriction of lines 15-21): it is then
    exact, and in any case it is the product wrapped to 32 bits. *)
Theorem IMUL_in_range (a b : Z) :
  - 2 ^ 23 <= a < 2 ^ 23 -> - 2 ^ 23 <= b < 2 ^ 23 ->
  IMUL a b = wrap32 (a * b) /\
  (- 2 ^ 31 <= a * b < 2 ^ 31 -> IMUL a b = a * b).
Proof.
  intros Ha Hb. split.
  - unfold IMUL. now rewrite !sext24_id.
  - intros Hab. now apply IMUL_exact.
Qed.

Lemma IMUL_in_range_witness :
  IMUL 4096 255 = wrap32 (4096 * 255) /\
  (- 2 ^ 31 <= 4096 * 255 < 2 ^ 31 -> IMUL 4096 255 = 4096 * 255).
Proof.
  apply (IMUL_in_range 4096 255); lia.
Defined.

(** X7. [IMUL] ignores the bits of its operands above the 24th: operands
    that differ by multiples of [2^24] give the same product, so a vector
    index of [2^24] or more is taken for a smaller one. *)
Theorem IMUL_high_bits (a b m n : Z) :
  IMUL (a + m * 2 ^ 24) (b + n * 2 ^ 24) = IMUL a b.
Proof.
  unfold IMUL, sext24.
  replace (a + m * 2 ^ 24 + 2 ^ 23) with (a + 2 ^ 23 + m * 2 ^ 24) by ring.
  replace (b + n * 2 ^ 24 + 2 ^ 23) with (b + 2 ^ 23 + n * 2 ^ 24) by ring.
  now rewrite !Z_mod_plus_full.
Qed.

(** ** The slots of a launch *)

Lemma tree_fun_zero (m : nat) : tree_fun m (fun _ => fzero) = fzero.
Proof.
  induction m as [|m IH]; [reflexivity|]. cbn [tree_fun].
  transitivity (tree_fun m (fun _ => fzero)); [|exact IH].
  apply tree_fun_ext. reflexivity.
Qed.

Lemma upper_zero (m : nat) :
  forall f : Z -> float,
    (forall i, 0 <= i -> f i = fzero) ->
    forall i, 0 <= i -> upper m f i = fzero.
Proof.
  induction m as [|m IH]; intros f Hf i Hi; [now apply Hf|].
  cbn [upper]. apply IH; [|exact Hi]. intros j Hj. unfold round_fun.
  pose proof (pow2_pos (S m)). rewrite !Hf by lia. reflexivity.
Qed.

(** A vector whose end is not after its base has no element to sum. *)
Lemma lanes_empty (k : nat) (A B : mem) (elementN v i : Z) :
  wrap32 (IMUL elementN v + elementN) <= IMUL elementN v -> 0 <= i ->
  lanes k A B elementN v i = fzero.
Proof.
  intros H Hi. unfold lanes, lane_value.
  now rewrite stride_list_nil by lia.
Qed.

Lemma vec_value_empty (k : nat) (A B : mem) (elementN v : Z) :
  wrap32 (IMUL elementN v + elementN) <= IMUL elementN v ->
  vec_value k A B elementN v = fzero.
Proof.
  intros H. unfold vec_value. rewrite <- (tree_fun_zero k).
  apply tree_fun_ext. intros i Hi.
  apply (lanes_empty k A B elementN v i H). lia.
Qed.

(** The value of a vector is a function of its own elements. *)
Lemma vec_value_local (k : nat) (A B A' B' : mem) (elementN v : Z) :
  0 <= elementN < 2 ^ 23 -> 0 <= v < 2 ^ 23 ->
  elementN * (v + 1) < 2 ^ 31 ->
  (forall p, elementN * v <= p < elementN * v + elementN ->
     A p = A' p /\ B p = B' p) ->
  vec_value k A B elementN v = vec_value k A' B' elementN v.
Proof.
  intros He Hv Hp Hagree. unfold vec_value.
  assert (H0 : 0 <= elementN * v) by nia.
  assert (H1 : elementN * (v + 1) = elementN * v + elementN) by ring.
  rewrite IMUL_exact by lia. rewrite wrap32_id by lia.
  apply tree_fun_ext. intros i Hi. unfold lane_value, lane_fold.
  apply fold_left_ext. intros s p Hin.
  apply in_stride_list in Hin; [|apply Z.pow_pos_nonneg; lia].
  destruct (Hagree p) as [-> ->]; [lia|reflexivity].
Qed.

Lemma bench_empty_ok :
  engine_ok 10 256 0 128 256 3 1024 bench_blocks bench_threads.
Proof.
  constructor; change (2 ^ Z.of_nat 10) with 1024; try lia.
  - apply Permutation_refl.
  - apply Permutation_refl.
  - intros vec Hv. apply vec_ok_small; lia.
Qed.



Lemma output_at_some (o : option mem) (s : Z) (x : float) :
  output_at o s = Some x -> exists C', o = Some C' /\ C' s = x.
Proof.
  destruct o as [C'|]; [|discriminate]. intros H. exists C'.
  split; [reflexivity|]. now inversion H.
Qed.

(** X16. The race on accumulator 1.  One block of two threads in one
    row, three vectors of four elements 1.0: when thread 0 runs first between
    two barriers [C[1]] is 4.0, the value of vector 1, and when thread 1
    runs first it is 3.0, the sum of accumulators 0 and 2 of vector 1 and
    of accumulator 1 of vector 2. *)
Lemma engine_thread_order :
  exists C1 C2,
    scalarProdGPU ACCUM_N_default ones ones 3 4 1 2 1024%nat
      [0] [(0, 0); (1, 0)] (fun _ => zeros) zeros = Some C1 /\
    scalarProdGPU ACCUM_N_default ones ones 3 4 1 2 1024%nat
      [0] [(1, 0); (0, 0)] (fun _ => zeros) zeros = Some C2 /\
    C1 1 = float_of_Z 4 /\ C2 1 = float_of_Z 3 /\ C1 1 <> C2 1 /\
    C1 1 = vec_value 10 ones ones 4 1 /\
    C2 1 = racy_value 10 ones ones 4 1 1.
Proof.
  assert (H1 : output_at
                 (scalarProdGPU ACCUM_N_default ones ones 3 4 1 2 1024%nat
                    [0] [(0, 0); (1, 0)] (fun _ => zeros) zeros) 1 =
               Some (float_of_Z 4)) by (vm_compute; reflexivity).
  assert (H2 : output_at
                 (scalarProdGPU ACCUM_N_default ones ones 3 4 1 2 1024%nat
                    [0] [(1, 0); (0, 0)] (fun _ => zeros) zeros) 1 =
               Some (float_of_Z 3)) by (vm_compute; reflexivity).
  apply output_at_some in H1. destruct H1 as (C1 & E1 & V1).
  apply output_at_some in H2. destruct H2 as (C2 & E2 & V2).
  exists C1, C2. split; [exact E1|]. split; [exact E2|].
  split; [exact V1|]. split; [exact V2|].
  rewrite V1, V2. split; [|split].
  - intros X. vm_compute in X. discriminate X.
  - vm_compute. reflexivity.
  - vm_compute. reflexivity.
Qed.

(** X17. The kernel returns and [C[0]] is the sentinel 1 when the order of
    the threads changes at every barrier too: the launch ends for every order
    of the blocks and every sequence of orders of the threads, and thread
    (0, 0) of block 0 writes slot 0 last. *)
Theorem engine_returns (k : nat) (d_A d_B : mem)
    (vectorN elementN gridDim_x blockDim_x blockDim_y : Z) (fuel : nat)
    (bs : list Z) (order : Z -> nat -> list (Z * Z)) (shared : Z -> mem)
    (C : mem) :
  engine_ok_orders k vectorN elementN gridDim_x blockDim_x blockDim_y fuel
    bs order ->
  exists C',
    scalarProdGPU_orders (2 ^ Z.of_nat k) d_A d_B vectorN elementN gridDim_x
      blockDim_x fuel bs order shared C = Some C' /\
    C' 0 = fone.
Proof.
  intros Hok.
  destruct (orders_spec k d_A d_B vectorN elementN gridDim_x blockDim_x
              blockDim_y fuel bs order shared C Hok) as (C' & E & H0 & _).
  now exists C'.
Qed.

Lemma engine_returns_witness :
  exists C',
    scalarProdGPU_orders (2 ^ Z.of_nat 10) ones ones 256 4096 128 256
      4096%nat bench_blocks bench_orders (fun _ => zeros) zeros = Some C' /\
    C' 0 = fone.
Proof.
  apply (engine_returns 10 ones ones 256 4096 128 256 3 4096 bench_blocks
           bench_orders (fun _ => zeros) zeros).
  apply bench_orders_ok. lia.
Defined.

(** X8. The output does not depend on the layout of the launch: when no
    two rows share a slot (at most 256 vectors, or one row) and no last
    round is raced by a next vector (one thread per row, or at most one vector
    per block), two launches of the same batch with different numbers of
    blocks and of threads per row, different orders of blocks and threads,
    different fuels and different initial contents of the accumulator
    caches return the same array. *)
Theorem engine_layout_independent (k : nat) (d_A d_B : mem)
    (vectorN elementN blockDim_y : Z) (C : mem)
    (gridDim_x1 blockDim_x1 gridDim_x2 blockDim_x2 : Z)
    (fuel1 fuel2 : nat) (bs1 bs2 : list Z)
    (order1 order2 : Z -> nat -> list (Z * Z))
    (shared1 shared2 : Z -> mem) :
  engine_ok_orders k vectorN elementN gridDim_x1 blockDim_x1 blockDim_y
    fuel1 bs1 order1 ->
  engine_ok_orders k vectorN elementN gridDim_x2 blockDim_x2 blockDim_y
    fuel2 bs2 order2 ->
  vectorN <= 256 \/ blockDim_y = 1 ->
  blockDim_x1 = 1 \/ vectorN <= gridDim_x1 ->
  blockDim_x2 = 1 \/ vectorN <= gridDim_x2 ->
  exists C1 C2,
    scalarProdGPU_orders (2 ^ Z.of_nat k) d_A d_B vectorN elementN
      gridDim_x1 blockDim_x1 fuel1 bs1 order1 shared1 C = Some C1 /\
    scalarProdGPU_orders (2 ^ Z.of_nat k) d_A d_B vectorN elementN
      gridDim_x2 blockDim_x2 fuel2 bs2 order2 shared2 C = Some C2 /\
    forall s, C1 s = C2 s.
Proof.
  exact (engine_same_output k d_A d_B vectorN elementN blockDim_y C
           gridDim_x1 blockDim_x1 gridDim_x2 blockDim_x2 fuel1 fuel2
           bs1 bs2 order1 order2 shared1 shared2).
Qed.

Lemma engine_layout_independent_witness :
  exists C1 C2,
    scalarProdGPU_orders (2 ^ Z.of_nat 10) ones ones 256 4096 256 256
      4096%nat (seqZ 256) bench_orders (fun _ => zeros) zeros = Some C1 /\
    scalarProdGPU_orders (2 ^ Z.of_nat 10) ones ones 256 4096 1 1 4096%nat
      [0] (fun _ _ => block_threads 1 3) (fun _ => ones) zeros = Some C2 /\
    forall s, C1 s = C2 s.
Proof.
  apply (engine_layout_independent 10 ones ones 256 4096 3 zeros).
  - apply bench_wide_ok;
      [lia|apply Permutation_refl|exact bench_orders_perm].
  - intros b j. constructor; change (2 ^ Z.of_nat 10) with 1024; try lia.
    + apply Permutation_refl.
    + apply Permutation_refl.
    + intros vec Hv. apply vec_ok_small; lia.
  - left. lia.
  - right. lia.
  - left. lia.
Defined.

(** X9. Apart from slot 0, which gets the sentinel, the kernel writes inside
    [0, vectorN + 256 * (blockDim.y - 1)) only: every other slot below 0 or
    at or beyond that bound keeps its value. *)
Theorem engine_writes_bounded (k : nat) (d_A d_B : mem)
    (vectorN elementN gridDim_x blockDim_x blockDim_y : Z) (fuel : nat)
    (bs : list Z) (order : Z -> nat -> list (Z * Z)) (shared : Z -> mem)
    (C : mem) :
  engine_ok_orders k vectorN elementN gridDim_x blockDim_x blockDim_y fuel
    bs order ->
  exists C',
    scalarProdGPU_orders (2 ^ Z.of_nat k) d_A d_B vectorN elementN gridDim_x
      blockDim_x fuel bs order shared C = Some C' /\
    forall s, s <> 0 ->
      s < 0 \/ vectorN + 256 * (blockDim_y - 1) <= s ->
      C' s = C s.
Proof.
  intros Hok.
  destruct (orders_total k d_A d_B vectorN elementN gridDim_x blockDim_x
              blockDim_y fuel bs order shared C Hok) as (C' & E).
  exists C'. split; [exact E|]. intros s Hs Hout.
  apply (orders_slot_unwritten k d_A d_B vectorN elementN gridDim_x
           blockDim_x blockDim_y fuel bs order shared C C' Hok E);
    [exact Hs|].
  intros vec Hvec (ty & Hy & Hty). lia.
Qed.

Lemma engine_writes_bounded_witness :
  exists C',
    scalarProdGPU_orders (2 ^ Z.of_nat 10) ones ones 256 4096 128 256
      4096%nat bench_blocks bench_orders (fun _ => zeros) zeros = Some C' /\
    forall s, s <> 0 -> s < 0 \/ 256 + 256 * (3 - 1) <= s -> C' s = zeros s.
Proof.
  apply (engine_writes_bounded 10 ones ones 256 4096 128 256 3 4096
           bench_blocks bench_orders (fun _ => zeros) zeros).
  apply bench_orders_ok. lia.
Defined.

(** X10. Vectors without elements: for a non-positive [elementN] (inside the
    24-bit range of [IMUL]) the element loop is not entered and the kernel
    writes +0.0 for every vector [v > 0] whose slot is the slot of no other
    row; the slots of the vectors are written all the same. *)
Theorem engine_empty_vectors (k : nat) (d_A d_B : mem)
    (vectorN elementN gridDim_x blockDim_x blockDim_y : Z) (fuel : nat)
    (bs : list Z) (ts : list (Z * Z)) (shared : Z -> mem) (C : mem) (v : Z) :
  engine_ok k vectorN elementN gridDim_x blockDim_x blockDim_y fuel bs ts ->
  - 2 ^ 23 <= elementN <= 0 -> vectorN <= 2 ^ 23 ->
  - 2 ^ 31 <= elementN * vectorN ->
  v < 256 \/ blockDim_y = 1 ->
  0 < v < vectorN ->
  exists C',
    scalarProdGPU (2 ^ Z.of_nat k) d_A d_B vectorN elementN gridDim_x
      blockDim_x fuel bs ts shared C = Some C' /\
    C' v = fzero.
Proof.
  intros Hok He Hn Hp Hrow Hv.
  destruct (engine_total k d_A d_B vectorN elementN gridDim_x blockDim_x
              blockDim_y fuel bs ts shared C Hok) as (C' & E).
  exists C'. split; [exact E|].
  assert (Hempty : forall vec, 0 <= vec < vectorN ->
            wrap32 (IMUL elementN vec + elementN) <= IMUL elementN vec).
  { intros vec Hvec.
    assert (H0 : elementN * vec <= 0) by nia.
    assert (H1 : elementN * vectorN <= elementN * (vec + 1)) by nia.
    assert (H2 : elementN * (vec + 1) = elementN * vec + elementN) by ring.
    rewrite IMUL_exact by lia. rewrite wrap32_id by lia. lia. }
  destruct (engine_slot_written k d_A d_B vectorN elementN gridDim_x
              blockDim_x blockDim_y fuel bs ts shared C C' Hok E v v)
    as [Hx|(_ & _ & Hnext & Hx)]; try lia.
  - exists 0. destruct Hok. lia.
  - intros vec Hvec (ty & Hy & Hs). lia.
  - rewrite Hx. apply vec_value_empty, Hempty. lia.
  - rewrite Hx. unfold racy_value.
    rewrite upper_zero;
      [|intros i Hi; apply lanes_empty; [apply Hempty; lia|exact Hi]|lia].
    rewrite lanes_empty; [reflexivity| |lia].
    apply Hempty. destruct Hok as [_ [[Hg _] _] _ _ _ _ _ _]. lia.
Qed.

Lemma engine_empty_vectors_witness :
  exists C',
    scalarProdGPU (2 ^ Z.of_nat 10) ones ones 256 0 128 256 1024%nat
      bench_blocks bench_threads (fun _ => zeros) ones = Some C' /\
    C' 7 = fzero.
Proof.
  apply (engine_empty_vectors 10 ones ones 256 0 128 256 3 1024
           bench_blocks bench_threads (fun _ => zeros) ones 7).
  - exact bench_empty_ok.
  - lia.
  - lia.
  - lia.
  - left. lia.
  - lia.
Defined.

(** X11. The result for a vector depends on the elements of that vector only:
    inside the 24-bit range of [IMUL], for a vector [v] whose last round is
    not raced by the next vector of its block (one thread per row, or [v]
    is the last vector of its block), two batches that agree on the
    elements [elementN * v, ..., elementN * v + elementN - 1] of [d_A] and
    [d_B] get the same [C[v]], whatever the other elements and the initial
    outputs are. *)
Theorem engine_local (k : nat) (d_A d_B d_A' d_B' : mem)
    (vectorN elementN gridDim_x blockDim_x blockDim_y : Z) (fuel : nat)
    (bs : list Z) (order : Z -> nat -> list (Z * Z)) (shared : Z -> mem)
    (C C0 : mem) (v : Z) :
  engine_ok_orders k vectorN elementN gridDim_x blockDim_x blockDim_y fuel
    bs order ->
  0 <= elementN < 2 ^ 23 -> vectorN <= 2 ^ 23 ->
  elementN * vectorN < 2 ^ 31 ->
  v < 256 \/ blockDim_y = 1 ->
  blockDim_x = 1 \/ vectorN <= v + gridDim_x ->
  0 < v < vectorN ->
  (forall p, elementN * v <= p < elementN * v + elementN ->
     d_A p = d_A' p /\ d_B p = d_B' p) ->
  exists C1 C2,
    scalarProdGPU_orders (2 ^ Z.of_nat k) d_A d_B vectorN elementN gridDim_x
      blockDim_x fuel bs order shared C = Some C1 /\
    scalarProdGPU_orders (2 ^ Z.of_nat k) d_A' d_B' vectorN elementN
      gridDim_x blockDim_x fuel bs order shared C0 = Some C2 /\
    C1 v = C2 v.
Proof.
  intros Hok He Hn Hp Hrow Hfree Hv Hagree.
  destruct (orders_total k d_A d_B vectorN elementN gridDim_x blockDim_x
              blockDim_y fuel bs order shared C Hok) as (C1 & E1).
  destruct (orders_total k d_A' d_B' vectorN elementN gridDim_x blockDim_x
              blockDim_y fuel bs order shared C0 Hok) as (C2 & E2).
  exists C1, C2. split; [exact E1|]. split; [exact E2|].
  assert (Hw : writes_slot blockDim_y v v)
    by (exists 0; destruct (Hok 0 0%nat); lia).
  assert (Hu : forall vec, 0 <= vec < vectorN ->
                 writes_slot blockDim_y vec v -> vec = v)
    by (intros vec Hvec (ty & Hy & Hs); lia).
  rewrite (orders_slot_exact k d_A d_B vectorN elementN gridDim_x
             blockDim_x blockDim_y fuel bs order shared C C1 Hok E1 v v);
    try assumption; try lia.
  rewrite (orders_slot_exact k d_A' d_B' vectorN elementN gridDim_x
             blockDim_x blockDim_y fuel bs order shared C0 C2 Hok E2 v v);
    try assumption; try lia.
  apply vec_value_local; try lia; [nia|exact Hagree].
Qed.

Lemma engine_local_witness :
  exists C1 C2,
    scalarProdGPU_orders (2 ^ Z.of_nat 10) ones ones 256 4096 128 256
      4096%nat bench_blocks bench_orders (fun _ => zeros) zeros = Some C1 /\
    scalarProdGPU_orders (2 ^ Z.of_nat 10)
      (fun p => if p <? 4096 then fzero else fone) ones 256 4096 128 256
      4096%nat bench_blocks bench_orders (fun _ => zeros) ones = Some C2 /\
    C1 200 = C2 200.
Proof.
  apply (engine_local 10 ones ones
           (fun p => if p <? 4096 then fzero else fone) ones
           256 4096 128 256 3 4096 bench_blocks bench_orders
           (fun _ => zeros) zeros ones 200).
  - apply bench_orders_ok. lia.
  - lia.
  - lia.
  - lia.
  - left. lia.
  - right. lia.
  - lia.
  - intros p Hp. split; [|reflexivity]. unfold ones.
    destruct (Z.ltb_spec p 4096); [lia|reflexivity].
Defined.

(** ** The kernel followed by the voter *)

(** X12. The pipeline with three rows, 256 vectors and [size = 256], in a launch
    of the kernel where no last round is raced by a next vector (one
    thread per row, or one vector per block): a launch of the voter leaves
    in [copy0[v]], for every vector [v] whose value is not a NaN, a value
    that compares equal to the value of the kernel for [v], and prints no
    diagnostic for [v].  This holds for [v = 0] too: the two other rows
    outvote the sentinel of slot 0. *)
Theorem engine_then_vote (k : nat) (d_A d_B : mem)
    (elementN gridDim_x blockDim_x : Z) (fuel : nat)
    (bs : list Z) (order : Z -> nat -> list (Z * Z)) (shared : Z -> mem)
    (C : mem) (vote_grid vote_block : Z) (sched : list (Z * Z)) :
  engine_ok_orders k 256 elementN gridDim_x blockDim_x 3 fuel bs order ->
  blockDim_x = 1 \/ 256 <= gridDim_x ->
  Permutation sched (grid_threads vote_grid vote_block) ->
  vote_grid * vote_block <= 2 ^ 31 -> 0 < vote_block ->
  exists C',
    scalarProdGPU_orders (2 ^ Z.of_nat k) d_A d_B 256 elementN gridDim_x
      blockDim_x fuel bs order shared C = Some C' /\
    forall v, 0 <= v < 256 -> v < vote_grid * vote_block ->
      vec_value k d_A d_B elementN v <> fnan ->
      feqb (result (vote 256 vote_block sched C') v)
           (vec_value k d_A d_B elementN v) = true /\
      forall a b c,
        ~ In (v, PrintDUE a b c) (trace (vote 256 vote_block sched C')).
Proof.
  intros Hok Hfree Hsched Hgrid Hvb.
  destruct (orders_total k d_A d_B 256 elementN gridDim_x blockDim_x 3
              fuel bs order shared C Hok) as (C' & E).
  exists C'. split; [exact E|]. intros v Hv Hcov Hnan.
  assert (Hrow : forall r, 0 < r < 3 ->
            copy r 256 C' v = vec_value k d_A d_B elementN v).
  { intros r Hr. unfold copy.
    apply (orders_slot_exact k d_A d_B 256 elementN gridDim_x blockDim_x
             3 fuel bs order shared C C' Hok E); try lia.
    - exists r. lia.
    - intros vec Hvec (ty & Hy & Hs). lia. }
  apply (voter_masks 256 vote_grid vote_block sched C' Hsched Hgrid);
    try assumption; try lia.
  right. right. split; apply Hrow; lia.
Qed.

Lemma engine_then_vote_witness :
  exists C',
    scalarProdGPU_orders (2 ^ Z.of_nat 10) ones ones 256 4096 256 256
      4096%nat (seqZ 256) bench_orders (fun _ => zeros) zeros = Some C' /\
    forall v, 0 <= v < 256 -> v < 1 * 256 ->
      vec_value 10 ones ones 4096 v <> fnan ->
      feqb (result (vote 256 256 (grid_threads 1 256) C') v)
           (vec_value 10 ones ones 4096 v) = true /\
      forall a b c,
        ~ In (v, PrintDUE a b c)
            (trace (vote 256 256 (grid_threads 1 256) C')).
Proof.
  apply (engine_then_vote 10 ones ones 4096 256 256 4096 (seqZ 256)
           bench_orders (fun _ => zeros) zeros 1 256 (grid_threads 1 256)).
  - apply bench_wide_ok;
      [lia|apply Permutation_refl|exact bench_orders_perm].
  - right. lia.
  - apply Permutation_refl.
  - lia.
  - lia.
Defined.

(** ** The stores of the voter *)

(** X14. Every store of the voter is a correction from [copy2]: it is made
    by the thread of its index [i], inside [0, size), when [copy0[i]] and
    [copy1[i]] compare unequal, and the value stored is [copy2[i]]; the
    voter never copies from [copy1]. *)
Theorem voter_store_values (size gridDim_x blockDim_x : Z)
    (sched : list (Z * Z)) (r : mem) (k i : Z) (x : float) :
  Permutation sched (grid_threads gridDim_x blockDim_x) ->
  gridDim_x * blockDim_x <= 2 ^ 31 -> 3 * size <= 2 ^ 31 ->
  0 < blockDim_x ->
  In (k, Store i x) (trace (vote size blockDim_x sched r)) ->
  k = i /\ 0 <= i < size /\ x = copy 2 size r i /\
  fneb (copy 0 size r i) (copy 1 size r i) = true.
Proof.
  intros Hsched Hgrid Hsize Hbd Hin.
  destruct (voter_event_range size gridDim_x blockDim_x sched r Hsched Hgrid
              k _ Hin) as [Hk Hcov].
  destruct (voter_at size gridDim_x blockDim_x sched r Hsched Hgrid Hsize Hbd
              k Hk Hcov) as (t & Ht & _ & Htr).
  apply Htr in Hin.
  rewrite (check_correctness_alone size blockDim_x r Hsize t k Ht Hk) in Hin.
  destruct (fneb (copy 0 size r k) (copy 1 size r k)) eqn:E01;
    [destruct (fneb (copy 0 size r k) (copy 2 size r k));
     [destruct (fneb (copy 1 size r k) (copy 2 size r k))|]|];
    simpl in Hin;
    repeat match type of Hin with
           | _ \/ _ => destruct Hin as [Hin|Hin]
           end;
    try discriminate Hin; try contradiction;
    inversion Hin; subst; auto.
Qed.

Lemma voter_store_values_witness :
  1 = 1 /\ 0 <= 1 < 4 /\ float_of_Z 2 = copy 2 4 scenario 1 /\
  fneb (copy 0 4 scenario 1) (copy 1 4 scenario 1) = true.
Proof.
  apply (voter_store_values 4 2 2 (grid_threads 2 2) scenario 1 1
           (float_of_Z 2)); try voter_side.
  vm_compute. repeat (first [left; reflexivity | right]).
Defined.
